(** * OpenRTX: NVM access layer and A/B settings storage

    Shallow embedding of
    - [core/nvmem_device.h]  (nvm_devRead, nvm_devWrite, nvm_devErase),
    - [core/nvmem_access.c]  (nvm_getDesc, nvm_getPart, nvm_read, nvm_write,
                              nvm_erase),
    - [core/settings.c]      (default_settings_store ... settings_storage_save),
    and of the [settings_t] layout of [core/settings.h].

    C integers are modelled as [Z] with the wrap-around written out.  The
    firmware targets 32-bit microcontrollers, so [size_t] and [uint32_t] are
    both 32 bits wide.  Return codes are [Z]: zero on success, a negated errno
    value otherwise.  Out-parameters become components of the result. *)

From Stdlib Require Import ZArith List Bool Lia.
Import ListNotations.
Local Open Scope Z_scope.

(** ** C integer types *)

Definition to_u8 (x : Z) : Z := x mod 256.
Definition to_u16 (x : Z) : Z := x mod 65536.
Definition to_u32 (x : Z) : Z := x mod 4294967296.
Definition to_size (x : Z) : Z := to_u32 x.

Definition UINT32_MAX : Z := 4294967295.

(** errno values of the embedded C library (newlib). *)
Definition ENOENT : Z := 2.
Definition E2BIG : Z := 7.
Definition EINVAL : Z := 22.
Definition ENOTSUP : Z := 134.
Definition EILSEQ : Z := 138.

(** Little-endian scalars in a byte buffer. *)
Definition le16 (x : Z) : list Z := [x mod 256; (x / 256) mod 256].
Definition le32 (x : Z) : list Z :=
  [x mod 256; (x / 256) mod 256; (x / 65536) mod 256; (x / 16777216) mod 256].

Definition rd16 (l : list Z) : Z := nth 0 l 0 + 256 * nth 1 l 0.
Definition rd32 (l : list Z) : Z :=
  nth 0 l 0 + 256 * nth 1 l 0 + 65536 * nth 2 l 0 + 16777216 * nth 3 l 0.

Definition is_byte (b : Z) : Prop := 0 <= b < 256.

(** ** The NVM device layer *)

(** [struct nvmDevice] with its [nvmInfo] and the presence of the optional
    hooks of its [nvmOps].  [dev_id] stands for the identity of the device
    (its backing memory); [bit_clear] tells a flash memory, whose writes can
    only clear bits, from a plain file. *)
Record nvmDevice := {
  dev_id : nat;
  dev_size : Z;
  write_size : Z;
  erase_size : Z;
  ops_write : bool;
  ops_erase : bool;
  bit_clear : bool
}.

(** What reached the hardware, oldest first. *)
Inductive nvm_event :=
| EvWrite (d : nvmDevice) (addr : Z) (data : list Z)
| EvErase (d : nvmDevice) (addr size : Z).

Record nvm_state := {
  nv_mem : nat -> Z -> Z;
  nv_log : list nvm_event
}.

Definition seqZ (a len : Z) : list Z :=
  map (fun i => a + Z.of_nat i) (seq 0 (Z.to_nat len)).

Definition mem_store (bc : bool) (m : Z -> Z) (addr : Z) (data : list Z)
  : Z -> Z :=
  fun a =>
    if (addr <=? a) && (a <? addr + Z.of_nat (length data)) then
      let b := to_u8 (nth (Z.to_nat (a - addr)) data 0) in
      if bc then Z.land (m a) b else b
    else m a.

Definition mem_fill (m : Z -> Z) (addr size : Z) : Z -> Z :=
  fun a => if (addr <=? a) && (a <? addr + size) then 255 else m a.

Definition upd_mem (mm : nat -> Z -> Z) (id : nat) (m : Z -> Z)
  : nat -> Z -> Z :=
  fun j => if Nat.eqb j id then m else mm j.

(** The effect of one hardware operation on the memories. *)
Definition apply_event (ev : nvm_event) (mm : nat -> Z -> Z) : nat -> Z -> Z :=
  match ev with
  | EvWrite d addr data =>
      upd_mem mm (dev_id d) (mem_store (bit_clear d) (mm (dev_id d)) addr data)
  | EvErase d addr size =>
      upd_mem mm (dev_id d) (mem_fill (mm (dev_id d)) addr size)
  end.

Definition commit (ev : nvm_event) (st : nvm_state) : nvm_state :=
  {| nv_mem := apply_event ev (nv_mem st); nv_log := nv_log st ++ [ev] |}.

(** Modelled from the spec: the backend hooks behind [dev->ops] (the drivers
    and [interfaces/nvmem.h] are missing).  A backend is a byte array of
    [dev_size] bytes addressed from the device start; a request that leaves the
    array fails with [-EINVAL]; a write stores the bytes (on flash it can only
    clear bits); an erase sets the range to [0xFF]. *)
Definition ops_read_hook (d : nvmDevice) (st : nvm_state) (address len : Z)
  : Z * list Z :=
  if address + len <=? dev_size d
  then (0, map (nv_mem st (dev_id d)) (seqZ address len))
  else (- EINVAL, []).

Definition ops_write_hook (d : nvmDevice) (st : nvm_state) (address : Z)
  (data : list Z) : Z * nvm_state :=
  if address + Z.of_nat (length data) <=? dev_size d
  then (0, commit (EvWrite d address data) st)
  else (- EINVAL, st).

Definition ops_erase_hook (d : nvmDevice) (st : nvm_state) (address size : Z)
  : Z * nvm_state :=
  if address + size <=? dev_size d
  then (0, commit (EvErase d address size) st)
  else (- EINVAL, st).

(** [nvmem_device.h] *)
Definition nvm_devRead (d : nvmDevice) (st : nvm_state) (address len : Z)
  : Z * list Z :=
  ops_read_hook d st address len.

Definition nvm_devWrite (d : nvmDevice) (st : nvm_state) (address : Z)
  (data : list Z) : Z * nvm_state :=
  if negb (ops_write d) then (- ENOTSUP, st)
  else if negb (address mod write_size d =? 0) then (- EINVAL, st)
  else if negb (Z.of_nat (length data) mod write_size d =? 0)
       then (- EINVAL, st)
  else ops_write_hook d st address data.

Definition nvm_devErase (d : nvmDevice) (st : nvm_state) (address size : Z)
  : Z * nvm_state :=
  if negb (ops_erase d) then (- ENOTSUP, st)
  else if negb (address mod erase_size d =? 0) then (- EINVAL, st)
  else if negb (size mod erase_size d =? 0) then (- EINVAL, st)
  else ops_erase_hook d st address size.

(** ** The NVM access layer *)

Record nvmPartition := { p_offset : Z; p_size : Z }.

(** [struct nvmDescriptor]; [nbPart] is the length of the partition table. *)
Record nvmDescriptor := {
  dev : nvmDevice;
  baseAddr : Z;
  size : Z;
  partitions : list nvmPartition
}.

Definition nbPart (desc : nvmDescriptor) : Z :=
  Z.of_nat (length (partitions desc)).

(** [struct nvmTable]: the areas, [nbAreas] being their number. *)
Definition nvmTable := list nvmDescriptor.

Definition nbAreas (tab : nvmTable) : Z := Z.of_nat (length tab).

Definition nvm_getDesc (tab : nvmTable) (index : Z) : option nvmDescriptor :=
  if index >=? nbAreas tab then None
  else nth_error tab (Z.to_nat index).

Definition nvm_getPart (tab : nvmTable) (idx part : Z) : Z * nvmPartition :=
  let none := {| p_offset := 0; p_size := 0 |} in
  match nvm_getDesc tab idx with
  | None => (- EINVAL, none)
  | Some desc =>
      if part =? 0 then (0, {| p_offset := 0; p_size := size desc |})
      else if part >? nbPart desc then (- EINVAL, none)
      else match nth_error (partitions desc) (Z.to_nat (part - 1)) with
           | Some p => (0, p)
           | None => (- EINVAL, none)
           end
  end.

Definition nvm_read (tab : nvmTable) (st : nvm_state) (idx part offset len : Z)
  : Z * list Z :=
  let '(ret, np) := nvm_getPart tab idx part in
  if ret <? 0 then (ret, [])
  else if to_size (offset + len) >? p_size np then (- EINVAL, [])
  else match nvm_getDesc tab idx with
       | None => (- EINVAL, [])
       | Some nvm =>
           let offset := to_u32 (offset + p_offset np) in
           nvm_devRead (dev nvm) st (to_u32 (baseAddr nvm + offset)) len
       end.

Definition nvm_write (tab : nvmTable) (st : nvm_state) (idx part offset : Z)
  (data : list Z) : Z * nvm_state :=
  let len := Z.of_nat (length data) in
  let '(ret, np) := nvm_getPart tab idx part in
  if ret <? 0 then (ret, st)
  else if to_size (offset + len) >? p_size np then (- EINVAL, st)
  else match nvm_getDesc tab idx with
       | None => (- EINVAL, st)
       | Some nvm =>
           let offset := to_u32 (offset + p_offset np) in
           nvm_devWrite (dev nvm) st (to_u32 (baseAddr nvm + offset)) data
       end.

Definition nvm_erase (tab : nvmTable) (st : nvm_state) (idx part offset sz : Z)
  : Z * nvm_state :=
  let '(ret, np) := nvm_getPart tab idx part in
  if ret <? 0 then (ret, st)
  else if to_size (offset + sz) >? p_size np then (- EINVAL, st)
  else match nvm_getDesc tab idx with
       | None => (- EINVAL, st)
       | Some nvm =>
           let offset := to_u32 (offset + p_offset np) in
           nvm_devErase (dev nvm) st (to_u32 (baseAddr nvm + offset)) sz
       end.

(** ** Settings and their binary layout ([core/settings.h]) *)

(** [settings_t], a packed struct of 31 bytes. *)
Record settings_t := {
  brightness : Z;
  contrast : Z;
  sqlLevel : Z;
  voxLevel : Z;
  utc_timezone : Z;
  gps_enabled : bool;
  callsign : list Z;
  display_timer : Z;
  m17_can : Z;
  vpLevel : Z;
  vpPhoneticSpell : Z;
  macroMenuLatch : Z;
  _reserved : Z;
  m17_can_rx : bool;
  m17_dest : list Z;
  showBatteryIcon : bool;
  gpsSetTime : bool
}.

Definition SETTINGS_SIZE : Z := 31.

Definition bool_byte (b : bool) : Z := if b then 1 else 0.

(** A [char\[10\]] member: the bytes given, zero-filled to ten. *)
Definition char10 (l : list Z) : list Z :=
  map to_u8 (firstn 10 (l ++ repeat 0 10%nat)).

(** The object representation of a [settings_t]: what [memcmp], [memcpy],
    struct assignment and [crc_ccitt] see.  Bit-fields are allocated from the
    least significant bit of their byte. *)
Definition settings_image (s : settings_t) : list Z :=
  [to_u8 (brightness s); to_u8 (contrast s); to_u8 (sqlLevel s);
   to_u8 (voxLevel s); to_u8 (utc_timezone s); bool_byte (gps_enabled s)]
  ++ char10 (callsign s)
  ++ [display_timer s mod 16 + 16 * (m17_can s mod 16);
      vpLevel s mod 8 + 8 * (vpPhoneticSpell s mod 2)
      + 16 * (macroMenuLatch s mod 2) + 32 * (_reserved s mod 8);
      bool_byte (m17_can_rx s)]
  ++ char10 (m17_dest s)
  ++ [bool_byte (showBatteryIcon s); bool_byte (gpsSetTime s)].

Definition TIMER_30S : Z := 6.

Definition default_settings : settings_t := {|
  brightness := 100;
  contrast := 255;
  sqlLevel := 4;
  voxLevel := 0;
  utc_timezone := 0;
  gps_enabled := false;
  callsign := [];
  display_timer := TIMER_30S;
  m17_can := 0;
  vpLevel := 0;
  vpPhoneticSpell := 0;
  macroMenuLatch := 1;
  _reserved := 0;
  m17_can_rx := false;
  m17_dest := [];
  showBatteryIcon := false;
  gpsSetTime := false
|}.

(** ** The settings store ([core/settings.c]) *)

Definition SETTINGS_MAGIC : Z := 1481527375. (* 0x584E504F, "OPNX" *)

(** [settings_store_t], packed; the [settings] member is kept as its 31 bytes. *)
Record settings_store_t := {
  MAGIC : Z;
  length : Z;
  counter : Z;
  settings : list Z;
  crc : Z
}.

(** [sizeof(settings_store_t)] *)
Definition STORE_SIZE : Z := 41.

Definition store_bytes (store : settings_store_t) : list Z :=
  le32 (MAGIC store) ++ le16 (length store) ++ le16 (counter store)
  ++ settings store ++ le16 (crc store).

Record settings_storage_s := {
  s_dev : Z;
  part_A : Z;
  part_B : Z;
  part_A_offset : Z;
  part_B_offset : Z;
  latest_store : settings_store_t;
  initialized : bool;
  write_needed : bool;
  part_A_status : Z;
  part_B_status : Z
}.

(** An object whose bytes are all zero: a handle "created zeroed", and the
    stand-in for a local store that the C code leaves uninitialised (it is
    always written before it is read). *)
Definition zero_store : settings_store_t :=
  {| MAGIC := 0; length := 0; counter := 0;
     settings := repeat 0 31%nat; crc := 0 |}.

Definition zero_storage : settings_storage_s :=
  {| s_dev := 0; part_A := 0; part_B := 0; part_A_offset := 0;
     part_B_offset := 0; latest_store := zero_store; initialized := false;
     write_needed := false; part_A_status := 0; part_B_status := 0 |}.

(** [memcmp] over two objects of the same size: zero when all bytes agree. *)
Fixpoint same_bytes (a b : list Z) : bool :=
  match a, b with
  | [], [] => true
  | x :: a', y :: b' => (x =? y) && same_bytes a' b'
  | _, _ => false
  end.

Definition memcmp (a b : list Z) : Z := if same_bytes a b then 0 else 1.

(** How a loop of the C code left: by a [return], or by falling out of it. *)
Inductive walk_exit :=
| WalkReturn (ret : Z) (offset : Z)
| WalkDone (offset prev_offset magic : Z).

Section SettingsStore.

(** [crc_ccitt] of [core/crc.h], which is not part of the sources at hand:
    any function from a byte buffer to a 16-bit checksum. *)
Variable crc_ccitt : list Z -> Z.

(** [crc_ccitt(store, n)]: the checksum of the first [n] bytes of the store. *)
Definition store_crc (store : settings_store_t) (n : Z) : Z :=
  to_u16 (crc_ccitt (firstn (Z.to_nat n) (store_bytes store))).

Definition set_crc (store : settings_store_t) : settings_store_t :=
  {| MAGIC := MAGIC store; length := length store; counter := counter store;
     settings := settings store;
     crc := store_crc store (STORE_SIZE - 2) |}.

Definition default_settings_store : Z * settings_store_t :=
  (0, set_crc {| MAGIC := SETTINGS_MAGIC; length := STORE_SIZE; counter := 0;
                 settings := settings_image default_settings; crc := 0 |}).

Definition update_settings_store (new_settings : settings_t)
  (store : settings_store_t) : Z * settings_store_t :=
  (0, set_crc {| MAGIC := MAGIC store; length := STORE_SIZE;
                 counter := to_u16 (counter store + 1);
                 settings := settings_image new_settings;
                 crc := crc store |}).

Definition check_store_integrity (store : settings_store_t) : Z :=
  if negb (MAGIC store =? SETTINGS_MAGIC) then 0
  else if length store >? STORE_SIZE then 0
  else
    let stale := negb (length store =? STORE_SIZE) in
    if crc store =? store_crc store (to_size (length store - 2))
    then (if stale then -1 else 1)
    else 0.

Variable tab : nvmTable.

(** The loop of [parse_partition]; [magic] is the first word of [buffer]. *)
Fixpoint parse_walk (fuel : nat) (st : nvm_state) (dev part limit : Z)
  (offset prev_offset magic : Z) : option walk_exit :=
  match fuel with
  | O => None
  | S fuel' =>
      if offset <? limit then
        let '(ret, buffer) := nvm_read tab st (to_u32 dev) (to_u32 part)
                                offset 6 in
        if ret <? 0 then Some (WalkReturn ret offset)
        else
          let magic := rd32 buffer in
          if negb (magic =? SETTINGS_MAGIC)
          then Some (WalkDone offset prev_offset magic)
          else
            let len := rd16 (skipn 4 buffer) in
            parse_walk fuel' st dev part limit (to_size (offset + len))
              offset magic
      else Some (WalkDone offset prev_offset magic)
  end.

(** [parse_partition]: the return code and [*offset].  [buffer] is not
    initialised in C; with [limit = 0] its content is indeterminate and is
    taken as zero here. *)
Definition parse_partition (fuel : nat) (st : nvm_state) (dev part_nb : Z)
  (limit : Z) : option (Z * Z) :=
  match parse_walk fuel st dev part_nb limit 0 0 0 with
  | None => None
  | Some (WalkReturn ret offset) => Some (ret, offset)
  | Some (WalkDone offset prev_offset magic) =>
      if negb (magic =? UINT32_MAX) then Some (- EILSEQ, offset)
      else if offset =? prev_offset then Some (- ENOENT, offset)
      else Some (0, prev_offset)
  end.

Definition set_header (store : settings_store_t) (hdr : list Z)
  : settings_store_t :=
  {| MAGIC := rd32 hdr; length := rd16 (skipn 4 hdr);
     counter := rd16 (skipn 6 hdr);
     settings := settings store; crc := crc store |}.

Definition set_settings (store : settings_store_t) (bytes : list Z)
  : settings_store_t :=
  {| MAGIC := MAGIC store; length := length store; counter := counter store;
     settings := bytes; crc := crc store |}.

Definition set_crc_field (store : settings_store_t) (c : Z)
  : settings_store_t :=
  {| MAGIC := MAGIC store; length := length store; counter := counter store;
     settings := settings store; crc := c |}.

(** Bytes copied to the start of an object of [n] bytes. *)
Definition overlay (n : nat) (data old : list Z) : list Z :=
  firstn n (data ++ skipn (List.length data) old).

Definition read_store (st : nvm_state) (dev part offset : Z)
  (store : settings_store_t) : Z * settings_store_t :=
  let '(ret, hdr) := nvm_read tab st (to_u32 dev) (to_u32 part) offset 8 in
  if ret <? 0 then (ret, store)
  else
    let store := set_header store hdr in
    if length store =? STORE_SIZE then
      let '(ret, d) := nvm_read tab st (to_u32 dev) (to_u32 part)
                         (to_u32 (offset + 8)) (STORE_SIZE - 8) in
      if ret <? 0 then (ret, store)
      else (0, set_crc_field (set_settings store (firstn 31 d))
                 (rd16 (skipn 31 d)))
    else if length store <? STORE_SIZE then
      let store := set_settings store (settings_image default_settings) in
      let '(ret, d) := nvm_read tab st (to_u32 dev) (to_u32 part)
                         (to_u32 (offset + 8)) (to_size (length store - 10)) in
      if ret <? 0 then (ret, store)
      else
        let store := set_settings store (overlay 31 d (settings store)) in
        let '(ret, c) := nvm_read tab st (to_u32 dev) (to_u32 part)
                           (to_u32 (offset + length store - 2)) 2 in
        if ret <? 0 then (ret, store)
        else (0, set_crc_field store (rd16 c))
    else (- E2BIG, store).

(** The loop of [find_latest_valid_store]. *)
Fixpoint find_loop (fuel pfuel : nat) (st : nvm_state) (dev part : Z)
  (end_lim offset : Z) (store : settings_store_t)
  : option (Z * settings_store_t * Z) :=
  match fuel with
  | O => None
  | S fuel' =>
      if end_lim >? 0 then
        match parse_partition pfuel st dev part end_lim with
        | None => None
        | Some (ret, read_offset) =>
            if ret =? - EILSEQ then Some (0, store, offset)
            else if ret =? - ENOENT then Some (1, store, offset)
            else if ret <? 0 then Some (ret, store, offset)
            else
              let '(ret, store) := read_store st dev part read_offset store in
              if ret <? 0 then Some (ret, store, offset)
              else
                let offset :=
                  if offset =? 0 then to_size (read_offset + length store)
                  else offset in
                let ret := check_store_integrity store in
                if ret =? 1 then Some (3, store, offset)
                else if ret =? 0 then
                  find_loop fuel' pfuel st dev part
                    (to_size (end_lim - length store)) offset store
                else if ret =? -1 then Some (2, store, offset)
                else find_loop fuel' pfuel st dev part end_lim offset store
      end
      else Some (0, store, offset)
  end.

(** [find_latest_valid_store]: return code, [*store] and [*offset].  When
    [nvm_getPart] fails [*offset] is left as it was; no caller reads it then,
    and it is given as zero. *)
Definition find_latest_valid_store (fuel : nat) (st : nvm_state)
  (dev part : Z) (store : settings_store_t)
  : option (Z * settings_store_t * Z) :=
  let '(ret, pInfo) := nvm_getPart tab (to_u32 dev) (to_u32 part) in
  if ret <? 0 then Some (ret, store, 0)
  else find_loop fuel fuel st dev part (p_size pInfo) 0 store.

(** The two loops of [write_store] that overwrite a partition with [0xFF]
    where the device cannot erase: four bytes at a time, then single bytes.
    They give the return code, the index reached and the state. *)
Fixpoint fill_words (fuel : nat) (st : nvm_state) (dev part bound i : Z)
  : option (Z * Z * nvm_state) :=
  match fuel with
  | O => None
  | S fuel' =>
      if i <? bound then
        let '(ret, st') := nvm_write tab st (to_u32 dev) (to_u32 part) i
                             [255; 255; 255; 255] in
        if ret <? 0 then Some (ret, i, st')
        else fill_words fuel' st' dev part bound (to_size (i + 4))
      else Some (0, i, st)
  end.

Fixpoint fill_bytes (fuel : nat) (st : nvm_state) (dev part bound i : Z)
  : option (Z * Z * nvm_state) :=
  match fuel with
  | O => None
  | S fuel' =>
      if i <? bound then
        let '(ret, st') := nvm_write tab st (to_u32 dev) (to_u32 part) i
                             [255] in
        if ret <? 0 then Some (ret, i, st')
        else fill_bytes fuel' st' dev part bound (to_size (i + 1))
      else Some (0, i, st)
  end.

(** [write_store]: return code, [*offset] and the state afterwards. *)
Definition write_store (fuel : nat) (st : nvm_state) (dev part : Z)
  (store : settings_store_t) (offset : Z) (erase : bool)
  : option (Z * Z * nvm_state) :=
  let '(ret, pInfo) := nvm_getPart tab (to_u32 dev) (to_u32 part) in
  if ret <? 0 then Some (ret, offset, st)
  else
    let erase := erase || (to_size (offset + STORE_SIZE) >? p_size pInfo) in
    let write_frame (st : nvm_state) (offset : Z) :=
      let '(ret, st') := nvm_write tab st (to_u32 dev) (to_u32 part) offset
                           (store_bytes store) in
      if ret <? 0 then Some (ret, offset, st')
      else Some (0, to_size (offset + STORE_SIZE), st') in
    if erase then
      let '(ret, st1) := nvm_erase tab st (to_u32 dev) (to_u32 part) 0
                           (p_size pInfo) in
      if ret =? - ENOTSUP then
        match fill_words fuel st1 dev part (to_size (p_size pInfo - 4)) 0 with
        | None => None
        | Some (ret, i, st2) =>
            if ret <? 0 then Some (ret, offset, st2)
            else
              match fill_bytes fuel st2 dev part (p_size pInfo) i with
              | None => None
              | Some (ret, _, st3) =>
                  if ret <? 0 then Some (ret, offset, st3)
                  else write_frame st3 0
              end
        end
      else if ret <? 0 then Some (ret, offset, st1)
      else write_frame st1 0
    else write_frame st offset.

Definition settings_storage_init (s : settings_storage_s)
  (nvm_dev part_a part_b : Z) : Z * settings_storage_s :=
  let '(ret, store) := default_settings_store in
  (ret,
   {| s_dev := nvm_dev; part_A := part_a; part_B := part_b;
      part_A_offset := part_A_offset s; part_B_offset := part_B_offset s;
      latest_store := store; initialized := false;
      write_needed := write_needed s;
      part_A_status := part_A_status s; part_B_status := part_B_status s |}).

(** Field updates of the handle. *)
Definition set_part_A (s : settings_storage_s) (offset status : Z)
  : settings_storage_s :=
  {| s_dev := s_dev s; part_A := part_A s; part_B := part_B s;
     part_A_offset := offset; part_B_offset := part_B_offset s;
     latest_store := latest_store s; initialized := initialized s;
     write_needed := write_needed s;
     part_A_status := status; part_B_status := part_B_status s |}.

Definition set_part_B (s : settings_storage_s) (offset status : Z)
  : settings_storage_s :=
  {| s_dev := s_dev s; part_A := part_A s; part_B := part_B s;
     part_A_offset := part_A_offset s; part_B_offset := offset;
     latest_store := latest_store s; initialized := initialized s;
     write_needed := write_needed s;
     part_A_status := part_A_status s; part_B_status := status |}.

Definition set_latest (s : settings_storage_s) (store : settings_store_t)
  (init wn : bool) : settings_storage_s :=
  {| s_dev := s_dev s; part_A := part_A s; part_B := part_B s;
     part_A_offset := part_A_offset s; part_B_offset := part_B_offset s;
     latest_store := store; initialized := init; write_needed := wn;
     part_A_status := part_A_status s; part_B_status := part_B_status s |}.

(** The status and offset that [settings_storage_load] records for a
    partition from the result of [find_latest_valid_store], and whether the
    store found is stale. *)
Definition scan_A (s : settings_storage_s) (ret offset : Z)
  : settings_storage_s * bool :=
  if ret =? 0 then (set_part_A s (part_A_offset s) (-1), false)
  else if ret =? 1 then (set_part_A s 0 0, false)
  else if ret =? 2 then (set_part_A s offset 1, true)
  else if ret =? 3 then (set_part_A s offset 1, false)
  else (s, false).

Definition scan_B (s : settings_storage_s) (ret offset : Z)
  : settings_storage_s * bool :=
  if ret =? 0 then (set_part_B s (part_B_offset s) (-1), false)
  else if ret =? 1 then (set_part_B s 0 0, false)
  else if ret =? 2 then (set_part_B s offset 1, true)
  else if ret =? 3 then (set_part_B s offset 1, false)
  else (s, false).

(** [settings_storage_load]: return code, the handle and the caller's
    [*settings] afterwards ([buf] is what the caller's object held before). *)
Definition settings_storage_load (fuel : nat) (st : nvm_state)
  (s : settings_storage_s) (buf : list Z)
  : option (Z * settings_storage_s * list Z) :=
  if initialized s then Some (0, s, settings (latest_store s))
  else
    match find_latest_valid_store fuel st (s_dev s) (part_A s) zero_store with
    | None => None
    | Some (ret, store_A, offset_A) =>
        if ret <? 0 then Some (ret, s, buf)
        else
          let '(s, store_A_stale) := scan_A s ret offset_A in
          match find_latest_valid_store fuel st (s_dev s) (part_B s)
                  zero_store with
          | None => None
          | Some (ret, store_B, offset_B) =>
              if ret <? 0 then Some (ret, s, buf)
              else
                let '(s, store_B_stale) := scan_B s ret offset_B in
                if part_A_status s <=? 0 then
                  if part_B_status s =? 1
                  then Some (0, set_latest s store_B true store_B_stale, buf)
                  else
                    let '(ret, store) := default_settings_store in
                    if ret <? 0 then Some (ret, s, buf)
                    else Some (0, set_latest s store true true, buf)
                else
                  if part_B_status s =? 1 then
                    if counter store_A >=? counter store_B
                    then Some (0, set_latest s store_A true store_A_stale, buf)
                    else Some (0, set_latest s store_B true store_B_stale, buf)
                  else Some (0, set_latest s store_A true store_A_stale, buf)
          end
    end.

(** [settings_storage_save]: return code, the handle and the state. *)
Definition settings_storage_save (fuel : nat) (st : nvm_state)
  (s : settings_storage_s) (new_settings : settings_t)
  : option (Z * settings_storage_s * nvm_state) :=
  let settings_comparison :=
    memcmp (settings (latest_store s)) (settings_image new_settings) in
  let s :=
    if negb (settings_comparison =? 0) || write_needed s then
      let '(_, store) := update_settings_store new_settings (latest_store s) in
      set_latest s store (initialized s) true
    else s in
  if write_needed s then
    if negb (counter (latest_store s) mod 2 =? 0) then
      match write_store fuel st (s_dev s) (part_B s) (latest_store s)
              (part_B_offset s) (part_B_status s =? -1) with
      | None => None
      | Some (ret, offset, st') =>
          let s := set_part_B s offset (part_B_status s) in
          if ret <? 0 then Some (ret, s, st')
          else
            let s := set_part_B s offset 1 in
            Some (0, set_latest s (latest_store s) (initialized s) false, st')
      end
    else
      match write_store fuel st (s_dev s) (part_A s) (latest_store s)
              (part_A_offset s) (part_A_status s =? -1) with
      | None => None
      | Some (ret, offset, st') =>
          let s := set_part_A s offset (part_A_status s) in
          if ret <? 0 then Some (ret, s, st')
          else
            let s := set_part_A s offset 1 in
            Some (0, set_latest s (latest_store s) (initialized s) false, st')
      end
  else Some (0, set_latest s (latest_store s) (initialized s) false, st).

End SettingsStore.

(** ** A concrete checksum *)

(** Modelled from the spec: [crc_ccitt] of [core/crc.h] is missing; this is
    CRC-16/CCITT with polynomial [0x1021] and initial value [0xFFFF], the
    variant that maps the ASCII bytes "123456789" to [0x29B1]. *)
Definition crc16_bit (c : Z) : Z :=
  if Z.testbit c 15 then Z.lxor (Z.shiftl c 1 mod 65536) 4129
  else Z.shiftl c 1 mod 65536.

Definition crc16_byte (c b : Z) : Z :=
  Nat.iter 8 crc16_bit (Z.lxor c (Z.shiftl (to_u8 b) 8)).

Definition crc16_ccitt (data : list Z) : Z := fold_left crc16_byte data 65535.

(** ** Power loss *)

(** What of an operation reached the memory when power was lost [b] bytes
    into it: the first [b] bytes of a write; the first [b] bytes of the
    range of an erase, which are blank while the rest still holds what it
    held. *)
Definition torn (b : nat) (ev : nvm_event) : list nvm_event :=
  match ev with
  | EvWrite d addr data =>
      match b with
      | O => []
      | _ => [EvWrite d addr (firstn b data)]
      end
  | EvErase d addr size =>
      match b with
      | O => []
      | _ => [EvErase d addr (Z.min (Z.of_nat b) size)]
      end
  end.

(** The stream of hardware operations [evs], cut after [e] whole operations
    and [b] bytes of the next one. *)
Definition power_cut (e b : nat) (evs : list nvm_event) : list nvm_event :=
  firstn e evs ++
  match nth_error evs e with
  | Some ev => torn b ev
  | None => []
  end.

Definition replay (evs : list nvm_event) (mm : nat -> Z -> Z)
  : nat -> Z -> Z :=
  fold_left (fun m ev => apply_event ev m) evs mm.

(** The operations that [st'] logged after [st]. *)
Definition new_events (st st' : nvm_state) : list nvm_event :=
  skipn (List.length (nv_log st)) (nv_log st').

(** ** Example devices *)

Definition erased_mem : nat -> Z -> Z := fun _ _ => 255.

Definition fresh_nvm : nvm_state := {| nv_mem := erased_mem; nv_log := [] |}.

(** A flash device of 256 bytes with byte-wise writes and erase. *)
Definition flash256 : nvmDevice :=
  {| dev_id := 0; dev_size := 256; write_size := 1; erase_size := 1;
     ops_write := true; ops_erase := true; bit_clear := true |}.

(** One area over it, with two partitions of 128 bytes. *)
Definition tab256 : nvmTable :=
  [ {| dev := flash256; baseAddr := 0; size := 256;
       partitions := [ {| p_offset := 0; p_size := 128 |};
                       {| p_offset := 128; p_size := 128 |} ] |} ].

(** A flash device of 8 KiB with sectors of 4 KiB, and one area over it with
    two partitions of one sector. *)
Definition flash8k : nvmDevice :=
  {| dev_id := 0; dev_size := 8192; write_size := 1; erase_size := 4096;
     ops_write := true; ops_erase := true; bit_clear := true |}.

Definition part8k_A : nvmPartition := {| p_offset := 0; p_size := 4096 |}.
Definition part8k_B : nvmPartition := {| p_offset := 4096; p_size := 4096 |}.

Definition area8k : nvmDescriptor :=
  {| dev := flash8k; baseAddr := 0; size := 8192;
     partitions := [part8k_A; part8k_B] |}.

Definition tab8k : nvmTable := [area8k].

(** A flash device of 128 KiB with sectors of 4 KiB, and one area over it
    with two partitions of 64 KiB. *)
Definition flash128k : nvmDevice :=
  {| dev_id := 0; dev_size := 131072; write_size := 1; erase_size := 4096;
     ops_write := true; ops_erase := true; bit_clear := true |}.

Definition tab128k : nvmTable :=
  [ {| dev := flash128k; baseAddr := 0; size := 131072;
       partitions := [ {| p_offset := 0; p_size := 65536 |};
                       {| p_offset := 65536; p_size := 65536 |} ] |} ].

(** An area with a partition that starts four bytes into the device. *)
Definition tab_shifted : nvmTable :=
  [ {| dev := flash256; baseAddr := 0; size := 64;
       partitions := [ {| p_offset := 4; p_size := 16 |} ] |} ].

(** ** Observing the log *)

Definition is_frame_write (ev : nvm_event) : bool :=
  match ev with
  | EvWrite _ _ data => Z.of_nat (List.length data) =? STORE_SIZE
  | EvErase _ _ _ => false
  end.

Definition frame_writes (evs : list nvm_event) : nat :=
  List.length (filter is_frame_write evs).

(** [st'] extends the log of [st] by [evs]. *)
Definition logs (st st' : nvm_state) (evs : list nvm_event) : Prop :=
  nv_log st' = nv_log st ++ evs.


(** ** Runs of saves *)

Definition odd_counter (c : Z) : bool := negb (c mod 2 =? 0).



(** Consecutive saves, all of which return 0.  For each save: the counter of
    the cached store after it and the hardware operations it caused. *)
Fixpoint save_seq (crc_ccitt : list Z -> Z) (tab : nvmTable) (fuel : nat)
  (st : nvm_state) (s : settings_storage_s) (l : list settings_t)
  : option (list (Z * list nvm_event) * settings_storage_s * nvm_state) :=
  match l with
  | [] => Some ([], s, st)
  | p :: l' =>
      match settings_storage_save crc_ccitt tab fuel st s p with
      | Some (ret, s1, st1) =>
          if ret =? 0 then
            match save_seq crc_ccitt tab fuel st1 s1 l' with
            | Some (tr, s', st') =>
                Some ((counter (latest_store s1), new_events st st1) :: tr,
                      s', st')
            | None => None
            end
          else None
      | None => None
      end
  end.

(** ** Example handles and payloads *)

(** The default settings with another brightness. *)
Definition payload (b : Z) : settings_t := {|
  brightness := b;
  contrast := 255;
  sqlLevel := 4;
  voxLevel := 0;
  utc_timezone := 0;
  gps_enabled := false;
  callsign := [];
  display_timer := TIMER_30S;
  m17_can := 0;
  vpLevel := 0;
  vpPhoneticSpell := 0;
  macroMenuLatch := 1;
  _reserved := 0;
  m17_can_rx := false;
  m17_dest := [];
  showBatteryIcon := false;
  gpsSetTime := false
|}.


(** A zeroed handle after [settings_storage_init] on partitions 1 and 2 of
    area 0. *)
Definition ready_handle : settings_storage_s :=
  snd (settings_storage_init crc16_ccitt zero_storage 0 1 2).

(** ** Example flash contents *)

(** A device memory that holds [bytes] from address 0 and is erased after. *)
Definition mem_of (bytes : list Z) : nat -> Z -> Z :=
  fun _ a => if (0 <=? a) && (a <? Z.of_nat (List.length bytes))
             then nth (Z.to_nat a) bytes 255 else 255.

Definition nvm_of (bytes : list Z) : nvm_state :=
  {| nv_mem := mem_of bytes; nv_log := [] |}.

(** Partition 1 starts with the magic word followed by a length of zero. *)
Definition looping_nvm : nvm_state := nvm_of [79; 80; 78; 88; 0; 0].

(** ** Reading the memory as frames *)

(** The [n] bytes of memory [m] from address [a]. *)
Definition mem_bytes (m : Z -> Z) (a : Z) (n : nat) : list Z :=
  map (fun i => m (a + Z.of_nat i)) (seq 0 n).

(** Memory [m] holds the bytes [bs] at address [a]. *)
Definition holds (m : Z -> Z) (a : Z) (bs : list Z) : Prop :=
  mem_bytes m a (List.length bs) = bs.

(** Memory [m] is erased on the addresses from [a] up to [b]. *)
Definition erased (m : Z -> Z) (a b : Z) : Prop :=
  forall x, a <= x < b -> m x = 255.

(** Frames stored back to back from address [a]. *)
Fixpoint chain (m : Z -> Z) (a : Z) (frames : list (list Z)) : Prop :=
  match frames with
  | [] => True
  | f :: fs => holds m a f /\ chain m (a + STORE_SIZE) fs
  end.

(** A record of full length that starts with the magic word and the current
    length: what [parse_partition] steps over. *)
Definition header_ok (f : list Z) : bool :=
  (Z.of_nat (List.length f) =? STORE_SIZE)
  && same_bytes (firstn 6 f) (le32 SETTINGS_MAGIC ++ le16 STORE_SIZE).

(** The store that [read_store] builds from a full-length record. *)
Definition decode (f : list Z) : settings_store_t :=
  {| MAGIC := rd32 f; length := rd16 (skipn 4 f); counter := rd16 (skipn 6 f);
     settings := firstn 31 (skipn 8 f); crc := rd16 (skipn 39 f) |}.

(** The partition lies inside its device and below the 32-bit limit. *)
Definition part_fits (desc : nvmDescriptor) (np : nvmPartition) : Prop :=
  0 <= baseAddr desc /\ 0 <= p_offset np /\ 0 <= p_size np /\
  baseAddr desc + p_offset np + p_size np <= dev_size (dev desc) /\
  dev_size (dev desc) <= UINT32_MAX.

Definition part_base (desc : nvmDescriptor) (np : nvmPartition) : Z :=
  baseAddr desc + p_offset np.




(** The table is well defined for partition [part] of area [idx]: the
    partition lies inside its device, and it ends at least two records below
    the 32-bit limit, so that no offset which the store computes for it
    wraps around. *)
Definition part_sound (tab : nvmTable) (idx part : Z) : Prop :=
  forall desc np,
    nvm_getDesc tab idx = Some desc -> nvm_getPart tab idx part = (0, np) ->
    part_fits desc np /\ p_size np + 2 * STORE_SIZE <= UINT32_MAX.

(** The offsets of the handle as [settings_storage_load] and
    [settings_storage_save] leave them: for a partition that is not marked
    corrupt, the offset plus the size of a record does not exceed the 32-bit
    limit.  (The offset of a partition marked corrupt is not used: the next
    write erases the partition and starts at 0.) *)
Definition handle_sound (s : settings_storage_s) : Prop :=
  (part_A_status s = -1 \/
   0 <= part_A_offset s <= UINT32_MAX - STORE_SIZE) /\
  (part_B_status s = -1 \/
   0 <= part_B_offset s <= UINT32_MAX - STORE_SIZE).

(** Every cell of the memories holds a byte. *)
Definition byte_memory (st : nvm_state) : Prop :=
  forall j x, is_byte (nv_mem st j x).


(** Memory [m] holds exactly the records [frames] from the start of the
    partition and is erased behind them, with room for one more header. *)
Definition record_chain (m : Z -> Z) (desc : nvmDescriptor)
  (np : nvmPartition) (frames : list (list Z)) : Prop :=
  Forall (fun f => header_ok f = true) frames /\
  chain m (part_base desc np) frames /\
  erased m (part_base desc np + STORE_SIZE * Z.of_nat (List.length frames))
    (part_base desc np + p_size np) /\
  STORE_SIZE * Z.of_nat (List.length frames) + 6 <= p_size np.

(** Partition [part] of area [area] holds exactly the records [frames]. *)
Definition part_layout (tab : nvmTable) (st : nvm_state) (area part : Z)
  (frames : list (list Z)) : Prop :=
  exists desc np,
    nvm_getDesc tab (to_u32 area) = Some desc /\
    nvm_getPart tab (to_u32 area) (to_u32 part) = (0, np) /\
    part_fits desc np /\
    record_chain (nv_mem st (dev_id (dev desc))) desc np frames.

(** The size of partition [part] of area [area], as [nvm_getPart] gives it. *)
Definition part_size (tab : nvmTable) (area part : Z) : Z :=
  p_size (snd (nvm_getPart tab (to_u32 area) (to_u32 part))).

(** A full-length record with the given counter and payload, and the store
    it encodes. *)
Definition store_of (crc_ccitt : list Z -> Z) (c : Z) (p : settings_t)
  : settings_store_t :=
  set_crc crc_ccitt
    {| MAGIC := SETTINGS_MAGIC; length := STORE_SIZE; counter := to_u16 c;
       settings := settings_image p; crc := 0 |}.

Definition frame_of (crc_ccitt : list Z -> Z) (c : Z) (p : settings_t)
  : list Z :=
  store_bytes (store_of crc_ccitt c p).

(** What a write of [f] leaves on erased flash when power is lost after [t]
    bytes. *)
Definition torn_frame (t : nat) (f : list Z) : list Z :=
  firstn t f ++ repeat 255 (List.length f - t).

(** A record whose checksum field is off by one. *)
Definition bad_crc (f : list Z) : list Z :=
  firstn 39 f ++ [to_u8 (nth 39 f 0 + 1); nth 40 f 0].

(** The memory of [flash256] with [a] at the start of partition 1 and [b]
    at the start of partition 2, erased elsewhere. *)
Definition nvm_ab (a b : list Z) : nvm_state :=
  nvm_of (a ++ repeat 255 (128 - List.length a) ++ b).

(** Partition 1 holds a valid record and then one that fails its check. *)
Definition corrupt_tail_nvm : nvm_state :=
  nvm_ab (frame_of crc16_ccitt 1 (payload 10)
          ++ bad_crc (frame_of crc16_ccitt 3 (payload 30))) [].

(** Scenario D: A valid with counter 10, B with counter 11 and a wrong CRC. *)
Definition torn_write_nvm : nvm_state :=
  nvm_ab (frame_of crc16_ccitt 10 (payload 10))
         (bad_crc (frame_of crc16_ccitt 11 (payload 20))).

(** Scenario C: both partitions valid with counter 7, different payloads. *)
Definition tie_nvm : nvm_state :=
  nvm_ab (frame_of crc16_ccitt 7 (payload 10))
         (frame_of crc16_ccitt 7 (payload 20)).

(** A caller's settings object that holds zeros. *)
Definition zero_buffer : list Z := repeat 0 31%nat.

(** Memory [m] reads [0xFF] on each of the [n] addresses from [a]. *)
Definition all_erased (m : Z -> Z) (a : Z) (n : nat) : bool :=
  forallb (fun b => b =? 255) (mem_bytes m a n).

(** ** Sound records and torn writes *)

(** Tearing the write of record [f] anywhere after its header either leaves
    the whole record (its remaining bytes are [0xFF] anyway) or a record that
    fails the integrity check. *)
Definition tear_detected (crc_ccitt : list Z -> Z) (f : list Z) : bool :=
  forallb (fun t => same_bytes (torn_frame t f) f
                    || (check_store_integrity crc_ccitt
                          (decode (torn_frame t f)) =? 0))
          (seq 6 35).

(** The handle as it is before the first save: configured for two empty
    partitions, with the default store cached. *)
Definition fresh_handle (crc_ccitt : list Z -> Z) (s : settings_storage_s)
  (area pa pb : Z) : Prop :=
  s_dev s = area /\ part_A s = pa /\ part_B s = pb /\
  latest_store s = snd (default_settings_store crc_ccitt) /\
  part_A_offset s = 0 /\ part_B_offset s = 0 /\
  part_A_status s = 0 /\ part_B_status s = 0.

(** The device of the area accepts byte-wise writes and can erase the
    partition as a whole. *)
Definition part_writable (desc : nvmDescriptor) (np : nvmPartition) : Prop :=
  ops_write (dev desc) = true /\ write_size (dev desc) = 1 /\
  ops_erase (dev desc) = true /\ 0 < erase_size (dev desc) /\
  part_base desc np mod erase_size (dev desc) = 0 /\
  p_size np mod erase_size (dev desc) = 0.

(** The partition holds at least one record, always keeps room for one more
    header behind its records, and is too short for a walk to step over a
    torn length field. *)
Definition part_roomy (np : nvmPartition) : Prop :=
  STORE_SIZE + 6 <= p_size np /\ 6 <= p_size np mod STORE_SIZE /\
  p_size np <= 65321.

(** The state of the memories after a power loss, with nothing logged. *)
Definition after_power_loss (mm : nat -> Z -> Z) : nvm_state :=
  {| nv_mem := mm; nv_log := [] |}.

(** The store that [settings_storage_load] caches, given the results of the
    scans of partitions A and B. *)
Definition load_choice (crc_ccitt : list Z -> Z) (rA : Z)
  (sA : settings_store_t) (rB : Z) (sB : settings_store_t)
  : settings_store_t :=
  if rA =? 3 then
    if rB =? 3 then (if counter sA >=? counter sB then sA else sB) else sA
  else if rB =? 3 then sB
  else snd (default_settings_store crc_ccitt).

(** ** The state of the store between saves *)

(** The records [frames] end with the record of counter [k] and payload [p];
    there is none when nothing was saved yet. *)
Definition tip (crc_ccitt : list Z -> Z) (k : Z) (p : settings_t)
  (frames : list (list Z)) : Prop :=
  if k <=? 0 then frames = []
  else exists pre, frames = pre ++ [frame_of crc_ccitt k p].

(** After [c] writes the handle caches the record of counter [c], whose
    payload has the image [img]; the partition selected by the parity of [c]
    ends with that record and the other one with the record before it; the
    offsets of the handle point behind the records. *)
Definition durable_inv (crc_ccitt : list Z -> Z) (desc : nvmDescriptor)
  (npa npb : nvmPartition) (area pa pb : Z) (s : settings_storage_s)
  (m : Z -> Z) (c : Z) (img : list Z) : Prop :=
  exists fa fb cur prev,
    record_chain m desc npa fa /\ record_chain m desc npb fb /\
    s_dev s = area /\ part_A s = pa /\ part_B s = pb /\
    part_A_offset s = STORE_SIZE * Z.of_nat (List.length fa) /\
    part_B_offset s = STORE_SIZE * Z.of_nat (List.length fb) /\
    part_A_status s <> -1 /\ part_B_status s <> -1 /\
    0 <= c <= 65535 /\ settings_image cur = img /\
    latest_store s = store_of crc_ccitt c cur /\
    (1 <= c -> write_needed s = false) /\
    (c = 0 -> img = settings_image default_settings) /\
    tip crc_ccitt c cur (if odd_counter c then fb else fa) /\
    tip crc_ccitt (c - 1) prev (if odd_counter c then fa else fb).

(** The two partitions do not overlap. *)
Definition parts_apart (npa npb : nvmPartition) : Prop :=
  p_offset npa + p_size npa <= p_offset npb \/
  p_offset npb + p_size npb <= p_offset npa.

(** The hardware operations of [write_store] for record [f] on a partition
    that holds the records [fq]: one write behind them when the record fits,
    else an erase of the partition and a write at its start. *)
Definition target_events (desc : nvmDescriptor) (np : nvmPartition)
  (fq : list (list Z)) (f : list Z) : list nvm_event :=
  if STORE_SIZE * Z.of_nat (List.length fq) + STORE_SIZE <=? p_size np
  then [EvWrite (dev desc)
          (part_base desc np + STORE_SIZE * Z.of_nat (List.length fq)) f]
  else [EvErase (dev desc) (part_base desc np) (p_size np);
        EvWrite (dev desc) (part_base desc np) f].

(** * User functions ([core/user_functions.c]) *)

Module UserFunctions.

(** [errno] values of newlib, returned without a sign here. *)
Definition EADDRINUSE : Z := 112.

Definition INT64_MAX : Z := 9223372036854775807.

(** [user_functions_param_t].  A function pointer is its address, [None] is
    [NULL]; [scheduling] is the value of the enumeration
    [user_functions_sched_t]. *)
Record user_functions_param_t := {
  f : option Z;
  arg : Z;
  next_exec : Z;
  scheduling : Z;
  enabled : bool
}.

(** The static variables of the file.  [calls] lists the calls
    [user_functions[id].f(user_functions[id].arg)] made so far, as pairs of
    function and argument, the latest last; the functions called are taken
    not to call back into this file. *)
Record uf_state := {
  user_functions : list user_functions_param_t;
  unlocked_async_tasks : Z;
  expired_tasks : Z;
  uf_wakeup_time : Z;
  calls : list (Z * Z)
}.

(** An entry of the zeroed array. *)
Definition zero_param : user_functions_param_t :=
  {| f := None; arg := 0; next_exec := 0; scheduling := 0; enabled := false |}.

(** [user_functions[id]] and the array with that entry replaced. *)
Definition entry (st : uf_state) (id : Z) : user_functions_param_t :=
  nth (Z.to_nat id) (user_functions st) zero_param.

Fixpoint replace_nth (l : list user_functions_param_t) (i : nat)
  (p : user_functions_param_t) : list user_functions_param_t :=
  match l, i with
  | [], _ => []
  | _ :: l', O => p :: l'
  | x :: l', S i' => x :: replace_nth l' i' p
  end.

Definition set_entry (st : uf_state) (id : Z) (p : user_functions_param_t)
  : uf_state :=
  {| user_functions := replace_nth (user_functions st) (Z.to_nat id) p;
     unlocked_async_tasks := unlocked_async_tasks st;
     expired_tasks := expired_tasks st;
     uf_wakeup_time := uf_wakeup_time st;
     calls := calls st |}.

Definition set_async (st : uf_state) (m : Z) : uf_state :=
  {| user_functions := user_functions st;
     unlocked_async_tasks := m;
     expired_tasks := expired_tasks st;
     uf_wakeup_time := uf_wakeup_time st;
     calls := calls st |}.

Definition set_expired (st : uf_state) (m : Z) : uf_state :=
  {| user_functions := user_functions st;
     unlocked_async_tasks := unlocked_async_tasks st;
     expired_tasks := m;
     uf_wakeup_time := uf_wakeup_time st;
     calls := calls st |}.

Definition log_call (st : uf_state) (fn a : Z) : uf_state :=
  {| user_functions := user_functions st;
     unlocked_async_tasks := unlocked_async_tasks st;
     expired_tasks := expired_tasks st;
     uf_wakeup_time := uf_wakeup_time st;
     calls := calls st ++ [(fn, a)] |}.

(** [1 << id] stored in a [uint32_t], and [x & ~(1 << id)]. *)
Definition bit (id : Z) : Z := to_u32 (Z.shiftl 1 id).

Definition clear_bit (x id : Z) : Z :=
  Z.land x (to_u32 (Z.lnot (Z.shiftl 1 id))).

(** [__builtin_ctz] on a 32-bit value: the index of the lowest bit set; its
    result for zero is undefined and is given as 32. *)
Fixpoint ctz_from (n : nat) (i : Z) (x : Z) : Z :=
  match n with
  | O => i
  | S n' => if Z.testbit x i then i else ctz_from n' (i + 1) x
  end.

Definition ctz (x : Z) : Z := ctz_from 32 0 x.

(** How a loop over pending tasks ended: with all of them served, or at the
    call of a null pointer for entry [id], or out of fuel. *)
Inductive outcome :=
| Served (st : uf_state)
| NullCall (id : Z) (st : uf_state)
| OutOfFuel.

Section Config.

(** [CONFIG_USER_FUNCTIONS] is a macro of [hwconfig.h] and the constants of
    [user_functions_sched_t] are declared in [user_functions.h]; they are
    parameters here. *)
Variable CONFIG_USER_FUNCTIONS : Z.
Variables USER_FUNCTION_ASYNC USER_FUNCTION_1HZ USER_FUNCTION_10HZ
  USER_FUNCTION_20HZ USER_FUNCTION_50HZ USER_FUNCTION_100HZ : Z.

(** [getTimeMs()] is the argument [now]. *)
Definition user_functions_init (now : Z) (st : uf_state) : uf_state :=
  {| user_functions := user_functions st;
     unlocked_async_tasks := unlocked_async_tasks st;
     expired_tasks := expired_tasks st;
     uf_wakeup_time := now;
     calls := calls st |}.

Definition user_functions_add (id : Z) (fn : option Z) (a : Z)
  (sched : Z) (now : Z) (st : uf_state) : Z * uf_state :=
  if id >=? CONFIG_USER_FUNCTIONS then (EINVAL, st)
  else
    match f (entry st id) with
    | Some _ => (EADDRINUSE, st)
    | None =>
        (0, set_entry st id
              {| f := fn; arg := a; next_exec := to_u32 now;
                 scheduling := sched; enabled := false |})
    end.

Definition user_functions_remove (id : Z) (st : uf_state) : Z * uf_state :=
  if id >=? CONFIG_USER_FUNCTIONS then (EINVAL, st)
  else
    let p := entry st id in
    (0, set_entry st id
          {| f := None; arg := arg p; next_exec := next_exec p;
             scheduling := scheduling p; enabled := false |}).

Definition user_functions_trigger (id : Z) (st : uf_state) : Z * uf_state :=
  if id >=? CONFIG_USER_FUNCTIONS then (EINVAL, st)
  else (0, set_async st (Z.lor (unlocked_async_tasks st) (bit id))).

Definition set_enabled (p : user_functions_param_t) (b : bool)
  : user_functions_param_t :=
  {| f := f p; arg := arg p; next_exec := next_exec p;
     scheduling := scheduling p; enabled := b |}.

Definition user_functions_enable (id : Z) (st : uf_state) : Z * uf_state :=
  if id >=? CONFIG_USER_FUNCTIONS then (EINVAL, st)
  else (0, set_entry st id (set_enabled (entry st id) true)).

Definition user_functions_disable (id : Z) (st : uf_state) : Z * uf_state :=
  if id >=? CONFIG_USER_FUNCTIONS then (EINVAL, st)
  else (0, set_entry st id (set_enabled (entry st id) false)).

(** The loop of [user_functions_terminate]. *)
Definition user_functions_terminate (st : uf_state) : uf_state :=
  fold_left (fun st i => snd (user_functions_disable (Z.of_nat i) st))
    (seq 0 (Z.to_nat CONFIG_USER_FUNCTIONS)) st.

(** The entry takes part in the periodic scheduling. *)
Definition periodic (p : user_functions_param_t) : bool :=
  enabled p && negb (scheduling p =? USER_FUNCTION_ASYNC).

(** The first loop of [user_functions_task], which computes the local
    [next_exec] and [expired_tasks]: one step for entry [i], then the loop. *)
Definition select_step (st : uf_state) (acc : Z * Z) (i : nat) : Z * Z :=
  let '(next, expired) := acc in
  let p := entry st (Z.of_nat i) in
  if enabled p && negb (scheduling p =? USER_FUNCTION_ASYNC) then
    if next_exec p <? next then (next_exec p, bit (Z.of_nat i))
    else if next_exec p =? next
         then (next, Z.lor expired (bit (Z.of_nat i)))
         else (next, expired)
  else (next, expired).

Definition task_select (st : uf_state) : Z * uf_state :=
  let '(next, expired) :=
    fold_left (select_step st) (seq 0 (Z.to_nat CONFIG_USER_FUNCTIONS))
      (INT64_MAX, expired_tasks st) in
  (next, set_expired st expired).

(** The [switch] on the scheduling: what is added to [next_exec]. *)
Definition period (sched : Z) : Z :=
  if sched =? USER_FUNCTION_1HZ then 1000
  else if sched =? USER_FUNCTION_10HZ then 100
  else if sched =? USER_FUNCTION_20HZ then 50
  else if sched =? USER_FUNCTION_50HZ then 20
  else if sched =? USER_FUNCTION_100HZ then 10
  else 0.

Definition advance (p : user_functions_param_t) : user_functions_param_t :=
  {| f := f p; arg := arg p;
     next_exec := to_u32 (next_exec p + period (scheduling p));
     scheduling := scheduling p; enabled := enabled p |}.

(** The loop [while(expired_tasks)] of [user_functions_task]. *)
Fixpoint service_expired (fuel : nat) (st : uf_state) : outcome :=
  match fuel with
  | O => OutOfFuel
  | S fuel' =>
      if expired_tasks st =? 0 then Served st
      else
        let id := to_u8 (ctz (expired_tasks st)) in
        let st := set_expired st (clear_bit (expired_tasks st) id) in
        match f (entry st id) with
        | None => NullCall id st
        | Some fn =>
            let st := log_call st fn (arg (entry st id)) in
            service_expired fuel' (set_entry st id (advance (entry st id)))
        end
  end.

(** The loop [while(unlocked_async_tasks)]. *)
Fixpoint service_async (fuel : nat) (st : uf_state) : outcome :=
  match fuel with
  | O => OutOfFuel
  | S fuel' =>
      if unlocked_async_tasks st =? 0 then Served st
      else
        let id := to_u8 (ctz (unlocked_async_tasks st)) in
        let st := set_async st (clear_bit (unlocked_async_tasks st) id) in
        match f (entry st id) with
        | None => NullCall id st
        | Some fn => service_async fuel' (log_call st fn (arg (entry st id)))
        end
  end.

(** [user_functions_task] from the wake-up on: [now] is what [getTimeMs()]
    gives then and [next] the local [next_exec] that the first loop computed.
    The wait in between, during which other threads run, is not part of the
    model. *)
Definition task_service (fuel : nat) (now next : Z) (st : uf_state)
  : outcome :=
  if now >=? next then
    match service_expired fuel st with
    | Served st' => service_async fuel st'
    | o => o
    end
  else service_async fuel st.

End Config.

(** The set bits of [m] below [n], in increasing order. *)
Definition bits_below (n : nat) (m : Z) : list nat :=
  filter (fun i => Z.testbit m (Z.of_nat i)) (seq 0 n).

(** The call [user_functions[id].f(user_functions[id].arg)] for an entry
    whose function is set. *)
Definition call_of (p : user_functions_param_t) : Z * Z :=
  (match f p with Some fn => fn | None => 0 end, arg p).

(** No bit above the 32 of a [uint32_t] is set. *)
Definition fits_u32 (m : Z) : Prop :=
  forall j, 32 <= j -> Z.testbit m j = false.

(** The array has one entry per function. *)
Definition table_ok (config : Z) (st : uf_state) : Prop :=
  Z.of_nat (List.length (user_functions st)) = config.

(** Example tables of four entries: an empty one, and one with three
    periodic functions and a triggered one, with the bits 0 and 3 set in
    [unlocked_async_tasks] and the bits 1 and 2 in [expired_tasks].  The
    schedules are numbered from 0 for [USER_FUNCTION_ASYNC] up to 5 for
    [USER_FUNCTION_100HZ]. *)
Definition empty_state : uf_state :=
  {| user_functions := repeat zero_param 4;
     unlocked_async_tasks := 0; expired_tasks := 0; uf_wakeup_time := 0;
     calls := [] |}.

Definition busy_state : uf_state :=
  {| user_functions :=
       [ {| f := Some 100; arg := 1; next_exec := 500; scheduling := 1;
            enabled := true |};
         {| f := Some 200; arg := 2; next_exec := 300; scheduling := 2;
            enabled := true |};
         {| f := Some 300; arg := 3; next_exec := 300; scheduling := 4;
            enabled := true |};
         {| f := Some 400; arg := 4; next_exec := 100; scheduling := 0;
            enabled := true |} ];
     unlocked_async_tasks := 9; expired_tasks := 6; uf_wakeup_time := 0;
     calls := [] |}.

End UserFunctions.

(** * Devices without an erase operation *)

(** The device of the area overwrites single bytes and has no erase
    operation, like a file. *)
Definition part_rewritable (desc : nvmDescriptor) : Prop :=
  ops_write (dev desc) = true /\ write_size (dev desc) = 1 /\
  ops_erase (dev desc) = false /\ bit_clear (dev desc) = false.

(** Memory [m'] is [m] with [0xFF] on the addresses from [a] up to [b]. *)
Definition blanked (m m' : Z -> Z) (a b : Z) : Prop :=
  forall x, m' x = (if (a <=? x) && (x <? b) then 255 else m x).

(** A file of 256 bytes, and one area over it with two partitions of 128
    bytes. *)
Definition file256 : nvmDevice :=
  {| dev_id := 0; dev_size := 256; write_size := 1; erase_size := 1;
     ops_write := true; ops_erase := false; bit_clear := false |}.

Definition tab_file : nvmTable :=
  [ {| dev := file256; baseAddr := 0; size := 256;
       partitions := [ {| p_offset := 0; p_size := 128 |};
                       {| p_offset := 128; p_size := 128 |} ] |} ].

(** * Further example data *)

(** The area of [tab256] and its partitions. *)
Definition part256_A : nvmPartition := {| p_offset := 0; p_size := 128 |}.
Definition part256_B : nvmPartition := {| p_offset := 128; p_size := 128 |}.

Definition area256 : nvmDescriptor :=
  {| dev := flash256; baseAddr := 0; size := 256;
     partitions := [part256_A; part256_B] |}.

(** The area of [tab_file]. *)
Definition area_file : nvmDescriptor :=
  {| dev := file256; baseAddr := 0; size := 256;
     partitions := [part256_A; part256_B] |}.

(** Partition 1 holds two valid records, of counters 2 and 4. *)
Definition two_records_nvm : nvm_state :=
  nvm_ab (frame_of crc16_ccitt 2 (payload 20)
          ++ frame_of crc16_ccitt 4 (payload 40)) [].

(** Partition 1 holds a valid record and then the word [0x04030201]. *)
Definition stray_word_nvm : nvm_state :=
  nvm_ab (frame_of crc16_ccitt 2 (payload 20) ++ [1; 2; 3; 4]) [].

(** A handle that names the partitions 5 and 6, which [tab256] does not
    have. *)
Definition lost_handle : settings_storage_s :=
  snd (settings_storage_init crc16_ccitt zero_storage 0 5 6).

(** A handle on partitions 1 and 2 that has a write pending. *)
Definition pending_handle : settings_storage_s :=
  set_latest ready_handle (latest_store ready_handle) true true.

(** * The flash driver of the STM32H7 ([drivers/flash.c]) *)

Module Flash.

(** The registers of the flash controller that the driver uses. *)
Inductive reg := CR1 | CR2 | SR1 | SR2 | KEYR1 | KEYR2.

Definition reg_eqb (a b : reg) : bool :=
  match a, b with
  | CR1, CR1 | CR2, CR2 | SR1, SR1 | SR2, SR2
  | KEYR1, KEYR1 | KEYR2, KEYR2 => true
  | _, _ => false
  end.

(** What the driver does to the hardware: reads and writes of registers,
    copies into the flash memory, and barriers. *)
Inductive hw_op :=
| Read (r : reg) (v : Z)
| Write (r : reg) (v : Z)
| Memcpy (dst : Z) (bytes : list Z)
| ISB
| DSB.

(** The hardware as the driver meets it: for each volatile register the
    values that the reads of it still to come will give, and the operations
    done so far, the latest last.  Any behaviour of the controller is some
    choice of answers; a driver that runs out of answers is still waiting. *)
Record hw := { answers : reg -> list Z; ops : list hw_op }.

Definition set_answers (h : hw) (r : reg) (l : list Z) : reg -> list Z :=
  fun r' => if reg_eqb r' r then l else answers h r'.

(** Driver code: a result and the hardware afterwards, or no result. *)
Definition M (A : Type) : Type := hw -> option (A * hw).

Definition ret {A} (a : A) : M A := fun h => Some (a, h).

Definition bind {A B} (m : M A) (k : A -> M B) : M B :=
  fun h => match m h with
           | Some (a, h') => k a h'
           | None => None
           end.

Notation "x <- m ;; k" := (bind m (fun x => k))
  (at level 61, m at next level, right associativity).

Definition read (r : reg) : M Z :=
  fun h => match answers h r with
           | [] => None
           | v :: rest =>
               Some (v, {| answers := set_answers h r rest;
                           ops := ops h ++ [Read r v] |})
           end.

Definition emit (o : hw_op) : M unit :=
  fun h => Some (tt, {| answers := answers h; ops := ops h ++ [o] |}).

Definition write (r : reg) (v : Z) : M unit := emit (Write r v).

(** [REG |= bits] and [REG &= ~bits] on a 32-bit register. *)
Definition set_bits (r : reg) (bits : Z) : M unit :=
  v <- read r ;; write r (Z.lor v bits).

Definition clear_bits (r : reg) (bits : Z) : M unit :=
  v <- read r ;; write r (Z.land v (to_u32 (Z.lnot bits))).

(** [while ((REG & mask) != 0) ;]: the reads of [REG] up to the first
    answer that has the bits clear; the answers left and the operations. *)
Fixpoint wait_answers (r : reg) (mask : Z) (ans : list Z)
  (tr : list hw_op) : option (list Z * list hw_op) :=
  match ans with
  | [] => None
  | v :: rest =>
      if Z.land v mask =? 0
      then Some (rest, tr ++ [Read r v])
      else wait_answers r mask rest (tr ++ [Read r v])
  end.

Definition wait_clear (r : reg) (mask : Z) : M unit :=
  fun h => match wait_answers r mask (answers h r) (ops h) with
           | Some (rest, tr) =>
               Some (tt, {| answers := set_answers h r rest; ops := tr |})
           | None => None
           end.

(** The first address of bank 2, and the two keys that unlock a bank. *)
Definition BANK2_BASE : Z := 0x8100000.
Definition KEY1 : Z := 0x45670123.
Definition KEY2 : Z := 0xCDEF89AB.

Section Registers.

(** The bit masks of [stm32h743xx.h], which is not part of the sources. *)
Variables FLASH_CR_LOCK FLASH_CR_SER FLASH_CR_SNB FLASH_CR_SNB_Pos
  FLASH_CR_START FLASH_CR_PG FLASH_SR_BSY FLASH_SR_QW : Z.

Definition unlock (cr keyr : reg) : M bool :=
  v <- read cr ;;
  if Z.land v FLASH_CR_LOCK =? 0 then ret true
  else
    _ <- write keyr 0x45670123 ;;
    _ <- write keyr 0xCDEF89AB ;;
    _ <- emit ISB ;;
    v <- read cr ;;
    if Z.land v FLASH_CR_LOCK =? 0 then ret true else ret false.

Definition unlock_bank1 : M bool := unlock CR1 KEYR1.
Definition unlock_bank2 : M bool := unlock CR2 KEYR2.

(** The erase of one bank, which the source writes out once for each. *)
Definition erase_in_bank (cr sr keyr : reg) (secNum : Z) : M bool :=
  ok <- unlock cr keyr ;;
  if negb ok then ret false
  else
    _ <- wait_clear sr FLASH_SR_BSY ;;
    _ <- set_bits cr FLASH_CR_SER ;;
    _ <- clear_bits cr FLASH_CR_SNB ;;
    _ <- set_bits cr (Z.shiftl secNum FLASH_CR_SNB_Pos) ;;
    _ <- emit ISB ;;
    _ <- set_bits cr FLASH_CR_START ;;
    _ <- wait_clear sr FLASH_SR_QW ;;
    _ <- clear_bits cr FLASH_CR_SER ;;
    ret true.

Definition flash_eraseSector_bank (secNum bank : Z) : M bool :=
  if secNum >? 7 then ret false
  else if bank =? 1 then erase_in_bank CR1 SR1 KEYR1 secNum
  else if bank =? 2 then erase_in_bank CR2 SR2 KEYR2 secNum
  else ret false.

Definition flash_eraseSector (secNum : Z) : M bool :=
  flash_eraseSector_bank (to_u8 (secNum mod 8)) (to_u8 (1 + secNum / 8)).

(** The programming of one bank: [n] bytes of [buf] copied to [mem]. *)
Definition program (cr sr : reg) (mem : Z) (buf : list Z) (n : Z)
  : M unit :=
  _ <- wait_clear sr FLASH_SR_QW ;;
  _ <- write cr FLASH_CR_PG ;;
  _ <- emit (Memcpy mem (firstn (Z.to_nat n) buf)) ;;
  _ <- emit DSB ;;
  _ <- wait_clear sr FLASH_SR_QW ;;
  clear_bits cr FLASH_CR_PG.

(** [flash_write]; [data] is [None] for a null pointer, else the bytes at
    [data]. *)
Definition flash_write (address : Z) (data : option (list Z)) (len : Z)
  : M bool :=
  match data with
  | None => ret false
  | Some buf =>
      if len =? 0 then ret false
      else if negb (Z.land address 0x1F =? 0) || negb (Z.land len 0x1F =? 0)
      then ret false
      else
        ok1 <- (if address <? BANK2_BASE then unlock_bank1 else ret true) ;;
        if negb ok1 then ret false
        else
          ok2 <- (if to_u32 (address + len) >=? BANK2_BASE
                  then unlock_bank2 else ret true) ;;
          if negb ok2 then ret false
          else
            let total_len := len in
            let bank1_len :=
              if address <? BANK2_BASE then
                let l := to_u32 (BANK2_BASE - address) in
                if l >? total_len then total_len else l
              else 0 in
            _ <- (if bank1_len >? 0
                  then program CR1 SR1 address buf bank1_len
                  else ret tt) ;;
            _ <- (if bank1_len <? total_len
                  then program CR2 SR2
                         (if bank1_len >? 0
                          then to_u32 (address + bank1_len) else address)
                         (if bank1_len >? 0
                          then skipn (Z.to_nat bank1_len) buf else buf)
                         (to_u32 (total_len - bank1_len))
                  else ret tt) ;;
            ret true
  end.

(** What the driver does to the hardware when it unlocks a bank: one read of
    the control register when the bank is open already, else the read, the
    two keys, the barrier and a second read. *)
Definition unlock_trace (cr keyr : reg) (l : list hw_op) : Prop :=
  (exists v, Z.land v FLASH_CR_LOCK = 0 /\ l = [Read cr v]) \/
  (exists v v', Z.land v FLASH_CR_LOCK <> 0 /\
                l = [Read cr v; Write keyr KEY1; Write keyr KEY2; ISB;
                     Read cr v']).

(** What the driver does to the hardware when it programs [bytes] at [mem]
    through the registers [cr] and [sr] of a bank: it polls [sr], sets the
    control register to programming, copies, polls [sr] again and clears the
    programming bit. *)
Definition program_trace (cr sr : reg) (mem : Z) (bytes : list Z)
  (l : list hw_op) : Prop :=
  exists w1 w2 v,
    Forall (fun o => exists x, o = Read sr x) w1 /\
    Forall (fun o => exists x, o = Read sr x) w2 /\
    l = w1 ++ [Write cr FLASH_CR_PG; Memcpy mem bytes; DSB] ++ w2
        ++ [Read cr v; Write cr (Z.land v (to_u32 (Z.lnot FLASH_CR_PG)))].

End Registers.

(** The copies into the flash memory among the operations. *)
Definition memcpys (l : list hw_op) : list (Z * list Z) :=
  flat_map (fun o => match o with
                     | Memcpy dst bytes => [(dst, bytes)]
                     | _ => []
                     end) l.

(** The number of bytes of a write of [len] bytes at [address] that belong
    to bank 1. *)
Definition bank1_share (address len : Z) : Z :=
  if address <? BANK2_BASE then Z.min len (BANK2_BASE - address) else 0.

(** A controller on which nothing has been done yet, with the answers that
    its control and status registers will give. *)
Definition idle_hw (cr1 cr2 sr1 sr2 : list Z) : hw :=
  {| answers := fun r => match r with
                         | CR1 => cr1 | CR2 => cr2
                         | SR1 => sr1 | SR2 => sr2
                         | _ => []
                         end;
     ops := [] |}.

End Flash.
(** * Properties *)

Lemma crc16_check_value :
  crc16_ccitt [49; 50; 51; 52; 53; 54; 55; 56; 57] = 10673.
Proof. vm_compute. reflexivity. Qed.

(** ** Access layer *)

Lemma nvm_getPart_ok_desc tab idx part np :
  nvm_getPart tab idx part = (0, np) ->
  exists desc, nvm_getDesc tab idx = Some desc.
Proof.
  unfold nvm_getPart. destruct (nvm_getDesc tab idx) as [desc|].
  - eauto.
  - unfold EINVAL. intros H. inversion H.
Qed.

(** What the bounds check does reject: [nvm_read], [nvm_write] and
    [nvm_erase] answer [-EINVAL] whenever the sum [offset + len], computed
    in 32-bit unsigned arithmetic, exceeds the size of the resolved
    partition; the state is left untouched.  [nvm_getPart] answers [-EINVAL]
    for every partition index above [nbPart], and index 0 gives the whole
    area [{0, size}]. *)
Lemma nvm_access_bounds tab st idx desc part np offset len data p :
  nvm_getDesc tab idx = Some desc ->
  nvm_getPart tab idx part = (0, np) ->
  to_size (offset + len) > p_size np ->
  Z.of_nat (List.length data) = len ->
  p > nbPart desc ->
  nvm_read tab st idx part offset len = (- EINVAL, [])
  /\ nvm_write tab st idx part offset data = (- EINVAL, st)
  /\ nvm_erase tab st idx part offset len = (- EINVAL, st)
  /\ fst (nvm_getPart tab idx p) = - EINVAL
  /\ nvm_getPart tab idx 0 = (0, {| p_offset := 0; p_size := size desc |}).
Proof.
  intros Hd Hp Hsum Hlen Hpart.
  assert (Hgt : (to_size (offset + len) >? p_size np) = true)
    by (apply Z.gtb_lt; lia).
  repeat split.
  - unfold nvm_read. rewrite Hp. simpl. rewrite Hgt. reflexivity.
  - unfold nvm_write. rewrite Hp, Hlen. simpl. rewrite Hgt. reflexivity.
  - unfold nvm_erase. rewrite Hp. simpl. rewrite Hgt. reflexivity.
  - unfold nvm_getPart. rewrite Hd.
    assert (0 <= nbPart desc) by (unfold nbPart; lia).
    destruct (p =? 0) eqn:E0; [apply Z.eqb_eq in E0; lia|].
    destruct (p >? nbPart desc) eqn:E1; [reflexivity|].
    rewrite Z.gtb_ltb, Z.ltb_ge in E1. lia.
  - unfold nvm_getPart. rewrite Hd. reflexivity.
Qed.

Lemma nvm_access_bounds_witness :
  nvm_read tab256 fresh_nvm 0 1 100 29 = (- EINVAL, [])
  /\ nvm_write tab256 fresh_nvm 0 1 100 (repeat 0 29%nat)
     = (- EINVAL, fresh_nvm)
  /\ nvm_erase tab256 fresh_nvm 0 1 100 29 = (- EINVAL, fresh_nvm)
  /\ fst (nvm_getPart tab256 0 3) = - EINVAL
  /\ nvm_getPart tab256 0 0 = (0, {| p_offset := 0; p_size := 256 |}).
Proof.
  apply (nvm_access_bounds tab256 fresh_nvm 0
           {| dev := flash256; baseAddr := 0; size := 256;
              partitions := [ {| p_offset := 0; p_size := 128 |};
                              {| p_offset := 128; p_size := 128 |} ] |}
           1 {| p_offset := 0; p_size := 128 |} 100 29 (repeat 0 29%nat) 3).
  - reflexivity.
  - reflexivity.
  - vm_compute. reflexivity.
  - reflexivity.
  - vm_compute. reflexivity.
Defined.

(** C8.  The bounds check of the access layer misses the overflow: a
    request whose sum [offset + len] exceeds 32 bits, and with it the size
    of the partition, is not answered with [-EINVAL] when the wrapped sum
    fits the partition.  [nvm_read], [nvm_write] and [nvm_erase] hand it to
    the device, at the address that the wrapped offset gives. *)
Theorem nvm_access_overflow_accepted tab st idx desc part np offset len data :
  nvm_getDesc tab idx = Some desc ->
  nvm_getPart tab idx part = (0, np) ->
  p_size np <= UINT32_MAX ->
  0 <= offset <= UINT32_MAX -> 0 <= len <= UINT32_MAX ->
  UINT32_MAX < offset + len ->
  offset + len - (UINT32_MAX + 1) <= p_size np ->
  Z.of_nat (List.length data) = len ->
  p_size np < offset + len /\
  nvm_read tab st idx part offset len
  = nvm_devRead (dev desc) st
      (to_u32 (baseAddr desc + to_u32 (offset + p_offset np))) len /\
  nvm_write tab st idx part offset data
  = nvm_devWrite (dev desc) st
      (to_u32 (baseAddr desc + to_u32 (offset + p_offset np))) data /\
  nvm_erase tab st idx part offset len
  = nvm_devErase (dev desc) st
      (to_u32 (baseAddr desc + to_u32 (offset + p_offset np))) len.
Proof.
  intros Hd Hp Hps Ho Hl Hover Hwrap Hlen.
  assert (Hsum : to_size (offset + len) = offset + len - (UINT32_MAX + 1)).
  { unfold to_size, to_u32, UINT32_MAX in *.
    symmetry. apply Z.mod_unique with (q := 1); lia. }
  assert (Hchk : (to_size (offset + len) >? p_size np) = false)
    by (rewrite Hsum, Z.gtb_ltb; apply Z.ltb_ge; exact Hwrap).
  split; [lia|].
  unfold nvm_read, nvm_write, nvm_erase. rewrite Hp, Hd, Hlen, Hchk.
  cbn [Z.ltb Z.compare]. repeat split; reflexivity.
Qed.

(** Here the request even reads, writes and erases the four bytes in front
    of the partition. *)
Lemma nvm_access_overflow_accepted_witness :
  16 < 4294967292 + 8
  /\ nvm_getPart tab_shifted 0 1 = (0, {| p_offset := 4; p_size := 16 |})
  /\ nvm_read tab_shifted fresh_nvm 0 1 4294967292 8
     = (0, repeat 255 8%nat)
  /\ nvm_write tab_shifted fresh_nvm 0 1 4294967292 (repeat 0 8%nat)
     = (0, commit (EvWrite flash256 0 (repeat 0 8%nat)) fresh_nvm)
  /\ nvm_erase tab_shifted fresh_nvm 0 1 4294967292 8
     = (0, commit (EvErase flash256 0 8) fresh_nvm).
Proof.
  destruct (nvm_access_overflow_accepted tab_shifted fresh_nvm 0
              {| dev := flash256; baseAddr := 0; size := 64;
                 partitions := [ {| p_offset := 4; p_size := 16 |} ] |}
              1 {| p_offset := 4; p_size := 16 |} 4294967292 8
              (repeat 0 8%nat))
    as (H1 & H2 & H3 & H4);
    try reflexivity; try (unfold UINT32_MAX; cbn; lia).
  split; [exact H1|]. split; [reflexivity|].
  rewrite H2, H3, H4. repeat split; reflexivity.
Defined.

(** ** What a call leaves in the log *)

Ltac break_if :=
  match goal with
  | |- context [if ?c then _ else _] => destruct c eqn:?
  | H : context [if ?c then _ else _] |- _ => destruct c eqn:?
  end.

Ltac break_let :=
  match goal with
  | H : context [let '(_, _) := ?p in _] |- _ => destruct p eqn:?
  | |- context [let '(_, _) := ?p in _] => destruct p eqn:?
  end.

Ltac inv H := inversion H; subst; clear H.

Lemma logs_refl st : logs st st [].
Proof. unfold logs. now rewrite app_nil_r. Qed.

Lemma logs_trans st1 st2 st3 e1 e2 :
  logs st1 st2 e1 -> logs st2 st3 e2 -> logs st1 st3 (e1 ++ e2).
Proof. unfold logs. intros H1 H2. now rewrite H2, H1, app_assoc. Qed.

Lemma logs_new_events st st' evs : logs st st' evs -> new_events st st' = evs.
Proof.
  unfold logs, new_events. intros ->.
  rewrite skipn_app, skipn_all, Nat.sub_diag. reflexivity.
Qed.

Lemma nvm_getPart_nonpos tab idx part ret np :
  nvm_getPart tab idx part = (ret, np) -> ret = 0 \/ ret = - EINVAL.
Proof.
  unfold nvm_getPart. intros H.
  repeat (match type of H with
          | context [match ?x with _ => _ end] => destruct x
          end); inv H; auto.
Qed.

Lemma nvm_devWrite_log d st a data ret st' :
  nvm_devWrite d st a data = (ret, st') ->
  (ret < 0 /\ st' = st) \/ (ret = 0 /\ st' = commit (EvWrite d a data) st).
Proof.
  unfold nvm_devWrite, ops_write_hook, ENOTSUP, EINVAL. intros H.
  repeat break_if; inv H; auto; left; split; auto; lia.
Qed.

Lemma nvm_devErase_log d st a sz ret st' :
  nvm_devErase d st a sz = (ret, st') ->
  (ret < 0 /\ st' = st) \/ (ret = 0 /\ st' = commit (EvErase d a sz) st).
Proof.
  unfold nvm_devErase, ops_erase_hook, ENOTSUP, EINVAL. intros H.
  repeat break_if; inv H; auto; left; split; auto; lia.
Qed.

Lemma nvm_write_log tab st idx part off data ret st' :
  nvm_write tab st idx part off data = (ret, st') ->
  (ret < 0 /\ st' = st) \/
  (ret = 0 /\ exists d a, st' = commit (EvWrite d a data) st).
Proof.
  unfold nvm_write. intros H.
  destruct (nvm_getPart tab idx part) as [r np] eqn:Hp.
  destruct (nvm_getPart_nonpos _ _ _ _ _ Hp) as [-> | ->].
  2:{ unfold EINVAL in H. simpl in H. inv H. left. split; auto. lia. }
  simpl in H. break_if.
  { inv H. left. unfold EINVAL. split; auto. lia. }
  destruct (nvm_getDesc tab idx) as [desc|] eqn:Hd.
  2:{ inv H. left. unfold EINVAL. split; auto. lia. }
  apply nvm_devWrite_log in H. destruct H as [H | [-> ->]]; auto.
  right. split; auto. do 2 eexists. reflexivity.
Qed.

Lemma nvm_erase_log tab st idx part off sz ret st' :
  nvm_erase tab st idx part off sz = (ret, st') ->
  (ret < 0 /\ st' = st) \/
  (ret = 0 /\ exists ev, st' = commit ev st /\ is_frame_write ev = false).
Proof.
  unfold nvm_erase. intros H.
  destruct (nvm_getPart tab idx part) as [r np] eqn:Hp.
  destruct (nvm_getPart_nonpos _ _ _ _ _ Hp) as [-> | ->].
  2:{ unfold EINVAL in H. simpl in H. inv H. left. split; auto. lia. }
  simpl in H. break_if.
  { inv H. left. unfold EINVAL. split; auto. lia. }
  destruct (nvm_getDesc tab idx) as [desc|] eqn:Hd.
  2:{ inv H. left. unfold EINVAL. split; auto. lia. }
  apply nvm_devErase_log in H. destruct H as [H | [-> ->]]; auto.
  right. split; auto. eexists. split; reflexivity.
Qed.

(** ** Saving *)

Section StoreProofs.

Variable crc_ccitt : list Z -> Z.
Variable tab : nvmTable.

Local Abbreviation update_settings_store := (update_settings_store crc_ccitt).
Local Abbreviation default_settings_store := (default_settings_store crc_ccitt).
Local Abbreviation check_store_integrity := (check_store_integrity crc_ccitt).
Local Abbreviation parse_walk := (parse_walk tab).
Local Abbreviation parse_partition := (parse_partition tab).
Local Abbreviation read_store := (read_store tab).
Local Abbreviation find_loop := (find_loop crc_ccitt tab).
Local Abbreviation find_latest_valid_store :=
  (find_latest_valid_store crc_ccitt tab).
Local Abbreviation fill_words := (fill_words tab).
Local Abbreviation fill_bytes := (fill_bytes tab).
Local Abbreviation write_store := (write_store tab).
Local Abbreviation settings_storage_init := (settings_storage_init crc_ccitt).
Local Abbreviation settings_storage_load := (settings_storage_load crc_ccitt tab).
Local Abbreviation settings_storage_save := (settings_storage_save crc_ccitt tab).

Lemma char10_length l : List.length (char10 l) = 10%nat.
Proof.
  unfold char10. rewrite length_map, firstn_length_le; auto.
  rewrite length_app, repeat_length. lia.
Qed.

Lemma settings_image_length S :
  List.length (settings_image S) = 31%nat.
Proof.
  unfold settings_image. repeat rewrite length_app.
  repeat rewrite char10_length. reflexivity.
Qed.

Lemma store_bytes_length store :
  List.length (settings store) = 31%nat ->
  List.length (store_bytes store) = 41%nat.
Proof.
  intros H. unfold store_bytes. repeat rewrite length_app. rewrite H.
  reflexivity.
Qed.

(** What the fill loops log: small writes, no frame. *)
Lemma fill_words_log fuel : forall st dev part bound i ret j st',
  fill_words fuel st dev part bound i = Some (ret, j, st') ->
  exists evs, logs st st' evs /\ frame_writes evs = 0%nat.
Proof.
  induction fuel as [|fuel IH]; simpl; intros st dev part bound i ret j st' H.
  - discriminate.
  - break_if.
    + break_let. apply nvm_write_log in Heqp.
      destruct Heqp as [[Hr ->] | [-> (d & a & ->)]].
      * apply Z.ltb_lt in Hr. rewrite Hr in H. inv H.
        exists []. split; [apply logs_refl|reflexivity].
      * simpl in H. apply IH in H. destruct H as (evs & Hl & Hf).
        exists (EvWrite d a [255; 255; 255; 255] :: evs). split.
        -- unfold logs in *. rewrite Hl. simpl. now rewrite <- app_assoc.
        -- unfold frame_writes in *. simpl. exact Hf.
    + inv H. exists []. split; [apply logs_refl|reflexivity].
Qed.

Lemma fill_bytes_log fuel : forall st dev part bound i ret j st',
  fill_bytes fuel st dev part bound i = Some (ret, j, st') ->
  exists evs, logs st st' evs /\ frame_writes evs = 0%nat.
Proof.
  induction fuel as [|fuel IH]; simpl; intros st dev part bound i ret j st' H.
  - discriminate.
  - break_if.
    + break_let. apply nvm_write_log in Heqp.
      destruct Heqp as [[Hr ->] | [-> (d & a & ->)]].
      * apply Z.ltb_lt in Hr. rewrite Hr in H. inv H.
        exists []. split; [apply logs_refl|reflexivity].
      * simpl in H. apply IH in H. destruct H as (evs & Hl & Hf).
        exists (EvWrite d a [255] :: evs). split.
        -- unfold logs in *. rewrite Hl. simpl. now rewrite <- app_assoc.
        -- unfold frame_writes in *. simpl. exact Hf.
    + inv H. exists []. split; [apply logs_refl|reflexivity].
Qed.

Lemma frame_writes_app a b :
  frame_writes (a ++ b) = (frame_writes a + frame_writes b)%nat.
Proof. unfold frame_writes. now rewrite filter_app, length_app. Qed.

Lemma write_store_log fuel st dev part store off erase ret off' st' :
  write_store fuel st dev part store off erase = Some (ret, off', st') ->
  List.length (store_bytes store) = 41%nat ->
  ret <= 0 /\
  exists evs,
    logs st st' evs /\
    frame_writes evs = (if ret =? 0 then 1%nat else 0%nat) /\
    (ret = 0 -> exists pre d a, evs = pre ++ [EvWrite d a (store_bytes store)]).
Proof.
  intros H Hlen. unfold write_store in H.
  match goal with
  | |- ?A /\ ?B => cut B; [intros HB; split; [|exact HB]|]
  end.
  { destruct HB as (evs & _ & Hf & _).
    destruct (ret =? 0) eqn:E; [apply Z.eqb_eq in E; lia|].
    revert H. clear. intros H.
    repeat match type of H with
           | context [match ?x with _ => _ end] => destruct x eqn:?
           end; inv H;
      repeat match goal with
             | E : (_ <? 0) = true |- _ => apply Z.ltb_lt in E
             end; try lia;
      repeat match goal with
             | E : (_ =? _) = false |- _ => apply Z.eqb_neq in E
             end; try lia. }
  destruct (nvm_getPart tab (to_u32 dev) (to_u32 part)) as [r pInfo] eqn:Hp.
  destruct (r <? 0) eqn:Hr.
  { inv H. exists []. apply Z.ltb_lt in Hr.
    destruct (ret =? 0) eqn:E; [apply Z.eqb_eq in E; lia|].
    repeat split; [apply logs_refl|lia]. }
  assert (Hframe : forall st0 o evs0,
    logs st st0 evs0 ->
    frame_writes evs0 = 0%nat ->
    (let '(ret, st') := nvm_write tab st0 (to_u32 dev) (to_u32 part) o
                          (store_bytes store) in
     if ret <? 0 then Some (ret, o, st')
     else Some (0, to_size (o + STORE_SIZE), st')) = Some (ret, off', st') ->
    exists evs,
      logs st st' evs /\
      frame_writes evs = (if ret =? 0 then 1%nat else 0%nat) /\
      (ret = 0 ->
       exists pre d a, evs = pre ++ [EvWrite d a (store_bytes store)])).
  { intros st0 o evs0 Hl Hf Hw. break_let.
    apply nvm_write_log in Heqp.
    destruct Heqp as [[Hneg ->] | [-> (d & a & ->)]].
    - pose proof Hneg as Hneg'. apply Z.ltb_lt in Hneg'. rewrite Hneg' in Hw.
      inv Hw. exists evs0.
      destruct (ret =? 0) eqn:E; [apply Z.eqb_eq in E; lia|].
      repeat split; auto. lia.
    - simpl in Hw. inv Hw. exists (evs0 ++ [EvWrite d a (store_bytes store)]).
      split; [|split].
      + apply logs_trans with (1 := Hl). unfold logs, commit. reflexivity.
      + rewrite frame_writes_app, Hf. unfold frame_writes.
        cbn [filter is_frame_write]. rewrite Hlen. reflexivity.
      + intros _. eauto. }
  destruct (erase || (to_size (off + STORE_SIZE) >? p_size pInfo)) eqn:He.
  2:{ apply (Hframe st off []); auto using logs_refl. }
  destruct (nvm_erase tab st (to_u32 dev) (to_u32 part) 0 (p_size pInfo))
    as [re st1] eqn:Her.
  apply nvm_erase_log in Her.
  assert (Hst1 : exists e1, logs st st1 e1 /\ frame_writes e1 = 0%nat).
  { destruct Her as [[_ ->] | [_ (ev & -> & Hnf)]].
    - exists []. split; [apply logs_refl|reflexivity].
    - exists [ev]. split.
      + unfold logs, commit. reflexivity.
      + unfold frame_writes. simpl. rewrite Hnf. reflexivity. }
  destruct Hst1 as (e1 & Hl1 & Hf1).
  destruct (re =? - ENOTSUP) eqn:Hns.
  - destruct (fill_words fuel st1 dev part (to_size (p_size pInfo - 4)) 0)
      as [[[rw i] st2]|] eqn:Hfw; [|discriminate].
    apply fill_words_log in Hfw. destruct Hfw as (e2 & Hl2 & Hf2).
    destruct (rw <? 0) eqn:Hrw.
    { inv H. exists (e1 ++ e2). apply Z.ltb_lt in Hrw.
      destruct (ret =? 0) eqn:E; [apply Z.eqb_eq in E; lia|].
      repeat split.
      - eapply logs_trans; eauto.
      - rewrite frame_writes_app. lia.
      - lia. }
    destruct (fill_bytes fuel st2 dev part (p_size pInfo) i)
      as [[[rb j] st3]|] eqn:Hfb; [|discriminate].
    apply fill_bytes_log in Hfb. destruct Hfb as (e3 & Hl3 & Hf3).
    destruct (rb <? 0) eqn:Hrb.
    { inv H. exists ((e1 ++ e2) ++ e3). apply Z.ltb_lt in Hrb.
      destruct (ret =? 0) eqn:E; [apply Z.eqb_eq in E; lia|].
      repeat split.
      - eapply logs_trans; eauto. eapply logs_trans; eauto.
      - repeat rewrite frame_writes_app. lia.
      - lia. }
    apply (Hframe st3 0 ((e1 ++ e2) ++ e3)); auto.
    + eapply logs_trans; eauto. eapply logs_trans; eauto.
    + repeat rewrite frame_writes_app. lia.
  - destruct (re <? 0) eqn:Hre.
    { inv H. exists e1. apply Z.ltb_lt in Hre.
      destruct (ret =? 0) eqn:E; [apply Z.eqb_eq in E; lia|].
      repeat split; auto. lia. }
    apply (Hframe st1 0 e1); auto.
Qed.

Lemma same_bytes_refl a : same_bytes a a = true.
Proof. induction a; simpl; auto. now rewrite Z.eqb_refl. Qed.

Lemma same_bytes_eq a : forall b, same_bytes a b = true -> a = b.
Proof.
  induction a as [|x a IH]; intros [|y b]; simpl; intros H;
    try discriminate; auto.
  apply andb_true_iff in H. destruct H as [H1 H2].
  apply Z.eqb_eq in H1. subst. f_equal. auto.
Qed.

Lemma same_bytes_neq a b : same_bytes a b = false -> a <> b.
Proof. intros H ->. now rewrite same_bytes_refl in H. Qed.

Lemma update_settings_store_settings S store :
  settings (snd (update_settings_store S store)) = settings_image S.
Proof. reflexivity. Qed.


(** The two ways through [settings_storage_save]: nothing to do, or update
    the cached store and hand it to [write_store] for the partition that its
    counter selects. *)
Lemma save_unfold fuel st s S ret s' st' :
  settings_storage_save fuel st s S = Some (ret, s', st') ->
  (settings (latest_store s) = settings_image S /\ write_needed s = false /\
   ret = 0 /\ st' = st /\
   s' = set_latest s (latest_store s) (initialized s) false)
  \/
  ((settings (latest_store s) <> settings_image S \/ write_needed s = true) /\
   exists r o,
     let upd := snd (update_settings_store S (latest_store s)) in
     let s1 := set_latest s upd (initialized s) true in
     write_store fuel st (s_dev s)
       (if odd_counter (counter upd) then part_B s else part_A s) upd
       (if odd_counter (counter upd) then part_B_offset s
        else part_A_offset s)
       ((if odd_counter (counter upd) then part_B_status s
         else part_A_status s) =? -1) = Some (r, o, st') /\
     ret = (if r <? 0 then r else 0) /\
     s' = (if r <? 0
           then (if odd_counter (counter upd)
                 then set_part_B s1 o (part_B_status s)
                 else set_part_A s1 o (part_A_status s))
           else set_latest (if odd_counter (counter upd)
                            then set_part_B s1 o 1
                            else set_part_A s1 o 1)
                  upd (initialized s) false)).
Proof.
  unfold settings_storage_save. intros H.
  set (upd := snd (update_settings_store S (latest_store s))) in *.
  assert (Hupd :
    match write_store fuel st (s_dev s)
            (if odd_counter (counter upd) then part_B s else part_A s) upd
            (if odd_counter (counter upd) then part_B_offset s
             else part_A_offset s)
            ((if odd_counter (counter upd) then part_B_status s
              else part_A_status s) =? -1) with
    | None => None
    | Some (r, o, st1) =>
        let s1 := set_latest s upd (initialized s) true in
        if r <? 0
        then Some (r, (if odd_counter (counter upd)
                       then set_part_B s1 o (part_B_status s)
                       else set_part_A s1 o (part_A_status s)), st1)
        else Some (0, set_latest (if odd_counter (counter upd)
                                  then set_part_B s1 o 1
                                  else set_part_A s1 o 1)
                        upd (initialized s) false, st1)
    end = Some (ret, s', st') ->
    exists r o,
      write_store fuel st (s_dev s)
        (if odd_counter (counter upd) then part_B s else part_A s) upd
        (if odd_counter (counter upd) then part_B_offset s
         else part_A_offset s)
        ((if odd_counter (counter upd) then part_B_status s
          else part_A_status s) =? -1) = Some (r, o, st') /\
      ret = (if r <? 0 then r else 0) /\
      s' = (if r <? 0
            then (if odd_counter (counter upd)
                  then set_part_B (set_latest s upd (initialized s) true) o
                         (part_B_status s)
                  else set_part_A (set_latest s upd (initialized s) true) o
                         (part_A_status s))
            else set_latest
                   (if odd_counter (counter upd)
                    then set_part_B (set_latest s upd (initialized s) true)
                           o 1
                    else set_part_A (set_latest s upd (initialized s) true)
                           o 1)
                   upd (initialized s) false)).
  { match goal with
    | |- context [write_store ?a ?b ?c ?d ?e ?f ?g] =>
        destruct (write_store a b c d e f g) as [[[r o] st1]|] eqn:Hws
    end; [|intros Hw; discriminate Hw]. intros Hw.
    exists r, o. cbv zeta in Hw.
    destruct (r <? 0) eqn:Hr; inv Hw; auto. }
  unfold memcmp in H.
  destruct (same_bytes (settings (latest_store s)) (settings_image S)) eqn:Hsb;
    [apply same_bytes_eq in Hsb; rename Hsb into Heq
    |apply same_bytes_neq in Hsb; rename Hsb into Hne];
    destruct (write_needed s) eqn:Hwn; simpl in H.
  - right. split; [auto|]. apply Hupd. clear Hupd. revert H.
    unfold upd, odd_counter. simpl.
    destruct (negb (to_u16 (counter (latest_store s) + 1) mod 2 =? 0));
      intros H; exact H.
  - left. rewrite Hwn in H. inv H. repeat split; auto.
  - right. split; [auto|]. apply Hupd. clear Hupd. revert H.
    unfold upd, odd_counter. simpl.
    destruct (negb (to_u16 (counter (latest_store s) + 1) mod 2 =? 0));
      intros H; exact H.
  - right. split; [auto|]. apply Hupd. clear Hupd. revert H.
    unfold upd, odd_counter. simpl.
    destruct (negb (to_u16 (counter (latest_store s) + 1) mod 2 =? 0));
      intros H; exact H.
Qed.

(** What a save leaves in the handle and in the log. *)
Lemma save_cases fuel st s S ret s' st' :
  settings_storage_save fuel st s S = Some (ret, s', st') ->
  (settings (latest_store s) = settings_image S /\ write_needed s = false /\
   ret = 0 /\ st' = st /\
   s' = set_latest s (latest_store s) (initialized s) false)
  \/
  ((settings (latest_store s) <> settings_image S \/ write_needed s = true) /\
   latest_store s' = snd (update_settings_store S (latest_store s)) /\
   s_dev s' = s_dev s /\ part_A s' = part_A s /\ part_B s' = part_B s /\
   initialized s' = initialized s /\
   (ret = 0 -> write_needed s' = false) /\
   exists evs,
     logs st st' evs /\
     frame_writes evs = (if ret =? 0 then 1%nat else 0%nat) /\
     (ret = 0 ->
      exists pre d a,
        evs = pre ++ [EvWrite d a (store_bytes (latest_store s'))])).
Proof.
  intros H. apply save_unfold in H.
  destruct H as [H | (Hne & r & o & Hws & -> & ->)]; [left; exact H|].
  right. split; [exact Hne|].
  set (upd := snd (update_settings_store S (latest_store s))) in *.
  assert (Hlen : List.length (store_bytes upd) = 41%nat).
  { apply store_bytes_length. unfold upd.
    rewrite update_settings_store_settings. apply settings_image_length. }
  apply write_store_log in Hws; auto.
  destruct Hws as (Hle & evs & Hl & Hf & Hlast).
  destruct (odd_counter (counter upd)) eqn:Hodd;
    destruct (r <? 0) eqn:Hr;
    cbn [latest_store s_dev part_A part_B initialized write_needed
         set_latest set_part_A set_part_B];
    try (apply Z.ltb_lt in Hr);
    try (apply Z.ltb_ge in Hr; assert (r = 0) by lia; subst r);
    (repeat match goal with |- _ /\ _ => split end);
    try reflexivity; try (intros; lia); exists evs; auto.
Qed.

(** The cache after a save that returned 0. *)
Lemma save_success_cache fuel st s S s' st' :
  settings_storage_save fuel st s S = Some (0, s', st') ->
  write_needed s' = false /\
  settings (latest_store s') = settings_image S.
Proof.
  intros H. apply save_cases in H.
  destruct H as [(Heq & _ & _ & _ & ->) | (_ & Hl & _ & _ & _ & _ & Hw & _)].
  - split; [reflexivity|exact Heq].
  - split; [auto|]. rewrite Hl. apply update_settings_store_settings.
Qed.

(** C10.  Whenever [settings_storage_save] returns 0 the handle has
    [write_needed] cleared and caches exactly the payload passed in, whether
    or not anything was written. *)
Theorem save_caches_payload fuel st s S s' st' :
  settings_storage_save fuel st s S = Some (0, s', st') ->
  write_needed s' = false /\
  settings (latest_store s') = settings_image S.
Proof.
  intros H. apply save_cases in H.
  destruct H as [(Heq & _ & _ & _ & ->) | (_ & Hl & _ & _ & _ & _ & Hw & _)].
  - split; [reflexivity|exact Heq].
  - split; [auto|]. rewrite Hl. apply update_settings_store_settings.
Qed.


(** C6 (as amended).  After a successful [save(S)] on a handle whose
    [write_needed] was clear, a second [save(S)] returns 0 and changes neither
    the memory, the log, nor the handle (so the counter stays).  The pair
    writes at most one frame: none when [S] equals the payload cached before
    the first call, one otherwise. *)
Theorem save_twice_writes_at_most_once fuel fuel' st s S s1 st1 :
  write_needed s = false ->
  settings_storage_save fuel st s S = Some (0, s1, st1) ->
  settings_storage_save fuel' st1 s1 S = Some (0, s1, st1)
  /\ frame_writes (new_events st st1)
     = (if same_bytes (settings (latest_store s)) (settings_image S)
        then 0%nat else 1%nat)
  /\ counter (latest_store s1)
     = (if same_bytes (settings (latest_store s)) (settings_image S)
        then counter (latest_store s)
        else to_u16 (counter (latest_store s) + 1)).
Proof.
  intros Hwn H.
  pose proof (save_success_cache _ _ _ _ _ _ H) as [Hwn1 Hset1].
  split.
  - unfold settings_storage_save, memcmp.
    rewrite Hset1, same_bytes_refl, Hwn1. simpl. rewrite Hwn1.
    destruct s1; simpl in *. subst. reflexivity.
  - apply save_cases in H.
    destruct H as [(Heq & _ & _ & -> & ->)
                  | (Hne & Hl & _ & _ & _ & _ & _ & evs & Hlog & Hf & _)].
    + rewrite Heq, same_bytes_refl. unfold new_events.
      rewrite skipn_all. split; reflexivity.
    + destruct Hne as [Hne | Hne]; [|congruence].
      destruct (same_bytes (settings (latest_store s)) (settings_image S))
        eqn:E; [apply same_bytes_eq in E; contradiction|].
      rewrite (logs_new_events _ _ _ Hlog), Hf, Hl. split; reflexivity.
Qed.

Lemma odd_counter_succ c : odd_counter (to_u16 (c + 1)) = negb (odd_counter c).
Proof.
  unfold odd_counter, to_u16.
  replace 65536 with (2 * 32768) by reflexivity.
  rewrite Z.rem_mul_r, Z.mul_comm, Z_mod_plus_full, Z.mod_mod by lia.
  rewrite Zplus_mod.
  pose proof (Z.mod_pos_bound c 2 ltac:(lia)) as Hb.
  assert (Hc : c mod 2 = 0 \/ c mod 2 = 1) by lia.
  destruct Hc as [-> | ->]; reflexivity.
Qed.



(** ** Memory as byte lists *)

Lemma mem_bytes_length m a n : List.length (mem_bytes m a n) = n.
Proof. unfold mem_bytes. now rewrite length_map, length_seq. Qed.

Lemma mem_bytes_nth m a n i :
  (i < n)%nat -> nth i (mem_bytes m a n) 0 = m (a + Z.of_nat i).
Proof.
  intros H. unfold mem_bytes.
  rewrite nth_indep with (d' := m (a + Z.of_nat 0))
    by (now rewrite length_map, length_seq).
  change (m (a + Z.of_nat 0)) with ((fun i => m (a + Z.of_nat i)) 0%nat).
  rewrite map_nth, seq_nth by assumption. reflexivity.
Qed.

Lemma mem_bytes_ext m m' a n :
  (forall i, (i < n)%nat -> m (a + Z.of_nat i) = m' (a + Z.of_nat i)) ->
  mem_bytes m a n = mem_bytes m' a n.
Proof.
  intros H. unfold mem_bytes. apply map_ext_in. intros i Hi.
  apply in_seq in Hi. apply H. lia.
Qed.

Lemma map_seq_shift {A} k : forall (f : nat -> A) s,
  map f (seq s k) = map (fun i => f (s + i)%nat) (seq 0 k).
Proof.
  induction k as [|k IH]; intros f s; [reflexivity|].
  simpl. rewrite Nat.add_0_r. f_equal.
  rewrite (IH f (S s)), (IH (fun i => f (s + i)%nat) 1%nat).
  apply map_ext. intros i. f_equal. lia.
Qed.

Lemma mem_bytes_app m a n k :
  mem_bytes m a (n + k)
  = mem_bytes m a n ++ mem_bytes m (a + Z.of_nat n) k.
Proof.
  unfold mem_bytes. rewrite seq_app, map_app. f_equal.
  simpl. rewrite map_seq_shift. apply map_ext. intros i. f_equal. lia.
Qed.

Lemma mem_bytes_firstn m a n k :
  (n <= k)%nat -> firstn n (mem_bytes m a k) = mem_bytes m a n.
Proof.
  intros H. replace k with (n + (k - n))%nat by lia.
  rewrite mem_bytes_app, firstn_app, mem_bytes_length, Nat.sub_diag.
  rewrite firstn_all2 by (rewrite mem_bytes_length; lia).
  simpl. apply app_nil_r.
Qed.

Lemma mem_bytes_skipn m a n k :
  (n <= k)%nat ->
  skipn n (mem_bytes m a k) = mem_bytes m (a + Z.of_nat n) (k - n).
Proof.
  intros H. replace k with (n + (k - n))%nat at 1 by lia.
  rewrite mem_bytes_app, skipn_app, mem_bytes_length, Nat.sub_diag.
  rewrite skipn_all2 by (rewrite mem_bytes_length; lia). reflexivity.
Qed.

Lemma holds_nth m a bs i :
  holds m a bs -> (i < List.length bs)%nat -> m (a + Z.of_nat i) = nth i bs 0.
Proof.
  unfold holds. intros H Hi.
  rewrite <- (mem_bytes_nth m a (List.length bs) i) by assumption.
  now rewrite H.
Qed.

Lemma holds_prefix m a bs n :
  holds m a bs -> (n <= List.length bs)%nat -> mem_bytes m a n = firstn n bs.
Proof.
  unfold holds. intros H Hn.
  rewrite <- (mem_bytes_firstn m a n (List.length bs)) by assumption.
  now rewrite H.
Qed.

Lemma holds_slice m a bs n k :
  holds m a bs -> (n + k <= List.length bs)%nat ->
  mem_bytes m (a + Z.of_nat n) k = firstn k (skipn n bs).
Proof.
  unfold holds. intros H Hn.
  rewrite <- (mem_bytes_firstn m (a + Z.of_nat n) k (List.length bs - n))
    by lia.
  rewrite <- mem_bytes_skipn by lia. now rewrite H.
Qed.

Lemma mem_bytes_erased m a b n :
  erased m a b -> a + Z.of_nat n <= b -> mem_bytes m a n = repeat 255 n.
Proof.
  intros He Hb. apply nth_ext with (d := 0) (d' := 0).
  - now rewrite mem_bytes_length, repeat_length.
  - intros i Hi. rewrite mem_bytes_length in Hi.
    rewrite mem_bytes_nth by assumption.
    rewrite nth_repeat_lt by assumption. apply He. lia.
Qed.

Lemma seqZ_bytes m a l : map m (seqZ a l) = mem_bytes m a (Z.to_nat l).
Proof. unfold seqZ, mem_bytes. now rewrite map_map. Qed.

Lemma to_u32_small x : 0 <= x <= UINT32_MAX -> to_u32 x = x.
Proof. unfold to_u32, UINT32_MAX. intros H. apply Z.mod_small. lia. Qed.

Lemma to_size_small x : 0 <= x <= UINT32_MAX -> to_size x = x.
Proof. apply to_u32_small. Qed.

(** ** Reading a partition *)

Section Partition.

Variables (area part : Z) (desc : nvmDescriptor) (np : nvmPartition).
Hypothesis Hdesc : nvm_getDesc tab (to_u32 area) = Some desc.
Hypothesis Hpart : nvm_getPart tab (to_u32 area) (to_u32 part) = (0, np).
Hypothesis Hfit : part_fits desc np.

Local Abbreviation pmem st := (nv_mem st (dev_id (dev desc))).
Local Abbreviation pbase := (part_base desc np).

Lemma nvm_read_in st o l :
  0 <= o -> 0 <= l -> o + l <= p_size np ->
  nvm_read tab st (to_u32 area) (to_u32 part) o l
  = (0, mem_bytes (pmem st) (pbase + o) (Z.to_nat l)).
Proof.
  intros Ho Hl Hin. destruct Hfit as (Hb & Hpo & Hps & Hdev & Hmax).
  unfold nvm_read. rewrite Hpart. simpl.
  rewrite to_size_small by lia.
  destruct (o + l >? p_size np) eqn:E;
    [rewrite Z.gtb_ltb in E; apply Z.ltb_lt in E; lia|].
  rewrite Hdesc. unfold nvm_devRead, ops_read_hook.
  rewrite (to_u32_small (o + p_offset np)) by lia.
  rewrite to_u32_small by lia.
  destruct (baseAddr desc + (o + p_offset np) + l <=? dev_size (dev desc))
    eqn:E2; [|apply Z.leb_gt in E2; lia].
  rewrite seqZ_bytes.
  replace (baseAddr desc + (o + p_offset np)) with (part_base desc np + o)
    by (unfold part_base; lia).
  reflexivity.
Qed.

Lemma nvm_read_out st o l :
  0 <= o -> 0 <= l -> p_size np < o + l <= UINT32_MAX ->
  nvm_read tab st (to_u32 area) (to_u32 part) o l = (- EINVAL, []).
Proof.
  intros Ho Hl Hout. unfold nvm_read. rewrite Hpart. simpl.
  rewrite to_size_small by lia.
  destruct (o + l >? p_size np) eqn:E; [reflexivity|].
  rewrite Z.gtb_ltb in E. apply Z.ltb_ge in E. lia.
Qed.

Lemma header_ok_length f :
  header_ok f = true -> List.length f = 41%nat.
Proof.
  unfold header_ok, STORE_SIZE. intros H. apply andb_true_iff in H.
  destruct H as [H _]. apply Z.eqb_eq in H. lia.
Qed.

Lemma header_ok_prefix f :
  header_ok f = true -> firstn 6 f = [79; 80; 78; 88; 41; 0].
Proof.
  unfold header_ok. intros H. apply andb_true_iff in H.
  destruct H as [_ H]. apply same_bytes_eq in H. exact H.
Qed.

(** One turn of the walk over a record with a sound header. *)
Lemma parse_walk_step fuel st limit o prev magic f :
  0 <= o -> o < limit -> o + STORE_SIZE <= p_size np ->
  header_ok f = true -> holds (pmem st) (pbase + o) f ->
  parse_walk (S fuel) st area part limit o prev magic
  = parse_walk fuel st area part limit (o + STORE_SIZE) o SETTINGS_MAGIC.
Proof.
  intros Ho Hlim Hsz Hok Hh. unfold STORE_SIZE in *.
  pose proof (header_ok_length _ Hok) as Hlen.
  cbn [parse_walk].
  destruct (o <? limit) eqn:E; [|apply Z.ltb_ge in E; lia].
  rewrite nvm_read_in by lia.
  change (Z.to_nat 6) with 6%nat.
  rewrite (holds_prefix _ _ _ 6 Hh) by lia.
  rewrite (header_ok_prefix _ Hok).
  change (0 <? 0) with false. cbv iota.
  change (rd32 [79; 80; 78; 88; 41; 0]) with SETTINGS_MAGIC.
  rewrite Z.eqb_refl. cbn [negb].
  change (rd16 (skipn 4 [79; 80; 78; 88; 41; 0])) with 41.
  destruct Hfit as (Hb & Hpo & Hps & Hdev & Hmax).
  rewrite to_size_small by lia. reflexivity.
Qed.

Lemma parse_walk_limit fuel st limit o prev magic :
  limit <= o ->
  parse_walk (S fuel) st area part limit o prev magic
  = Some (WalkDone o prev magic).
Proof.
  intros H. cbn [parse_walk].
  destruct (o <? limit) eqn:E; [apply Z.ltb_lt in E; lia|reflexivity].
Qed.

Lemma parse_walk_erased fuel st limit o prev magic :
  0 <= o -> o < limit -> o + 6 <= p_size np ->
  erased (pmem st) (pbase + o) (pbase + o + 4) ->
  parse_walk (S fuel) st area part limit o prev magic
  = Some (WalkDone o prev UINT32_MAX).
Proof.
  intros Ho Hlim Hsz He. cbn [parse_walk].
  destruct (o <? limit) eqn:E; [|apply Z.ltb_ge in E; lia].
  rewrite nvm_read_in by lia.
  change (Z.to_nat 6) with (4 + 2)%nat. rewrite mem_bytes_app.
  rewrite (mem_bytes_erased _ _ _ 4 He) by lia.
  change (0 <? 0) with false. cbv iota.
  set (t := mem_bytes (pmem st) (pbase + o + Z.of_nat 4) 2).
  change (rd32 (repeat 255 4 ++ t)) with UINT32_MAX.
  reflexivity.
Qed.

(** The walk over a run of records with sound headers. *)
Lemma parse_walk_frames st limit frames : forall fuel o prev magic,
  0 <= o ->
  Forall (fun f => header_ok f = true) frames ->
  chain (pmem st) (pbase + o) frames ->
  o + STORE_SIZE * Z.of_nat (List.length frames) <= p_size np ->
  o + STORE_SIZE * (Z.of_nat (List.length frames) - 1) < limit ->
  frames <> [] ->
  parse_walk (List.length frames + fuel) st area part limit o prev magic
  = parse_walk fuel st area part limit
      (o + STORE_SIZE * Z.of_nat (List.length frames))
      (o + STORE_SIZE * (Z.of_nat (List.length frames) - 1)) SETTINGS_MAGIC.
Proof.
  induction frames as [|f fs IH]; intros fuel o prev magic Ho Hok Hch Hsz Hlim
    Hne; [congruence|].
  inversion Hok as [|? ? Hf Hfs]; subst. destruct Hch as [Hh Hch].
  cbn [List.length] in *. unfold STORE_SIZE in *.
  change (S (List.length fs) + fuel)%nat with (S (List.length fs + fuel)).
  rewrite (parse_walk_step _ _ _ _ _ _ f); unfold STORE_SIZE; auto; try lia.
  destruct fs as [|f' fs'].
  - simpl. f_equal; lia.
  - replace (pbase + o + 41) with (pbase + (o + 41)) in Hch by lia.
    rewrite IH; auto; try lia; try discriminate.
    f_equal; cbn [List.length] in *; lia.
Qed.

(** The walk over a clean partition ends at the first erased header. *)
Lemma parse_partition_clean st limit frames fuel :
  Forall (fun f => header_ok f = true) frames ->
  chain (pmem st) pbase frames ->
  erased (pmem st) (pbase + STORE_SIZE * Z.of_nat (List.length frames))
    (pbase + p_size np) ->
  STORE_SIZE * Z.of_nat (List.length frames) + 6 <= p_size np ->
  STORE_SIZE * Z.of_nat (List.length frames) < limit ->
  (List.length frames < fuel)%nat ->
  parse_partition fuel st area part limit
  = Some (match frames with
          | [] => (- ENOENT, 0)
          | _ => (0, STORE_SIZE * (Z.of_nat (List.length frames) - 1))
          end).
Proof.
  intros Hok Hch He Hsz Hlim Hfuel. unfold parse_partition.
  replace fuel with (List.length frames + S (fuel - List.length frames - 1))%nat
    by lia.
  unfold STORE_SIZE in *.
  assert (Herase : forall o, o = 41 * Z.of_nat (List.length frames) ->
            erased (pmem st) (pbase + o) (pbase + o + 4)).
  { intros o -> x Hx. apply He. lia. }
  destruct frames as [|f fs].
  - cbn [List.length Nat.add]. simpl in Hsz, Hlim.
    rewrite parse_walk_erased by (try lia; auto).
    reflexivity.
  - replace (pbase) with (pbase + 0) in Hch by lia.
    rewrite parse_walk_frames
      by (unfold STORE_SIZE; try lia; auto; discriminate).
    unfold STORE_SIZE.
    rewrite parse_walk_erased by (try lia; auto).
    change (negb (UINT32_MAX =? UINT32_MAX)) with false. cbv iota.
    destruct (0 + 41 * Z.of_nat (List.length (f :: fs))
              =? 0 + 41 * (Z.of_nat (List.length (f :: fs)) - 1)) eqn:E;
      [apply Z.eqb_eq in E; lia|].
    reflexivity.
Qed.

(** A limit that falls inside the last record makes the walk stop on that
    record's magic word: the partition is reported as ill-formed. *)
Lemma parse_partition_cut st limit frames fuel :
  Forall (fun f => header_ok f = true) frames ->
  chain (pmem st) pbase frames ->
  STORE_SIZE * Z.of_nat (List.length frames) <= p_size np ->
  frames <> [] ->
  STORE_SIZE * (Z.of_nat (List.length frames) - 1) < limit ->
  limit <= STORE_SIZE * Z.of_nat (List.length frames) ->
  (List.length frames < fuel)%nat ->
  parse_partition fuel st area part limit
  = Some (- EILSEQ, STORE_SIZE * Z.of_nat (List.length frames)).
Proof.
  intros Hok Hch Hsz Hne Hlo Hhi Hfuel. unfold parse_partition.
  replace fuel with (List.length frames + S (fuel - List.length frames - 1))%nat
    by lia.
  unfold STORE_SIZE in *.
  replace (pbase) with (pbase + 0) in Hch by lia.
  rewrite parse_walk_frames by (unfold STORE_SIZE; try lia; auto).
  unfold STORE_SIZE.
  rewrite parse_walk_limit by lia.
  change (negb (SETTINGS_MAGIC =? UINT32_MAX)) with true. cbv iota.
  reflexivity.
Qed.

Lemma header_ok_shape f :
  header_ok f = true ->
  exists c0 c1 r,
    f = 79 :: 80 :: 78 :: 88 :: 41 :: 0 :: c0 :: c1 :: r /\
    List.length r = 33%nat.
Proof.
  intros H. pose proof (header_ok_length _ H) as Hl.
  pose proof (header_ok_prefix _ H) as Hp.
  rewrite <- (firstn_skipn 6 f) in Hl |- *. rewrite Hp in *.
  destruct (skipn 6 f) as [|c0 [|c1 r]]; try discriminate.
  exists c0, c1, r. split; [reflexivity|].
  simpl in Hl. lia.
Qed.

(** [read_store] on a full-length record gives its decoding. *)
Lemma read_store_frame st o f store :
  0 <= o -> o + STORE_SIZE <= p_size np ->
  header_ok f = true -> holds (pmem st) (pbase + o) f ->
  read_store st area part o store = (0, decode f).
Proof.
  intros Ho Hsz Hok Hh. unfold STORE_SIZE in *.
  pose proof (header_ok_length _ Hok) as Hlen.
  destruct Hfit as (Hb & Hpo & Hps & Hdev & Hmax).
  unfold read_store. rewrite nvm_read_in by lia.
  change (Z.to_nat 8) with 8%nat.
  rewrite (holds_prefix _ _ _ 8 Hh) by lia.
  change (0 <? 0) with false. cbv iota.
  rewrite (to_u32_small (o + 8)) by lia.
  unfold STORE_SIZE. change (41 - 8) with 33.
  rewrite nvm_read_in by lia.
  change (Z.to_nat 33) with 33%nat.
  replace (pbase + (o + 8)) with (pbase + o + Z.of_nat 8) by lia.
  rewrite (holds_slice _ _ _ 8 33 Hh) by lia.
  rewrite (firstn_all2 (n := 33)) by (rewrite length_skipn; lia).
  destruct (header_ok_shape _ Hok) as (c0 & c1 & r & -> & Hr).
  cbn [firstn skipn set_header length].
  change (rd16 [41; 0] =? 41) with true. cbv iota.
  change (0 <? 0) with false. cbv iota.
  reflexivity.
Qed.

Lemma chain_app m frames : forall a more,
  chain m a (frames ++ more)
  <-> chain m a frames
      /\ chain m (a + STORE_SIZE * Z.of_nat (List.length frames)) more.
Proof.
  induction frames as [|f fs IH]; intros a more.
  - cbn [app List.length chain]. change (Z.of_nat 0) with 0.
    rewrite Z.mul_0_r, Z.add_0_r. tauto.
  - cbn [app chain]. rewrite IH.
    replace (a + STORE_SIZE + STORE_SIZE * Z.of_nat (List.length fs))
      with (a + STORE_SIZE * Z.of_nat (List.length (f :: fs)))
      by (cbn [List.length]; lia).
    tauto.
Qed.

Lemma decode_length f : header_ok f = true -> length (decode f) = STORE_SIZE.
Proof.
  intros H. destruct (header_ok_shape _ H) as (c0 & c1 & r & -> & _).
  reflexivity.
Qed.

Section LastRecord.

Variables (st : nvm_state) (frames : list (list Z)) (f : list Z).
Hypothesis Hok : Forall (fun f => header_ok f = true) (frames ++ [f]).
Hypothesis Hch : chain (pmem st) pbase (frames ++ [f]).
Hypothesis Her :
  erased (pmem st)
    (pbase + STORE_SIZE * Z.of_nat (List.length (frames ++ [f])))
    (pbase + p_size np).
Hypothesis Hsz :
  STORE_SIZE * Z.of_nat (List.length (frames ++ [f])) + 6 <= p_size np.

Local Abbreviation free_off := (STORE_SIZE * (Z.of_nat (List.length frames) + 1)).

Lemma last_record_facts :
  header_ok f = true /\
  holds (pmem st) (pbase + STORE_SIZE * Z.of_nat (List.length frames)) f /\
  free_off + 6 <= p_size np /\ 0 <= free_off.
Proof.
  apply Forall_app in Hok. destruct Hok as [_ Hf].
  inversion Hf; subst.
  apply chain_app in Hch. destruct Hch as [_ [Hh _]].
  rewrite length_app in Hsz. cbn [List.length] in Hsz.
  unfold STORE_SIZE in *. repeat split; auto; lia.
Qed.

(** One turn of the loop of [find_latest_valid_store] while the limit lies
    behind the last record. *)
Lemma find_loop_turn fuel pfuel lim offset store :
  free_off < lim -> lim <= p_size np ->
  (List.length frames + 1 < pfuel)%nat ->
  find_loop (S fuel) pfuel st area part lim offset store
  = let off' := if offset =? 0 then free_off else offset in
    let v := check_store_integrity (decode f) in
    if v =? 1 then Some (3, decode f, off')
    else if v =? 0 then
      find_loop fuel pfuel st area part (lim - STORE_SIZE) off' (decode f)
    else if v =? -1 then Some (2, decode f, off')
    else find_loop fuel pfuel st area part lim off' (decode f).
Proof.
  intros Hlo Hhi Hpf.
  destruct last_record_facts as (Hf & Hh & Hfree & Hpos).
  destruct Hfit as (Hb & Hpo & Hps & Hdev & Hmax).
  unfold STORE_SIZE in *.
  cbn [find_loop].
  destruct (lim >? 0) eqn:E;
    [|rewrite Z.gtb_ltb in E; apply Z.ltb_ge in E; lia].
  rewrite (parse_partition_clean st lim (frames ++ [f]));
    unfold STORE_SIZE; auto;
    try (rewrite length_app; cbn [List.length]; lia).
  assert (Hm : match frames ++ [f] with
               | [] => (- ENOENT, 0)
               | _ :: _ =>
                   (0, 41 * (Z.of_nat (List.length (frames ++ [f])) - 1))
               end = (0, 41 * Z.of_nat (List.length frames))).
  { destruct frames; simpl app; cbv iota; f_equal;
      cbn [List.length]; rewrite ?length_app; cbn [List.length]; lia. }
  rewrite Hm.
  change (0 =? - EILSEQ) with false. change (0 =? - ENOENT) with false.
  change (0 <? 0) with false. cbv iota.
  rewrite (read_store_frame st _ f); unfold STORE_SIZE; auto; try lia.
  change (0 <? 0) with false. cbv iota.
  rewrite (decode_length _ Hf). unfold STORE_SIZE.
  rewrite (to_size_small (41 * Z.of_nat (List.length frames) + 41)) by lia.
  rewrite (to_size_small (lim - 41)) by lia.
  replace (41 * Z.of_nat (List.length frames) + 41)
    with (41 * (Z.of_nat (List.length frames) + 1)) by lia.
  reflexivity.
Qed.

(** The last record is sound: it is reported as valid, with the free space
    right behind it. *)
Lemma find_latest_valid fuel store :
  check_store_integrity (decode f) = 1 ->
  (List.length frames + 1 < fuel)%nat ->
  find_latest_valid_store fuel st area part store
  = Some (3, decode f, free_off).
Proof.
  intros Hv Hfuel. destruct last_record_facts as (Hf & Hh & Hfree & Hpos).
  unfold find_latest_valid_store. rewrite Hpart.
  change (0 <? 0) with false. cbv iota.
  destruct fuel as [|fuel]; [lia|].
  rewrite find_loop_turn by (unfold STORE_SIZE in *; lia).
  cbv zeta. rewrite Hv. reflexivity.
Qed.

(** The last record fails its check: backing off never reaches the record
    before it.  Every shorter limit either finds the same record again or
    stops on a magic word, and the partition is reported as corrupt. *)
Lemma find_loop_backoff k : forall fuel lim offset store,
  check_store_integrity (decode f) = 0 ->
  STORE_SIZE * Z.of_nat (List.length frames) < lim -> lim <= p_size np ->
  lim <= free_off + STORE_SIZE * Z.of_nat k ->
  (List.length frames + 1 < fuel)%nat ->
  find_loop (S k) fuel st area part lim offset store
  = Some (0,
          (if lim <=? free_off then store else decode f),
          (if lim <=? free_off then offset
           else if offset =? 0 then free_off else offset)).
Proof.
  induction k as [|k IH]; intros fuel lim offset store Hv Hlo Hhi Hk Hfuel;
    destruct last_record_facts as (Hf & Hh & Hfree & Hpos);
    unfold STORE_SIZE in *.
  - destruct (lim <=? 41 * (Z.of_nat (List.length frames) + 1)) eqn:E;
      [|apply Z.leb_gt in E; lia].
    cbn [find_loop].
    destruct (lim >? 0) eqn:E0;
      [|rewrite Z.gtb_ltb in E0; apply Z.ltb_ge in E0; lia].
    rewrite (parse_partition_cut st lim (frames ++ [f]))
      by (unfold STORE_SIZE; rewrite ?length_app; cbn [List.length];
          first [lia | assumption | destruct frames; discriminate]).
    reflexivity.
  - destruct (lim <=? 41 * (Z.of_nat (List.length frames) + 1)) eqn:E.
    + apply Z.leb_le in E. cbn [find_loop].
      destruct (lim >? 0) eqn:E0;
        [|rewrite Z.gtb_ltb in E0; apply Z.ltb_ge in E0; lia].
      rewrite (parse_partition_cut st lim (frames ++ [f]))
        by (unfold STORE_SIZE; rewrite ?length_app; cbn [List.length];
            first [lia | assumption | destruct frames; discriminate]).
      reflexivity.
    + apply Z.leb_gt in E.
      rewrite find_loop_turn by (unfold STORE_SIZE; lia).
      cbv zeta. rewrite Hv. change (0 =? 1) with false.
      change (0 =? 0) with true. cbv iota. unfold STORE_SIZE.
      rewrite IH; unfold STORE_SIZE; auto; try lia.
      destruct (lim - 41 <=? 41 * (Z.of_nat (List.length frames) + 1));
        destruct (offset =? 0) eqn:Eo; try reflexivity.
      * destruct (41 * (Z.of_nat (List.length frames) + 1) =? 0) eqn:Ez;
          [apply Z.eqb_eq in Ez; lia|reflexivity].
      * rewrite Eo. reflexivity.
Qed.

Lemma find_latest_corrupt fuel store :
  check_store_integrity (decode f) = 0 ->
  (Z.to_nat (p_size np) < fuel)%nat ->
  find_latest_valid_store fuel st area part store
  = Some (0, decode f, free_off).
Proof.
  intros Hv Hfuel. destruct last_record_facts as (Hf & Hh & Hfree & Hpos).
  unfold find_latest_valid_store. rewrite Hpart.
  change (0 <? 0) with false. cbv iota. unfold STORE_SIZE in *.
  destruct fuel as [|fuel]; [lia|].
  assert (Hfind : forall k, (k <= fuel)%nat ->
            p_size np <= 41 * (Z.of_nat (List.length frames) + 1)
                         + 41 * Z.of_nat k ->
            find_loop (S k) (S fuel) st area part (p_size np) 0 store
            = Some (0, decode f, 41 * (Z.of_nat (List.length frames) + 1))).
  { intros k Hk Hb. rewrite find_loop_backoff; unfold STORE_SIZE; auto;
      try lia.
    destruct (p_size np <=? 41 * (Z.of_nat (List.length frames) + 1)) eqn:E;
      [apply Z.leb_le in E; lia|reflexivity]. }
  (* the loop result does not depend on spare fuel *)
  assert (Hmono : forall k j lim offset store0 r,
            find_loop k (S fuel) st area part lim offset store0 = Some r ->
            find_loop (k + j) (S fuel) st area part lim offset store0
            = Some r).
  { induction k as [|k IHk]; intros j lim offset store0 r H;
      [discriminate|].
    cbn [Nat.add find_loop] in *.
    destruct (lim >? 0); [|exact H].
    destruct (parse_partition (S fuel) st area part lim) as [[ret ro]|];
      [|discriminate].
    repeat match type of H with
           | (if ?c then _ else _) = _ => destruct c
           | (let '(_, _) := ?p in _) = _ => destruct p
           end; auto. }
  specialize (Hfind (Z.to_nat (p_size np)) ltac:(lia) ltac:(lia)).
  replace (S fuel) with (S (Z.to_nat (p_size np))
                         + (fuel - Z.to_nat (p_size np)))%nat at 1 by lia.
  apply Hmono. exact Hfind.
Qed.

End LastRecord.

(** An erased partition is reported as empty. *)
Lemma find_latest_empty st fuel store :
  erased (pmem st) pbase (pbase + p_size np) ->
  6 <= p_size np ->
  (1 < fuel)%nat ->
  find_latest_valid_store fuel st area part store = Some (1, store, 0).
Proof.
  intros He Hsz Hfuel. unfold find_latest_valid_store. rewrite Hpart.
  change (0 <? 0) with false. cbv iota.
  destruct fuel as [|fuel]; [lia|]. cbn [find_loop].
  destruct (p_size np >? 0) eqn:E;
    [|rewrite Z.gtb_ltb in E; apply Z.ltb_ge in E; lia].
  rewrite (parse_partition_clean st (p_size np) [])
    by (cbn [List.length chain]; unfold STORE_SIZE;
        first [lia | constructor | (intros x Hx; apply He; lia)]).
  reflexivity.
Qed.

End Partition.

Lemma all_erased_erased m a n :
  all_erased m a n = true -> erased m a (a + Z.of_nat n).
Proof.
  unfold all_erased. intros H x Hx. rewrite forallb_forall in H.
  replace x with (a + Z.of_nat (Z.to_nat (x - a))) by lia.
  rewrite <- (mem_bytes_nth m a n) by lia.
  apply Z.eqb_eq, H, nth_In. rewrite mem_bytes_length. lia.
Qed.

(** ** Scanning a partition with a known layout *)

Lemma scan_valid st area part frames f fuel store :
  part_layout tab st area part (frames ++ [f]) ->
  check_store_integrity (decode f) = 1 ->
  (List.length frames + 1 < fuel)%nat ->
  find_latest_valid_store fuel st area part store
  = Some (3, decode f, STORE_SIZE * (Z.of_nat (List.length frames) + 1)).
Proof.
  intros (desc & np & Hd & Hp & Hfit & Hok & Hch & He & Hsz) Hv Hfuel.
  eapply find_latest_valid; eauto.
Qed.

Lemma scan_corrupt st area part frames f fuel store :
  part_layout tab st area part (frames ++ [f]) ->
  check_store_integrity (decode f) = 0 ->
  (Z.to_nat (part_size tab area part) < fuel)%nat ->
  find_latest_valid_store fuel st area part store
  = Some (0, decode f, STORE_SIZE * (Z.of_nat (List.length frames) + 1)).
Proof.
  intros (desc & np & Hd & Hp & Hfit & Hok & Hch & He & Hsz) Hv Hfuel.
  unfold part_size in Hfuel. rewrite Hp in Hfuel.
  eapply find_latest_corrupt; eauto.
Qed.

Lemma scan_empty st area part fuel store :
  part_layout tab st area part [] ->
  (1 < fuel)%nat ->
  find_latest_valid_store fuel st area part store = Some (1, store, 0).
Proof.
  intros (desc & np & Hd & Hp & Hfit & Hok & Hch & He & Hsz) Hfuel.
  cbn [List.length] in *. unfold STORE_SIZE in *.
  eapply find_latest_empty; eauto; try lia.
  intros x Hx. apply He. lia.
Qed.

(** C3 fails on the code.  On a partition that holds valid records, then one
    record with a sound header that fails its check, then erased space,
    [find_latest_valid_store] does not report the valid record before the
    corrupt one: it returns 0 (partition corrupt), with the corrupt record
    left in [*store] and the free offset behind it. *)
Theorem find_latest_corrupt_tail st area part frames bad fuel store :
  part_layout tab st area part (frames ++ [bad]) ->
  frames <> [] ->
  Forall (fun f => check_store_integrity (decode f) = 1) frames ->
  check_store_integrity (decode bad) = 0 ->
  (Z.to_nat (part_size tab area part) < fuel)%nat ->
  find_latest_valid_store fuel st area part store
  = Some (0, decode bad, STORE_SIZE * (Z.of_nat (List.length frames) + 1)).
Proof.
  intros Hl _ _ Hv Hfuel. now apply scan_corrupt.
Qed.

(** ** Loading *)

(** The first load after [settings_storage_init] never writes the caller's
    settings object, whatever it finds: only the branch taken when the
    handle is already initialised copies the cached settings out. *)
Lemma first_load_leaves_buffer fuel st s buf ret s' buf' :
  initialized s = false ->
  settings_storage_load fuel st s buf = Some (ret, s', buf') ->
  buf' = buf.
Proof.
  unfold settings_storage_load. intros -> H.
  repeat match type of H with
         | match ?x with _ => _ end = _ => destruct x
         | (if ?c then _ else _) = _ => destruct c
         | (let '(_, _) := ?p in _) = _ => destruct p
         end; inv H; reflexivity.
Qed.

Lemma later_load_copies_cache fuel st s buf :
  initialized s = true ->
  settings_storage_load fuel st s buf
  = Some (0, s, settings (latest_store s)).
Proof. unfold settings_storage_load. now intros ->. Qed.

(** C5, as far as the code goes.  When the first load finds a valid or stale
    newest record in both partitions it caches the one with the greater
    counter, partition A's on a tie, and sets [write_needed] when the chosen
    one is stale.  It returns 0 but leaves the caller's settings object as it
    was: the payload is not handed out by this call. *)
Theorem load_picks_greater_counter fuel st s buf rA storeA offA rB storeB offB :
  initialized s = false ->
  find_latest_valid_store fuel st (s_dev s) (part_A s) zero_store
  = Some (rA, storeA, offA) ->
  rA = 2 \/ rA = 3 ->
  find_latest_valid_store fuel st (s_dev s) (part_B s) zero_store
  = Some (rB, storeB, offB) ->
  rB = 2 \/ rB = 3 ->
  exists s',
    settings_storage_load fuel st s buf = Some (0, s', buf) /\
    latest_store s'
    = (if counter storeA >=? counter storeB then storeA else storeB) /\
    write_needed s'
    = (if counter storeA >=? counter storeB then rA =? 2 else rB =? 2) /\
    initialized s' = true /\
    part_A_status s' = 1 /\ part_B_status s' = 1 /\
    part_A_offset s' = offA /\ part_B_offset s' = offB.
Proof.
  intros Hi HA HrA HB HrB. unfold settings_storage_load.
  rewrite Hi, HA.
  destruct HrA as [-> | ->]; destruct HrB as [-> | ->];
    cbn -[find_latest_valid_store Z.geb]; rewrite HB;
    cbn -[find_latest_valid_store Z.geb];
    destruct (counter storeA >=? counter storeB);
    eexists; (split; [reflexivity|]); repeat split.
Qed.

(** C4 (as amended).  Partition A ends with a valid record of counter 10 and
    partition B with a record of counter 11 whose header is sound but whose
    check fails: the first load returns 0, caches A's record, marks B as
    corrupt and leaves [write_needed] clear. *)
Theorem load_after_torn_write fuel st s buf framesA fA framesB fB :
  initialized s = false ->
  part_layout tab st (s_dev s) (part_A s) (framesA ++ [fA]) ->
  check_store_integrity (decode fA) = 1 ->
  counter (decode fA) = 10 ->
  part_layout tab st (s_dev s) (part_B s) (framesB ++ [fB]) ->
  check_store_integrity (decode fB) = 0 ->
  counter (decode fB) = 11 ->
  (Z.to_nat (part_size tab (s_dev s) (part_B s)) < fuel)%nat ->
  (List.length framesA + 1 < fuel)%nat ->
  exists s' buf',
    settings_storage_load fuel st s buf = Some (0, s', buf') /\
    latest_store s' = decode fA /\
    write_needed s' = false /\
    initialized s' = true /\
    part_A_status s' = 1 /\ part_B_status s' = -1.
Proof.
  intros Hi HA HvA _ HB HvB _ HfB HfA.
  unfold settings_storage_load. rewrite Hi.
  rewrite (scan_valid _ _ _ _ _ _ _ HA HvA HfA).
  cbn -[find_latest_valid_store].
  rewrite (scan_corrupt _ _ _ _ _ _ _ HB HvB HfB).
  cbn. do 2 eexists. split; [reflexivity|]. repeat split.
Qed.

(** The first load on a handle initialised by [settings_storage_init], with
    or without a save before it, leaves the caller's object alone. *)
Lemma init_not_initialized s a b c :
  initialized (snd (settings_storage_init s a b c)) = false.
Proof. reflexivity. Qed.

Lemma save_keeps_initialized fuel st s S ret s' st' :
  settings_storage_save fuel st s S = Some (ret, s', st') ->
  initialized s' = initialized s.
Proof.
  intros H. apply save_cases in H.
  destruct H as [(_ & _ & _ & _ & ->) | (_ & _ & _ & _ & _ & Hi & _)]; auto.
Qed.

(** C2 fails on the code.  After [settings_storage_init] and a save of [S],
    the load that follows is the first load of the handle: it caches [S]
    (when the scan succeeds) but whatever it returns, the caller's settings
    object still holds what it held before the call. *)
Theorem round_trip_leaves_buffer
  fuel st s nvm_dev part_a part_b S ret1 s1 st1 buf ret2 s2 buf' :
  settings_storage_save fuel st
    (snd (settings_storage_init s nvm_dev part_a part_b)) S
  = Some (ret1, s1, st1) ->
  settings_storage_load fuel st1 s1 buf = Some (ret2, s2, buf') ->
  buf' = buf.
Proof.
  intros Hs Hl. apply (first_load_leaves_buffer _ _ _ _ _ _ _ ) in Hl; auto.
  rewrite (save_keeps_initialized _ _ _ _ _ _ _ Hs). reflexivity.
Qed.


(** ** Records as bytes *)

Lemma to_u8_byte x : is_byte (to_u8 x).
Proof. unfold is_byte, to_u8. apply Z.mod_pos_bound. lia. Qed.

Lemma to_u8_id x : is_byte x -> to_u8 x = x.
Proof. unfold is_byte, to_u8. intros H. now apply Z.mod_small. Qed.

Lemma le16_bytes x : Forall is_byte (le16 x).
Proof.
  unfold le16, is_byte. repeat constructor; apply Z.mod_pos_bound; lia.
Qed.

Lemma le32_bytes x : Forall is_byte (le32 x).
Proof.
  unfold le32, is_byte. repeat constructor; apply Z.mod_pos_bound; lia.
Qed.

Lemma rd16_le16 x : 0 <= x < 65536 -> rd16 (le16 x) = x.
Proof.
  intros H. unfold rd16, le16. cbn [nth].
  rewrite (Z.mod_small (x / 256) 256)
    by (split; [apply Z.div_pos; lia | apply Z.div_lt_upper_bound; lia]).
  pose proof (Z.div_mod x 256). lia.
Qed.

Lemma bool_byte_byte b : is_byte (bool_byte b).
Proof. destruct b; unfold is_byte; simpl; lia. Qed.

Lemma char10_bytes l : Forall is_byte (char10 l).
Proof.
  unfold char10. apply Forall_map. apply Forall_forall. intros x _.
  apply to_u8_byte.
Qed.

Lemma settings_image_bytes S : Forall is_byte (settings_image S).
Proof.
  unfold settings_image.
  repeat (apply Forall_app; split);
    repeat (apply Forall_cons);
    try apply Forall_nil;
    try apply to_u8_byte; try apply bool_byte_byte; try apply char10_bytes.
  - pose proof (Z.mod_pos_bound (display_timer S) 16).
    pose proof (Z.mod_pos_bound (m17_can S) 16). unfold is_byte. lia.
  - pose proof (Z.mod_pos_bound (vpLevel S) 8).
    pose proof (Z.mod_pos_bound (vpPhoneticSpell S) 2).
    pose proof (Z.mod_pos_bound (macroMenuLatch S) 2).
    pose proof (Z.mod_pos_bound (_reserved S) 8). unfold is_byte. lia.
Qed.

Lemma store_of_fields c S :
  MAGIC (store_of crc_ccitt c S) = SETTINGS_MAGIC /\
  length (store_of crc_ccitt c S) = STORE_SIZE /\
  counter (store_of crc_ccitt c S) = to_u16 c /\
  settings (store_of crc_ccitt c S) = settings_image S.
Proof. repeat split. Qed.

Lemma frame_of_length c S : List.length (frame_of crc_ccitt c S) = 41%nat.
Proof.
  unfold frame_of. apply store_bytes_length. apply settings_image_length.
Qed.

Lemma frame_of_bytes c S : Forall is_byte (frame_of crc_ccitt c S).
Proof.
  unfold frame_of, store_bytes. cbn [settings store_of set_crc].
  apply Forall_app; split; [apply le32_bytes|].
  apply Forall_app; split; [apply le16_bytes|].
  apply Forall_app; split; [apply le16_bytes|].
  apply Forall_app; split; [apply settings_image_bytes|apply le16_bytes].
Qed.

Lemma frame_of_header_ok c S : header_ok (frame_of crc_ccitt c S) = true.
Proof.
  unfold header_ok. rewrite frame_of_length.
  apply andb_true_iff. split; [reflexivity|].
  unfold frame_of, store_bytes. cbn [MAGIC length store_of set_crc].
  reflexivity.
Qed.

Lemma firstn_app_exact {A} (l1 l2 : list A) n :
  n = List.length l1 -> firstn n (l1 ++ l2) = l1.
Proof.
  intros ->. rewrite firstn_app, Nat.sub_diag, firstn_all. simpl.
  apply app_nil_r.
Qed.

Lemma skipn_app_exact {A} (l1 l2 : list A) n :
  n = List.length l1 -> skipn n (l1 ++ l2) = l2.
Proof.
  intros ->. rewrite skipn_app, Nat.sub_diag, skipn_all. reflexivity.
Qed.

Lemma rd32_le32 x : 0 <= x < 4294967296 -> rd32 (le32 x) = x.
Proof.
  intros H. unfold rd32, le32. cbn [nth].
  pose proof (Z.div_mod x 256 ltac:(lia)).
  pose proof (Z.div_mod (x / 256) 256 ltac:(lia)).
  pose proof (Z.div_mod (x / 256 / 256) 256 ltac:(lia)).
  rewrite !Z.div_div in * by lia.
  change (256 * 256) with 65536 in *. change (65536 * 256) with 16777216 in *.
  rewrite (Z.mod_small (x / 16777216) 256)
    by (split; [apply Z.div_pos; lia | apply Z.div_lt_upper_bound; lia]).
  lia.
Qed.

(** A store whose fields fit their C types reads back from its bytes. *)
Lemma decode_store_bytes m l c s k :
  0 <= m < 4294967296 -> 0 <= l < 65536 -> 0 <= c < 65536 ->
  0 <= k < 65536 -> List.length s = 31%nat ->
  decode (store_bytes {| MAGIC := m; length := l; counter := c;
                         settings := s; crc := k |})
  = {| MAGIC := m; length := l; counter := c; settings := s; crc := k |}.
Proof.
  intros Hm Hl Hc Hk Hs.
  pose proof (rd32_le32 m Hm) as Em. pose proof (rd16_le16 l Hl) as El.
  pose proof (rd16_le16 c Hc) as Ec. pose proof (rd16_le16 k Hk) as Ek.
  unfold decode, store_bytes. cbn [MAGIC length counter settings crc].
  assert (E39 : skipn 39 (le32 m ++ le16 l ++ le16 c ++ s ++ le16 k)
                = le16 k).
  { rewrite !app_assoc. apply skipn_app_exact.
    rewrite !length_app, Hs. reflexivity. }
  assert (E8 : firstn 31 (skipn 8 (le32 m ++ le16 l ++ le16 c ++ s ++ le16 k))
               = s).
  { change (skipn 8 (le32 m ++ le16 l ++ le16 c ++ s ++ le16 k))
      with (s ++ le16 k).
    apply firstn_app_exact. now rewrite Hs. }
  rewrite E39, E8, Ek.
  change (rd32 (le32 m ++ le16 l ++ le16 c ++ s ++ le16 k))
    with (rd32 (le32 m)).
  change (rd16 (skipn 4 (le32 m ++ le16 l ++ le16 c ++ s ++ le16 k)))
    with (rd16 (le16 l)).
  change (rd16 (skipn 6 (le32 m ++ le16 l ++ le16 c ++ s ++ le16 k)))
    with (rd16 (le16 c)).
  rewrite Em, El, Ec. reflexivity.
Qed.

Lemma decode_frame_of c S :
  decode (frame_of crc_ccitt c S) = store_of crc_ccitt c S.
Proof.
  unfold frame_of, store_of, set_crc.
  cbn [MAGIC length counter settings crc].
  apply decode_store_bytes.
  - unfold SETTINGS_MAGIC. lia.
  - unfold STORE_SIZE. lia.
  - unfold to_u16. apply Z.mod_pos_bound. lia.
  - unfold store_crc, to_u16. apply Z.mod_pos_bound. lia.
  - apply settings_image_length.
Qed.

Lemma store_prefix_ignores_crc m l c s k k' :
  List.length s = 31%nat ->
  firstn 39 (store_bytes {| MAGIC := m; length := l; counter := c;
                            settings := s; crc := k |})
  = firstn 39 (store_bytes {| MAGIC := m; length := l; counter := c;
                              settings := s; crc := k' |}).
Proof.
  intros Hs. unfold store_bytes. cbn [MAGIC length counter settings crc].
  rewrite !app_assoc.
  rewrite !(firstn_app_exact _ (le16 _));
    auto; rewrite !length_app, Hs; reflexivity.
Qed.

Lemma store_of_valid c S :
  check_store_integrity (store_of crc_ccitt c S) = 1.
Proof.
  unfold check_store_integrity.
  cbn [MAGIC length store_of set_crc].
  rewrite Z.eqb_refl. cbn [negb].
  change (STORE_SIZE >? STORE_SIZE) with false. cbv iota.
  rewrite Z.eqb_refl. cbn [negb].
  change (to_size (STORE_SIZE - 2)) with (STORE_SIZE - 2).
  unfold store_crc. change (Z.to_nat (STORE_SIZE - 2)) with 39%nat.
  unfold store_of, set_crc. cbn [MAGIC length counter settings crc].
  unfold store_crc. change (Z.to_nat (STORE_SIZE - 2)) with 39%nat.
  match goal with
  | |- (if ?k =? _ then _ else _) = _ =>
      rewrite (store_prefix_ignores_crc _ _ _ _ k 0)
        by apply settings_image_length
  end.
  now rewrite Z.eqb_refl.
Qed.

Lemma frame_of_valid c S :
  check_store_integrity (decode (frame_of crc_ccitt c S)) = 1.
Proof. rewrite decode_frame_of. apply store_of_valid. Qed.

(** ** The effect of writes and erases on the memory *)

Lemma land_255 x : is_byte x -> Z.land 255 x = x.
Proof.
  unfold is_byte. intros H. rewrite Z.land_comm.
  change 255 with (Z.ones 8). rewrite Z.land_ones by lia.
  apply Z.mod_small. simpl. lia.
Qed.

Lemma mem_store_outside bc m a data x :
  x < a \/ a + Z.of_nat (List.length data) <= x ->
  mem_store bc m a data x = m x.
Proof.
  intros H. unfold mem_store.
  destruct ((a <=? x) && (x <? a + Z.of_nat (List.length data))) eqn:E;
    [|reflexivity].
  apply andb_true_iff in E. destruct E as [E1 E2].
  apply Z.leb_le in E1. apply Z.ltb_lt in E2. lia.
Qed.

Lemma mem_store_inside bc m a data i :
  (i < List.length data)%nat ->
  m (a + Z.of_nat i) = 255 -> Forall is_byte data ->
  mem_store bc m a data (a + Z.of_nat i) = nth i data 0.
Proof.
  intros Hi Hm Hb. unfold mem_store.
  destruct ((a <=? a + Z.of_nat i)
            && (a + Z.of_nat i <? a + Z.of_nat (List.length data))) eqn:E.
  - replace (Z.to_nat (a + Z.of_nat i - a)) with i by lia.
    assert (Hbyte : is_byte (nth i data 0)).
    { rewrite Forall_forall in Hb. apply Hb. now apply nth_In. }
    rewrite Hm. cbv zeta. rewrite (to_u8_id _ Hbyte).
    destruct bc; [apply land_255; exact Hbyte|reflexivity].
  - apply andb_false_iff in E. destruct E as [E|E];
      [apply Z.leb_gt in E|apply Z.ltb_ge in E]; lia.
Qed.

Lemma mem_fill_inside m a sz x : a <= x < a + sz -> mem_fill m a sz x = 255.
Proof.
  intros H. unfold mem_fill.
  destruct ((a <=? x) && (x <? a + sz)) eqn:E; [reflexivity|].
  apply andb_false_iff in E. destruct E as [E|E];
    [apply Z.leb_gt in E|apply Z.ltb_ge in E]; lia.
Qed.

Lemma mem_fill_outside m a sz x :
  x < a \/ a + sz <= x -> mem_fill m a sz x = m x.
Proof.
  intros H. unfold mem_fill.
  destruct ((a <=? x) && (x <? a + sz)) eqn:E; [|reflexivity].
  apply andb_true_iff in E. destruct E as [E1 E2].
  apply Z.leb_le in E1. apply Z.ltb_lt in E2. lia.
Qed.

Lemma holds_ext m m' a bs :
  (forall x, a <= x < a + Z.of_nat (List.length bs) -> m' x = m x) ->
  holds m a bs -> holds m' a bs.
Proof.
  unfold holds. intros H <-. rewrite mem_bytes_length.
  apply mem_bytes_ext. intros i Hi. apply H. lia.
Qed.

Lemma chain_ext m m' frames : forall a,
  Forall (fun f => List.length f = 41%nat) frames ->
  (forall x, a <= x < a + STORE_SIZE * Z.of_nat (List.length frames) ->
             m' x = m x) ->
  chain m a frames -> chain m' a frames.
Proof.
  induction frames as [|f fs IH]; intros a Hlen Hext Hch; [exact I|].
  inversion Hlen as [|? ? Hf Hfs]; subst. destruct Hch as [Hh Hch].
  cbn [List.length] in Hext. unfold STORE_SIZE in *. split.
  - apply holds_ext with (m := m); auto. intros x Hx. apply Hext. lia.
  - apply IH; auto. intros x Hx. apply Hext. unfold STORE_SIZE in *. lia.
Qed.

Lemma erased_ext m m' a b :
  (forall x, a <= x < b -> m' x = m x) -> erased m a b -> erased m' a b.
Proof. intros H He x Hx. rewrite H by assumption. now apply He. Qed.

Lemma holds_app m a x y :
  holds m a x -> holds m (a + Z.of_nat (List.length x)) y ->
  holds m a (x ++ y).
Proof.
  unfold holds. intros Hx Hy. rewrite length_app, mem_bytes_app.
  now rewrite Hx, Hy.
Qed.

Lemma holds_erased m a b n :
  erased m a b -> a + Z.of_nat n <= b -> holds m a (repeat 255 n).
Proof.
  intros He Hb. unfold holds. rewrite repeat_length.
  now apply mem_bytes_erased with (b := b).
Qed.

(** A write onto erased memory leaves exactly the bytes written. *)
Lemma holds_store bc m a data :
  erased m a (a + Z.of_nat (List.length data)) -> Forall is_byte data ->
  holds (mem_store bc m a data) a data.
Proof.
  intros He Hb. unfold holds.
  apply nth_ext with (d := 0) (d' := 0);
    [apply mem_bytes_length|].
  intros i Hi. rewrite mem_bytes_length in Hi.
  rewrite mem_bytes_nth by assumption.
  apply mem_store_inside; auto. apply He. lia.
Qed.

Lemma torn_frame_length t f :
  (t <= List.length f)%nat -> List.length (torn_frame t f) = List.length f.
Proof.
  intros H. unfold torn_frame.
  rewrite length_app, firstn_length_le, repeat_length by assumption. lia.
Qed.

(** A write torn after [t] bytes leaves those bytes followed by [0xFF]. *)
Lemma holds_torn bc m a f t :
  (t <= List.length f)%nat ->
  erased m a (a + Z.of_nat (List.length f)) -> Forall is_byte f ->
  holds (mem_store bc m a (firstn t f)) a (torn_frame t f).
Proof.
  intros Ht He Hb. unfold torn_frame. apply holds_app.
  - apply holds_store.
    + intros x Hx. apply He. rewrite firstn_length_le in Hx by assumption.
      lia.
    + rewrite <- (firstn_skipn t f) in Hb. apply Forall_app in Hb. tauto.
  - rewrite firstn_length_le by assumption.
    apply holds_ext with (m := m).
    + intros x Hx. apply mem_store_outside.
      rewrite firstn_length_le by assumption. lia.
    + apply holds_erased with (b := a + Z.of_nat (List.length f)).
      * intros x Hx. apply He. lia.
      * lia.
Qed.

Lemma torn_frame_header_ok t f :
  (6 <= t)%nat -> header_ok f = true -> header_ok (torn_frame t f) = true.
Proof.
  intros Ht Hok. pose proof (header_ok_length _ Hok) as Hl.
  unfold header_ok in *. apply andb_true_iff in Hok.
  destruct Hok as [H1 H2]. apply andb_true_iff. split.
  - destruct (Nat.le_gt_cases t 41).
    + rewrite torn_frame_length by lia. exact H1.
    + unfold torn_frame. rewrite firstn_all2 by lia.
      replace (List.length f - t)%nat with 0%nat by lia.
      simpl. rewrite app_nil_r. exact H1.
  - unfold torn_frame. rewrite firstn_app.
    rewrite firstn_firstn. replace (Init.Nat.min 6 t) with 6%nat by lia.
    destruct (Nat.le_gt_cases t 41).
    + rewrite firstn_length_le by lia.
      replace (6 - t)%nat with 0%nat by lia. simpl. rewrite app_nil_r.
      exact H2.
    + rewrite firstn_all2 with (n := t) by lia.
      replace (6 - List.length f)%nat with 0%nat by lia.
      simpl. rewrite app_nil_r. exact H2.
Qed.

(** ** How a partition changes *)

Ltac ulia := unfold STORE_SIZE in *; lia.

Lemma header_ok_all_length frames :
  Forall (fun f => header_ok f = true) frames ->
  Forall (fun f => List.length f = 41%nat) frames.
Proof. apply Forall_impl. intros f. apply header_ok_length. Qed.

Lemma record_chain_ext m m' desc np frames :
  (forall x, part_base desc np <= x < part_base desc np + p_size np ->
             m' x = m x) ->
  record_chain m desc np frames -> record_chain m' desc np frames.
Proof.
  intros Hext (Hok & Hch & He & Hsz). unfold STORE_SIZE in *.
  split; [exact Hok|]. split; [|split; [|exact Hsz]].
  - apply chain_ext with (m := m); auto using header_ok_all_length.
    intros x Hx. apply Hext. unfold STORE_SIZE in *. lia.
  - apply erased_ext with (m := m); auto. intros x Hx. apply Hext.
    unfold STORE_SIZE in *. lia.
Qed.

(** Tearing the write of a record behind the records present, at or after
    its header, appends the torn record. *)
Lemma record_chain_torn bc m desc np frames f t :
  record_chain m desc np frames ->
  header_ok f = true -> Forall is_byte f -> (6 <= t <= 41)%nat ->
  STORE_SIZE * (Z.of_nat (List.length frames) + 1) + 6 <= p_size np ->
  record_chain
    (mem_store bc m
       (part_base desc np + STORE_SIZE * Z.of_nat (List.length frames))
       (firstn t f))
    desc np (frames ++ [torn_frame t f]).
Proof.
  intros (Hok & Hch & He & Hsz) Hf Hb Ht Hroom.
  pose proof (header_ok_length _ Hf) as Hlen.
  assert (Hfl : List.length (firstn t f) = t)
    by (rewrite firstn_length_le; lia).
  split; [|split; [|split]].
  - apply Forall_app. split; [exact Hok|].
    constructor; [|constructor]. apply torn_frame_header_ok; auto. lia.
  - apply chain_app. split.
    + apply chain_ext with (m := m); auto using header_ok_all_length.
      intros x Hx. apply mem_store_outside. ulia.
    + cbn [chain]. split; [|exact I].
      apply holds_torn; auto; try lia.
      intros x Hx. apply He. ulia.
  - rewrite length_app. cbn [List.length].
    apply erased_ext with (m := m).
    + intros x Hx. apply mem_store_outside. ulia.
    + intros x Hx. apply He. ulia.
  - rewrite length_app. cbn [List.length]. ulia.
Qed.

Lemma torn_frame_all f : torn_frame (List.length f) f = f.
Proof.
  unfold torn_frame. rewrite firstn_all, Nat.sub_diag. apply app_nil_r.
Qed.

(** A completed write appends the record. *)
Lemma record_chain_append bc m desc np frames f :
  record_chain m desc np frames ->
  header_ok f = true -> Forall is_byte f ->
  STORE_SIZE * (Z.of_nat (List.length frames) + 1) + 6 <= p_size np ->
  record_chain
    (mem_store bc m
       (part_base desc np + STORE_SIZE * Z.of_nat (List.length frames)) f)
    desc np (frames ++ [f]).
Proof.
  intros Hrc Hf Hb Hroom. pose proof (header_ok_length _ Hf) as Hlen.
  pose proof (record_chain_torn bc m desc np frames f 41 Hrc Hf Hb
                ltac:(lia) Hroom) as H.
  rewrite <- Hlen in H. rewrite firstn_all, torn_frame_all in H. exact H.
Qed.

(** An erase of the whole partition leaves no record. *)
Lemma record_chain_erased m desc np :
  6 <= p_size np ->
  record_chain (mem_fill m (part_base desc np) (p_size np)) desc np [].
Proof.
  intros Hsz. split; [constructor|]. split; [exact I|].
  cbn [List.length]. unfold STORE_SIZE. split; [|lia].
  intros x Hx. apply mem_fill_inside. lia.
Qed.

Lemma upd_mem_same mm id m : upd_mem mm id m id = m.
Proof. unfold upd_mem. now rewrite Nat.eqb_refl. Qed.

Section Writing.

Variables (area part : Z) (desc : nvmDescriptor) (np : nvmPartition).
Hypothesis Hdesc : nvm_getDesc tab (to_u32 area) = Some desc.
Hypothesis Hpart : nvm_getPart tab (to_u32 area) (to_u32 part) = (0, np).
Hypothesis Hfit : part_fits desc np.
Hypothesis Hwr : part_writable desc np.

Lemma nvm_write_in st o data :
  0 <= o -> o + Z.of_nat (List.length data) <= p_size np ->
  nvm_write tab st (to_u32 area) (to_u32 part) o data
  = (0, commit (EvWrite (dev desc) (part_base desc np + o) data) st).
Proof.
  intros Ho Hin. destruct Hfit as (Hb & Hpo & Hps & Hdev & Hmax).
  destruct Hwr as (Hw & Hws & _).
  unfold nvm_write. rewrite Hpart. simpl.
  rewrite to_size_small by lia.
  destruct (o + Z.of_nat (List.length data) >? p_size np) eqn:E;
    [rewrite Z.gtb_ltb in E; apply Z.ltb_lt in E; lia|].
  rewrite Hdesc. unfold nvm_devWrite, ops_write_hook.
  rewrite Hw, Hws, !Z.mod_1_r. cbn [negb Z.eqb].
  rewrite (to_u32_small (o + p_offset np)) by lia.
  rewrite to_u32_small by lia.
  destruct (baseAddr desc + (o + p_offset np) + Z.of_nat (List.length data)
            <=? dev_size (dev desc)) eqn:E2; [|apply Z.leb_gt in E2; lia].
  replace (baseAddr desc + (o + p_offset np)) with (part_base desc np + o)
    by (unfold part_base; lia).
  reflexivity.
Qed.

Lemma nvm_erase_whole st :
  nvm_erase tab st (to_u32 area) (to_u32 part) 0 (p_size np)
  = (0, commit (EvErase (dev desc) (part_base desc np) (p_size np)) st).
Proof.
  destruct Hfit as (Hb & Hpo & Hps & Hdev & Hmax).
  destruct Hwr as (_ & _ & He & Hes & Ha & Hs).
  unfold nvm_erase. rewrite Hpart. simpl.
  rewrite to_size_small by lia.
  destruct (p_size np >? p_size np) eqn:E;
    [rewrite Z.gtb_ltb in E; apply Z.ltb_lt in E; lia|].
  rewrite Hdesc. unfold nvm_devErase, ops_erase_hook.
  rewrite (to_u32_small (p_offset np)) by lia.
  rewrite to_u32_small by lia.
  fold (part_base desc np). rewrite He, Ha, Hs. cbn [negb Z.eqb].
  destruct (part_base desc np + p_size np <=? dev_size (dev desc)) eqn:E2;
    [reflexivity|apply Z.leb_gt in E2; unfold part_base in E2; lia].
Qed.

(** [write_store] appends when the record fits and erases first when it
    does not; the partition is not marked corrupt. *)
Lemma write_store_appends fuel st store off :
  0 <= off -> off + STORE_SIZE <= p_size np ->
  List.length (store_bytes store) = 41%nat ->
  write_store fuel st area part store off false
  = Some (0, off + STORE_SIZE,
          commit (EvWrite (dev desc) (part_base desc np + off)
                    (store_bytes store)) st).
Proof.
  intros Ho Hin Hl. destruct Hfit as (Hb & Hpo & Hps & Hdev & Hmax).
  unfold write_store, STORE_SIZE in *. rewrite Hpart.
  change (0 <? 0) with false. cbv iota.
  rewrite (to_size_small (off + 41)) by lia.
  destruct (off + 41 >? p_size np) eqn:E;
    [rewrite Z.gtb_ltb in E; apply Z.ltb_lt in E; lia|].
  cbn [orb]. rewrite nvm_write_in by (rewrite ?Hl; lia).
  reflexivity.
Qed.

Lemma write_store_erases fuel st store off :
  0 <= off <= p_size np -> p_size np < off + STORE_SIZE ->
  STORE_SIZE <= p_size np -> p_size np + STORE_SIZE <= UINT32_MAX ->
  List.length (store_bytes store) = 41%nat ->
  write_store fuel st area part store off false
  = Some (0, STORE_SIZE,
          commit (EvWrite (dev desc) (part_base desc np) (store_bytes store))
            (commit (EvErase (dev desc) (part_base desc np) (p_size np)) st)).
Proof.
  intros Ho Hfull Hsz Hbig Hl.
  destruct Hfit as (Hb & Hpo & Hps & Hdev & Hmax).
  unfold write_store, STORE_SIZE in *. rewrite Hpart.
  change (0 <? 0) with false. cbv iota.
  rewrite (to_size_small (off + 41)) by lia.
  destruct (off + 41 >? p_size np) eqn:E;
    [|rewrite Z.gtb_ltb in E; apply Z.ltb_ge in E; lia].
  cbn [orb]. rewrite nvm_erase_whole.
  change (0 =? - ENOTSUP) with false. change (0 <? 0) with false. cbv iota.
  rewrite nvm_write_in by (rewrite ?Hl; lia).
  change (0 <? 0) with false. cbv iota.
  rewrite Z.add_0_r. reflexivity.
Qed.

End Writing.

(** ** A record torn inside its header *)

Section TornHeader.

Variables (area part : Z) (desc : nvmDescriptor) (np : nvmPartition).
Hypothesis Hdesc : nvm_getDesc tab (to_u32 area) = Some desc.
Hypothesis Hpart : nvm_getPart tab (to_u32 area) (to_u32 part) = (0, np).
Hypothesis Hfit : part_fits desc np.

Local Abbreviation pmem st := (nv_mem st (dev_id (dev desc))).
Local Abbreviation pbase := (part_base desc np).

(** Behind the records the walk meets a header that is neither erased nor
    ours, or one of ours whose length leads past the partition: either way
    [parse_partition] reports an ill-formed partition. *)
Lemma parse_walk_over st limit frames :
  Forall (fun f => header_ok f = true) frames ->
  chain (pmem st) pbase frames ->
  STORE_SIZE * Z.of_nat (List.length frames) <= p_size np ->
  STORE_SIZE * (Z.of_nat (List.length frames) - 1) < limit ->
  forall prev magic, exists prev' magic', forall fuel,
    parse_walk (List.length frames + fuel) st area part limit 0 prev magic
    = parse_walk fuel st area part limit
        (STORE_SIZE * Z.of_nat (List.length frames)) prev' magic'.
Proof.
  intros Hok Hch Hsz Hlim prev magic.
  destruct frames as [|f fs].
  - exists prev, magic. intros fuel. reflexivity.
  - do 2 eexists. intros fuel.
    replace pbase with (pbase + 0) in Hch by lia.
    rewrite (parse_walk_frames area part desc np Hdesc Hpart Hfit)
      by (try discriminate; auto; ulia).
    rewrite Z.add_0_l. reflexivity.
Qed.

Lemma parse_partition_bad_header st frames fuel hb :
  Forall (fun f => header_ok f = true) frames ->
  chain (pmem st) pbase frames ->
  STORE_SIZE * Z.of_nat (List.length frames) + 6 <= p_size np ->
  mem_bytes (pmem st) (pbase + STORE_SIZE * Z.of_nat (List.length frames)) 6
  = hb ->
  (rd32 hb <> SETTINGS_MAGIC /\ rd32 hb <> UINT32_MAX) \/
  (rd32 hb = SETTINGS_MAGIC /\
   p_size np <= STORE_SIZE * Z.of_nat (List.length frames)
                + rd16 (skipn 4 hb) <= UINT32_MAX) ->
  (List.length frames + 2 <= fuel)%nat ->
  exists o, parse_partition fuel st area part (p_size np) = Some (- EILSEQ, o).
Proof.
  intros Hok Hch Hsz Hhb Hbad Hfuel. unfold parse_partition.
  replace fuel
    with (List.length frames + S (S (fuel - List.length frames - 2)))%nat
    by lia.
  destruct (parse_walk_over st (p_size np) frames Hok Hch
              ltac:(ulia) ltac:(ulia) 0 0) as (prev & magic & ->).
  unfold STORE_SIZE in *.
  destruct Hfit as (Hb & Hpo & Hps & Hdev & Hmax).
  cbn [parse_walk].
  destruct (41 * Z.of_nat (List.length frames) <? p_size np) eqn:E;
    [|apply Z.ltb_ge in E; lia].
  rewrite (nvm_read_in area part desc np Hdesc Hpart
             (conj Hb (conj Hpo (conj Hps (conj Hdev Hmax))))) by lia.
  change (Z.to_nat 6) with 6%nat. rewrite Hhb.
  change (0 <? 0) with false. cbv iota.
  destruct Hbad as [[Hm1 Hm2] | [Hm Hlen]].
  - apply Z.eqb_neq in Hm1, Hm2. rewrite Hm1. cbn [negb].
    rewrite Hm2. cbn [negb]. eauto.
  - rewrite Hm, Z.eqb_refl. cbn [negb].
    rewrite to_size_small by lia.
    destruct (41 * Z.of_nat (List.length frames) + rd16 (skipn 4 hb)
              <? p_size np) eqn:E2; [apply Z.ltb_lt in E2; lia|].
    change (negb (SETTINGS_MAGIC =? UINT32_MAX)) with true. cbv iota.
    eauto.
Qed.

Lemma find_latest_bad_header st frames fuel hb store :
  Forall (fun f => header_ok f = true) frames ->
  chain (pmem st) pbase frames ->
  STORE_SIZE * Z.of_nat (List.length frames) + 6 <= p_size np ->
  mem_bytes (pmem st) (pbase + STORE_SIZE * Z.of_nat (List.length frames)) 6
  = hb ->
  (rd32 hb <> SETTINGS_MAGIC /\ rd32 hb <> UINT32_MAX) \/
  (rd32 hb = SETTINGS_MAGIC /\
   p_size np <= STORE_SIZE * Z.of_nat (List.length frames)
                + rd16 (skipn 4 hb) <= UINT32_MAX) ->
  (List.length frames + 2 <= fuel)%nat ->
  find_latest_valid_store fuel st area part store = Some (0, store, 0).
Proof.
  intros Hok Hch Hsz Hhb Hbad Hfuel.
  destruct (parse_partition_bad_header st frames fuel hb Hok Hch Hsz Hhb Hbad
              Hfuel) as [o Hp].
  unfold find_latest_valid_store. rewrite Hpart.
  change (0 <? 0) with false. cbv iota.
  destruct fuel as [|fuel']; [lia|]. cbn [find_loop].
  destruct (p_size np >? 0) eqn:E;
    [|rewrite Z.gtb_ltb in E; apply Z.ltb_ge in E; ulia].
  rewrite Hp. rewrite Z.eqb_refl. reflexivity.
Qed.

(** The write of a record is torn inside its header, on a partition too
    short for the walk to step over a torn length field. *)
Lemma find_latest_torn_header bc st m frames f t fuel store :
  pmem st = mem_store bc m
              (pbase + STORE_SIZE * Z.of_nat (List.length frames))
              (firstn t f) ->
  record_chain m desc np frames ->
  header_ok f = true -> Forall is_byte f -> (1 <= t <= 5)%nat ->
  STORE_SIZE * (Z.of_nat (List.length frames) + 1) <= p_size np ->
  p_size np <= 65321 ->
  (List.length frames + 2 <= fuel)%nat ->
  find_latest_valid_store fuel st area part store = Some (0, store, 0).
Proof.
  intros Hm (Hok & Hch & He & Hsz) Hf Hb Ht Hroom Hshort Hfuel.
  pose proof (header_ok_length _ Hf) as Hlen.
  assert (Hh : holds (pmem st)
                 (pbase + STORE_SIZE * Z.of_nat (List.length frames))
                 (torn_frame t f)).
  { rewrite Hm. apply holds_torn; auto; try lia.
    intros x Hx. apply He. ulia. }
  apply (find_latest_bad_header st frames fuel
           (firstn 6 (torn_frame t f))); auto.
  - rewrite Hm. apply chain_ext with (m := m);
      auto using header_ok_all_length.
    intros x Hx. apply mem_store_outside. ulia.
  - apply holds_prefix; auto. rewrite torn_frame_length; lia.
  - destruct (header_ok_shape _ Hf) as (c0 & c1 & r & -> & Hr).
    unfold torn_frame. cbn [List.length].
    assert (Hcases : t = 1%nat \/ t = 2%nat \/ t = 3%nat \/ t = 4%nat
                     \/ t = 5%nat) by lia.
    unfold STORE_SIZE, UINT32_MAX in *.
    destruct Hcases as [-> | [-> | [-> | [-> | ->]]]];
      rewrite Hr; cbn [firstn Nat.sub repeat app skipn];
      [left; split; vm_compute; discriminate
      |left; split; vm_compute; discriminate
      |left; split; vm_compute; discriminate
      |right; split; [vm_compute; reflexivity|unfold rd16; cbn [nth]; lia]
      |right; split; [vm_compute; reflexivity|unfold rd16; cbn [nth]; lia]].
Qed.

End TornHeader.

(** ** What the first load makes of two scans *)

Lemma load_of_scans fuel st s buf rA sA oA rB sB oB :
  initialized s = false ->
  find_latest_valid_store fuel st (s_dev s) (part_A s) zero_store
  = Some (rA, sA, oA) ->
  find_latest_valid_store fuel st (s_dev s) (part_B s) zero_store
  = Some (rB, sB, oB) ->
  rA = 0 \/ rA = 1 \/ rA = 3 ->
  rB = 0 \/ rB = 1 \/ rB = 3 ->
  exists s',
    settings_storage_load fuel st s buf = Some (0, s', buf) /\
    latest_store s' = load_choice crc_ccitt rA sA rB sB.
Proof.
  intros Hi HA HB HrA HrB. unfold settings_storage_load, load_choice.
  rewrite Hi, HA.
  destruct HrA as [-> | [-> | ->]]; destruct HrB as [-> | [-> | ->]];
    cbn -[find_latest_valid_store Z.geb default_settings_store]; rewrite HB;
    cbn -[find_latest_valid_store Z.geb default_settings_store];
    try destruct (counter sA >=? counter sB);
    eexists; (split; [reflexivity|]); reflexivity.
Qed.

(** ** One save on a sound store *)

Lemma set_crc_ignores_crc m l c s k k' :
  List.length s = 31%nat ->
  set_crc crc_ccitt {| MAGIC := m; length := l; counter := c;
                       settings := s; crc := k |}
  = set_crc crc_ccitt {| MAGIC := m; length := l; counter := c;
                         settings := s; crc := k' |}.
Proof.
  intros Hs. unfold set_crc, store_crc.
  cbn [MAGIC length counter settings crc].
  change (Z.to_nat (STORE_SIZE - 2)) with 39%nat.
  now rewrite (store_prefix_ignores_crc m l c s k k' Hs).
Qed.

Lemma to_u16_small x : 0 <= x <= 65535 -> to_u16 x = x.
Proof. intros H. unfold to_u16. apply Z.mod_small. lia. Qed.

(** Updating the store of counter [c] gives the store of counter [c + 1]. *)
Lemma update_store_of c cur S :
  0 <= c -> c + 1 <= 65535 ->
  snd (update_settings_store S (store_of crc_ccitt c cur))
  = store_of crc_ccitt (c + 1) S.
Proof.
  intros H0 H1. unfold update_settings_store, store_of. cbn [snd].
  cbn [MAGIC length counter settings crc set_crc].
  rewrite (to_u16_small c) by lia.
  apply set_crc_ignores_crc. apply settings_image_length.
Qed.

Lemma odd_counter_next c :
  0 <= c -> c + 1 <= 65535 -> odd_counter (c + 1) = negb (odd_counter c).
Proof.
  intros H0 H1. rewrite <- (to_u16_small (c + 1)) by lia.
  apply odd_counter_succ.
Qed.

Lemma store_of_counter c S :
  0 <= c <= 65535 -> counter (store_of crc_ccitt c S) = c.
Proof. intros H. cbn. now apply to_u16_small. Qed.

Lemma apply_write_mem d a data mm :
  apply_event (EvWrite d a data) mm (dev_id d)
  = mem_store (bit_clear d) (mm (dev_id d)) a data.
Proof. cbn [apply_event]. apply upd_mem_same. Qed.

Lemma apply_erase_mem d a sz mm :
  apply_event (EvErase d a sz) mm (dev_id d) = mem_fill (mm (dev_id d)) a sz.
Proof. cbn [apply_event]. apply upd_mem_same. Qed.

(** ** Power loss during a write *)

Lemma firstn_min_all {A} (l : list A) b :
  firstn b l = firstn (Nat.min b (List.length l)) l.
Proof.
  destruct (Nat.le_gt_cases b (List.length l)).
  - now rewrite Nat.min_l.
  - rewrite Nat.min_r, firstn_all, firstn_all2 by lia. reflexivity.
Qed.

(** The stream of an appending save, cut anywhere. *)
Lemma power_cut_single e b d a f :
  f <> [] ->
  power_cut e b [EvWrite d a f] = [] \/
  exists t, (1 <= t <= List.length f)%nat /\
            power_cut e b [EvWrite d a f] = [EvWrite d a (firstn t f)].
Proof.
  intros Hf. assert (0 < List.length f)%nat
    by (destruct f; [congruence|simpl; lia]).
  unfold power_cut. destruct e as [|e].
  - cbn [firstn nth_error app torn]. destruct b as [|b]; [now left|].
    right. exists (Nat.min (S b) (List.length f)). split; [lia|].
    now rewrite <- firstn_min_all.
  - right. exists (List.length f). split; [lia|].
    rewrite firstn_all. cbn [firstn]. rewrite firstn_nil.
    destruct e; reflexivity.
Qed.

(** The stream of a save that erases first, cut anywhere. *)
Lemma power_cut_pair e b d a0 sz a f :
  f <> [] -> 0 < sz ->
  power_cut e b [EvErase d a0 sz; EvWrite d a f] = [] \/
  (exists z, 0 < z <= sz /\
             power_cut e b [EvErase d a0 sz; EvWrite d a f]
             = [EvErase d a0 z]) \/
  exists t, (1 <= t <= List.length f)%nat /\
            power_cut e b [EvErase d a0 sz; EvWrite d a f]
            = [EvErase d a0 sz; EvWrite d a (firstn t f)].
Proof.
  intros Hf Hsz. assert (0 < List.length f)%nat
    by (destruct f; [congruence|simpl; lia]).
  unfold power_cut. destruct e as [|[|e]].
  - cbn [firstn nth_error app torn]. destruct b as [|b]; [now left|].
    right. left. exists (Z.min (Z.of_nat (S b)) sz). split; [lia|reflexivity].
  - cbn [firstn nth_error app torn]. destruct b as [|b].
    { right. left. exists sz. split; [lia|reflexivity]. }
    right. right. exists (Nat.min (S b) (List.length f)). split; [lia|].
    now rewrite <- firstn_min_all.
  - right. right. exists (List.length f). split; [lia|].
    rewrite firstn_all. cbn [firstn]. rewrite firstn_nil.
    destruct e; reflexivity.
Qed.

Lemma roomy_slack np k :
  part_roomy np -> 0 <= k -> STORE_SIZE * k <= p_size np ->
  STORE_SIZE * k + 6 <= p_size np.
Proof.
  unfold part_roomy, STORE_SIZE. intros (H1 & H2 & H3) Hk Hle.
  pose proof (Z.div_mod (p_size np) 41 ltac:(lia)) as Hdm.
  pose proof (Z.mod_pos_bound (p_size np) 41 ltac:(lia)) as Hb.
  assert (k <= p_size np / 41) by nia. nia.
Qed.

Section Target.

(** The partition that the save writes to. *)
Variables (area part : Z) (desc : nvmDescriptor) (np : nvmPartition).
Hypothesis Hdesc : nvm_getDesc tab (to_u32 area) = Some desc.
Hypothesis Hpart : nvm_getPart tab (to_u32 area) (to_u32 part) = (0, np).
Hypothesis Hfit : part_fits desc np.
Hypothesis Hroom : part_roomy np.

Variables (mm : nat -> Z -> Z) (fq : list (list Z)) (f : list Z).
Hypothesis Hrc : record_chain (mm (dev_id (dev desc))) desc np fq.
Hypothesis Hf : header_ok f = true.
Hypothesis Hfb : Forall is_byte f.

Local Abbreviation base := (part_base desc np).
Local Abbreviation d := (dev desc).
Local Abbreviation m := (mm (dev_id (dev desc))).
Local Abbreviation target := (target_events desc np fq f).

(** The rest of the device keeps its bytes, wherever the power is lost. *)
Lemma cut_outside e b x :
  x < base \/ base + p_size np <= x ->
  replay (power_cut e b target) mm (dev_id d) x = m x.
Proof.
  intros Hx. pose proof (header_ok_length _ Hf) as Hl.
  assert (Hfne : f <> []) by (destruct f; [discriminate|congruence]).
  pose proof Hroom as (Hr1 & Hr2 & Hr3).
  unfold target_events.
  destruct (STORE_SIZE * Z.of_nat (List.length fq) + STORE_SIZE
            <=? p_size np) eqn:Efit.
  - apply Z.leb_le in Efit.
    destruct (power_cut_single e b d
                (base + STORE_SIZE * Z.of_nat (List.length fq)) f Hfne)
      as [Hc | (t & Ht & Hc)]; rewrite Hc; cbn [replay fold_left].
    + reflexivity.
    + rewrite apply_write_mem. apply mem_store_outside.
      rewrite length_firstn. ulia.
  - destruct (power_cut_pair e b d base (p_size np) base f Hfne
                ltac:(ulia))
      as [Hc | [(z & Hz & Hc) | (t & Ht & Hc)]];
      rewrite Hc; cbn [replay fold_left].
    + reflexivity.
    + rewrite apply_erase_mem. apply mem_fill_outside. lia.
    + rewrite apply_write_mem, apply_erase_mem.
      rewrite mem_store_outside by (rewrite length_firstn; ulia).
      apply mem_fill_outside. lia.
Qed.

Hypothesis Hwr : part_writable desc np.

(** [write_store] performs exactly the operations [target_events] and leaves
    the record as the last one of the partition. *)
Lemma write_store_target fuel st store :
  store_bytes store = f -> nv_mem st = mm ->
  exists st' g,
    write_store fuel st area part store
      (STORE_SIZE * Z.of_nat (List.length fq)) false
    = Some (0, STORE_SIZE * Z.of_nat (List.length (g ++ [f])), st') /\
    new_events st st' = target /\
    nv_mem st' = replay target mm /\
    record_chain (nv_mem st' (dev_id d)) desc np (g ++ [f]).
Proof.
  intros Hsb Hmm. pose proof (header_ok_length _ Hf) as Hl.
  pose proof Hroom as (Hr1 & Hr2 & Hr3).
  pose proof Hrc as (Hok & Hch & He & Hsz).
  unfold target_events.
  destruct (STORE_SIZE * Z.of_nat (List.length fq) + STORE_SIZE
            <=? p_size np) eqn:Efit.
  - apply Z.leb_le in Efit.
    eexists. exists fq.
    split; [|split; [|split]].
    + rewrite (write_store_appends area part desc np Hdesc Hpart Hfit Hwr)
        by (first [lia | ulia | (rewrite Hsb; exact Hl)]).
      rewrite length_app. cbn [List.length]. do 3 f_equal. ulia.
    + apply logs_new_events. unfold logs, commit. cbn [nv_log].
      rewrite Hsb. reflexivity.
    + cbn [commit nv_mem replay fold_left]. rewrite Hsb, Hmm. reflexivity.
    + cbn [commit nv_mem]. rewrite Hsb, Hmm, apply_write_mem.
      apply record_chain_append; auto.
      replace (STORE_SIZE * (Z.of_nat (List.length fq) + 1))
        with (STORE_SIZE * Z.of_nat (List.length fq) + STORE_SIZE) by ulia.
      replace (STORE_SIZE * Z.of_nat (List.length fq) + STORE_SIZE)
        with (STORE_SIZE * (Z.of_nat (List.length fq) + 1)) in * by ulia.
      apply roomy_slack; auto; lia.
  - apply Z.leb_gt in Efit.
    eexists. exists [].
    split; [|split; [|split]].
    + rewrite (write_store_erases area part desc np Hdesc Hpart Hfit Hwr)
        by (first [ulia | (rewrite Hsb; exact Hl)
                  | (unfold UINT32_MAX; ulia)]).
      cbn [app List.length]. do 3 f_equal.
    + apply logs_new_events. unfold logs, commit. cbn [nv_log].
      rewrite Hsb, <- app_assoc. reflexivity.
    + cbn [commit nv_mem replay fold_left]. rewrite Hsb, Hmm. reflexivity.
    + cbn [commit nv_mem]. rewrite Hsb, Hmm, apply_write_mem, apply_erase_mem.
      replace base with (base + STORE_SIZE * Z.of_nat (@List.length (list Z) []))
        at 2 by (cbn [List.length]; ulia).
      apply record_chain_append;
        [apply record_chain_erased; ulia | exact Hf | exact Hfb
        | cbn [List.length]; ulia].
Qed.

Hypothesis Htear : tear_detected crc_ccitt f = true.
Hypothesis Hvalid : check_store_integrity (decode f) = 1.

Lemma tear_detected_at t :
  (6 <= t <= 41)%nat ->
  torn_frame t f = f \/ check_store_integrity (decode (torn_frame t f)) = 0.
Proof.
  intros Ht. pose proof (header_ok_length _ Hf) as Hl.
  destruct (Nat.eq_dec t 41) as [->|Hne].
  - left. rewrite <- Hl. apply torn_frame_all.
  - unfold tear_detected in Htear. rewrite forallb_forall in Htear.
    specialize (Htear t ltac:(apply in_seq; lia)).
    apply orb_true_iff in Htear. destruct Htear as [H|H].
    + left. now apply same_bytes_eq.
    + right. now apply Z.eqb_eq.
Qed.

(** A partition whose first word is blank is reported as empty, whatever
    lies behind that word. *)
Lemma find_latest_blank_head st fuel store :
  erased (nv_mem st (dev_id d)) base (base + 4) ->
  (1 < fuel)%nat ->
  find_latest_valid_store fuel st area part store = Some (1, store, 0).
Proof.
  intros He Hfuel. pose proof Hroom as (Hr1 & _).
  unfold find_latest_valid_store. rewrite Hpart.
  change (0 <? 0) with false. cbv iota.
  destruct fuel as [|fuel]; [lia|]. cbn [find_loop].
  destruct (p_size np >? 0) eqn:E;
    [|rewrite Z.gtb_ltb in E; apply Z.ltb_ge in E; ulia].
  unfold parse_partition.
  rewrite (parse_walk_erased area part desc np Hdesc Hpart Hfit fuel st
             (p_size np) 0 0 0);
    [reflexivity | lia | ulia | ulia |].
  intros x Hx. apply He. lia.
Qed.

(** A partition that lost one to three bytes of its first magic word is
    reported as corrupt. *)
Lemma find_latest_nibbled st fuel store z f0 rest :
  fq = f0 :: rest -> 1 <= z <= 3 ->
  nv_mem st (dev_id d) = mem_fill m base z ->
  (2 <= fuel)%nat ->
  find_latest_valid_store fuel st area part store = Some (0, store, 0).
Proof.
  intros Hfq Hz Hm Hfuel. pose proof Hroom as (Hr1 & _).
  pose proof Hrc as (Hok & Hch & _ & _). rewrite Hfq in Hok, Hch.
  inversion Hok as [|? ? Hf0 _]; subst. destruct Hch as [Hh _].
  destruct (header_ok_shape _ Hf0) as (c0 & c1 & r & Hshape & Hr).
  assert (Hhb : mem_bytes (nv_mem st (dev_id d)) base 6
                = repeat 255 (Z.to_nat z)
                  ++ skipn (Z.to_nat z) [79; 80; 78; 88; 41; 0]).
  { rewrite Hm. rewrite Hshape in Hh.
    assert (Hb : forall i, (i < 6)%nat ->
              m (base + Z.of_nat i)
              = nth i [79; 80; 78; 88; 41; 0] 0).
    { intros i Hi. rewrite (holds_nth _ _ _ i Hh) by (cbn [List.length]; lia).
      do 6 (destruct i as [|i]; [reflexivity|]). lia. }
    assert (Hc : z = 1 \/ z = 2 \/ z = 3) by lia.
    unfold mem_bytes. cbn [seq map].
    destruct Hc as [-> | [-> | ->]];
      repeat (rewrite mem_fill_inside by lia);
      rewrite !mem_fill_outside by lia;
      rewrite !Hb by lia; reflexivity. }
  apply (find_latest_bad_header area part desc np Hdesc Hpart Hfit st []
           fuel (mem_bytes (nv_mem st (dev_id d)) base 6)).
  - constructor.
  - exact I.
  - cbn [List.length]. ulia.
  - cbn [List.length]. f_equal. ulia.
  - left. rewrite Hhb.
    assert (Hc : z = 1 \/ z = 2 \/ z = 3) by lia.
    destruct Hc as [-> | [-> | ->]]; split; vm_compute; discriminate.
  - cbn [List.length]. lia.
Qed.

(** What a scan of the target finds after the power loss: the records as
    they were, an empty partition, a corrupt partition, or the new record
    behind some records. *)
Lemma scan_after_cut e b st fuel :
  nv_mem st (dev_id d)
  = replay (power_cut e b target) mm (dev_id d) ->
  (Z.to_nat (p_size np) < fuel)%nat ->
  record_chain (nv_mem st (dev_id d)) desc np fq \/
  (exists x y,
     find_latest_valid_store fuel st area part zero_store = Some (1, x, y)) \/
  (exists x y,
     find_latest_valid_store fuel st area part zero_store = Some (0, x, y)) \/
  (exists g, record_chain (nv_mem st (dev_id d)) desc np (g ++ [f])).
Proof.
  intros Hm Hfuel. pose proof (header_ok_length _ Hf) as Hl.
  assert (Hfne : f <> []) by (destruct f; [discriminate|congruence]).
  pose proof Hroom as (Hr1 & Hr2 & Hr3).
  pose proof Hrc as (Hok & Hch & He & Hsz).
  assert (Hn : (List.length fq + 2 <= fuel)%nat) by ulia.
  (* a write of [t] bytes behind the records [g] of memory [m0] *)
  assert (Hwrite : forall m0 g t,
    record_chain m0 desc np g ->
    STORE_SIZE * (Z.of_nat (List.length g) + 1) <= p_size np ->
    (1 <= t <= 41)%nat ->
    nv_mem st (dev_id d)
    = mem_store (bit_clear d) m0
        (base + STORE_SIZE * Z.of_nat (List.length g)) (firstn t f) ->
    (exists x y,
       find_latest_valid_store fuel st area part zero_store
       = Some (0, x, y)) \/
    (exists g', record_chain (nv_mem st (dev_id d)) desc np (g' ++ [f]))).
  { intros m0 g t Hg Hfits Ht Hst.
    assert (Hslack : STORE_SIZE * (Z.of_nat (List.length g) + 1) + 6
                     <= p_size np) by (apply roomy_slack; auto; lia).
    destruct (Nat.le_gt_cases t 5) as [Hsmall|Hbig].
    - left. exists zero_store, 0.
      apply (find_latest_torn_header area part desc np Hdesc Hpart Hfit
               (bit_clear d) st m0 g f t); auto; try lia. ulia.
    - pose proof (record_chain_torn (bit_clear d) m0 desc np g f t Hg Hf Hfb
                    ltac:(lia) Hslack) as Htorn.
      rewrite <- Hst in Htorn.
      destruct (tear_detected_at t ltac:(lia)) as [Heq|Hbad].
      + right. exists g. rewrite Heq in Htorn. exact Htorn.
      + left. do 2 eexists.
        apply (find_latest_corrupt area part desc np Hdesc Hpart Hfit st g
                 (torn_frame t f));
          try apply Htorn; auto. }
  unfold target_events in Hm.
  destruct (STORE_SIZE * Z.of_nat (List.length fq) + STORE_SIZE
            <=? p_size np) eqn:Efit.
  - apply Z.leb_le in Efit.
    destruct (power_cut_single e b d
                (base + STORE_SIZE * Z.of_nat (List.length fq)) f Hfne)
      as [Hc | (t & Ht & Hc)]; rewrite Hc in Hm.
    + left. cbn in Hm. rewrite Hm. exact Hrc.
    + right. right. cbn [replay fold_left] in Hm.
      rewrite apply_write_mem in Hm.
      apply (Hwrite m fq t); [exact Hrc | ulia | lia | exact Hm].
  - apply Z.leb_gt in Efit.
    destruct (power_cut_pair e b d base (p_size np) base f Hfne
                ltac:(ulia))
      as [Hc | [(z & Hz & Hc) | (t & Ht & Hc)]]; rewrite Hc in Hm.
    + left. cbn in Hm. rewrite Hm. exact Hrc.
    + cbn [replay fold_left] in Hm. rewrite apply_erase_mem in Hm.
      destruct (Z_le_dec 4 z) as [Hz4|Hz4].
      * right. left. exists zero_store, 0.
        apply find_latest_blank_head; [|lia].
        intros x Hx. rewrite Hm. apply mem_fill_inside. lia.
      * right. right. left. exists zero_store, 0.
        assert (Hne : exists f0 rest, fq = f0 :: rest).
        { clear - Efit Hr1. destruct fq as [|f0 rest]; [|eauto].
          cbn [List.length] in Efit. ulia. }
        destruct Hne as (f0 & rest & Hfq).
        apply (find_latest_nibbled st fuel zero_store z f0 rest);
          [exact Hfq | lia | exact Hm | lia].
    + right. right. cbn [replay fold_left] in Hm.
      rewrite apply_write_mem in Hm.
      rewrite apply_erase_mem in Hm.
      apply (Hwrite (mem_fill m base (p_size np)) [] t);
        cbn [List.length]; try lia; try ulia.
      * apply record_chain_erased. ulia.
      * rewrite Hm. f_equal. ulia.
Qed.

End Target.

(** ** What a load finds *)

(** A scan of a sound partition finds its last record. *)
Lemma scan_tip st area part desc np frames k p fuel :
  nvm_getDesc tab (to_u32 area) = Some desc ->
  nvm_getPart tab (to_u32 area) (to_u32 part) = (0, np) ->
  part_fits desc np ->
  record_chain (nv_mem st (dev_id (dev desc))) desc np frames ->
  tip crc_ccitt k p frames ->
  (Z.to_nat (p_size np) < fuel)%nat ->
  exists r x o,
    find_latest_valid_store fuel st area part zero_store = Some (r, x, o) /\
    ((k <= 0 /\ r = 1) \/ (1 <= k /\ r = 3 /\ x = store_of crc_ccitt k p)).
Proof.
  intros Hdesc Hpart Hfit Hrc Htip Hfuel.
  assert (Hlay : part_layout tab st area part frames)
    by (exists desc, np; auto).
  pose proof Hrc as (_ & _ & _ & Hsz).
  unfold tip in Htip. destruct (k <=? 0) eqn:Ek.
  - apply Z.leb_le in Ek. subst frames.
    exists 1, zero_store, 0. split; [|left; auto].
    apply scan_empty; auto. cbn [List.length] in Hsz. ulia.
  - apply Z.leb_gt in Ek. destruct Htip as (pre & ->).
    do 3 eexists. split.
    + apply scan_valid; [exact Hlay | apply frame_of_valid |].
      rewrite length_app in Hsz. cbn [List.length] in Hsz. ulia.
    + right. split; [lia|]. split; [reflexivity|]. apply decode_frame_of.
Qed.

Lemma default_store_settings :
  settings (snd default_settings_store) = settings_image default_settings.
Proof. reflexivity. Qed.

Lemma store_of_settings c p :
  settings (store_of crc_ccitt c p) = settings_image p.
Proof. reflexivity. Qed.

(** The choice of [settings_storage_load] between the record of counter [c]
    and an older, missing or corrupt one. *)
Lemma choice_old c cur prev rP xP rQ xQ :
  0 <= c <= 65535 ->
  (c <= 0 /\ rP = 1) \/ (1 <= c /\ rP = 3 /\ xP = store_of crc_ccitt c cur) ->
  rQ = 0 \/ rQ = 1 \/
  (rQ = 3 /\ xQ = store_of crc_ccitt (c - 1) prev /\ 2 <= c) ->
  settings (load_choice crc_ccitt rP xP rQ xQ)
  = (if c <=? 0 then settings_image default_settings else settings_image cur)
  /\
  settings (load_choice crc_ccitt rQ xQ rP xP)
  = (if c <=? 0 then settings_image default_settings else settings_image cur).
Proof.
  intros Hc HP HQ. unfold load_choice.
  destruct HP as [(Hk & ->) | (Hk & -> & ->)].
  - replace (c <=? 0) with true by (symmetry; apply Z.leb_le; lia).
    destruct HQ as [-> | [-> | (-> & -> & Hk2)]]; [| |lia];
      cbn [Z.eqb Pos.eqb]; auto.
  - replace (c <=? 0) with false by (symmetry; apply Z.leb_gt; lia).
    destruct HQ as [-> | [-> | (-> & -> & Hk2)]];
      cbn [Z.eqb Pos.eqb]; auto.
    rewrite !store_of_counter by lia.
    replace (c >=? c - 1) with true by (symmetry; apply Z.geb_le; lia).
    replace (c - 1 >=? c) with false
      by (symmetry; rewrite Z.geb_leb; apply Z.leb_gt; lia).
    auto.
Qed.

(** The choice between the record of counter [c] and the one written after
    it. *)
Lemma choice_new c cur S rP xP :
  0 <= c -> c + 1 <= 65535 ->
  (c <= 0 /\ rP = 1) \/ (1 <= c /\ rP = 3 /\ xP = store_of crc_ccitt c cur) ->
  settings (load_choice crc_ccitt rP xP 3 (store_of crc_ccitt (c + 1) S))
  = settings_image S /\
  settings (load_choice crc_ccitt 3 (store_of crc_ccitt (c + 1) S) rP xP)
  = settings_image S.
Proof.
  intros Hc Hc1 HP. unfold load_choice.
  destruct HP as [(Hk & ->) | (Hk & -> & ->)]; cbn [Z.eqb Pos.eqb]; auto.
  rewrite !store_of_counter by lia.
  replace (c + 1 >=? c) with true by (symmetry; apply Z.geb_le; lia).
  replace (c >=? c + 1) with false
    by (symmetry; rewrite Z.geb_leb; apply Z.leb_gt; lia).
  auto.
Qed.

Section Pair.

(** Partition [P] holds the latest record, [Q] is the target of the next
    write. *)
Variables (area partP partQ : Z) (desc : nvmDescriptor)
  (npP npQ : nvmPartition).
Hypothesis Hdesc : nvm_getDesc tab (to_u32 area) = Some desc.
Hypothesis HpartP : nvm_getPart tab (to_u32 area) (to_u32 partP) = (0, npP).
Hypothesis HpartQ : nvm_getPart tab (to_u32 area) (to_u32 partQ) = (0, npQ).
Hypothesis HfitP : part_fits desc npP.
Hypothesis HfitQ : part_fits desc npQ.
Hypothesis HroomQ : part_roomy npQ.
Hypothesis Hapart : parts_apart npP npQ.

Variables (c : Z) (cur prev S : settings_t) (fp fq : list (list Z)).
Hypothesis Hc0 : 0 <= c.
Hypothesis Hc1 : c + 1 <= 65535.
Hypothesis HtipP : tip crc_ccitt c cur fp.
Hypothesis HtipQ : tip crc_ccitt (c - 1) prev fq.

Local Abbreviation id := (dev_id (dev desc)).
Local Abbreviation kept :=
  (if c <=? 0 then settings_image default_settings else settings_image cur).
Local Abbreviation scanP fuel st :=
  (find_latest_valid_store fuel st area partP zero_store).
Local Abbreviation scanQ fuel st :=
  (find_latest_valid_store fuel st area partQ zero_store).

(** The scans of a sound store lead [settings_storage_load] to the latest
    record, whichever of the two partitions is its partition A. *)
Lemma old_scans st fuel :
  record_chain (nv_mem st id) desc npP fp ->
  record_chain (nv_mem st id) desc npQ fq ->
  (Z.to_nat (p_size npP) < fuel)%nat -> (Z.to_nat (p_size npQ) < fuel)%nat ->
  exists rP xP oP rQ xQ oQ,
    scanP fuel st = Some (rP, xP, oP) /\ scanQ fuel st = Some (rQ, xQ, oQ) /\
    (rP = 0 \/ rP = 1 \/ rP = 3) /\ (rQ = 0 \/ rQ = 1 \/ rQ = 3) /\
    settings (load_choice crc_ccitt rP xP rQ xQ) = kept /\
    settings (load_choice crc_ccitt rQ xQ rP xP) = kept.
Proof.
  intros HrcP HrcQ HfP HfQ.
  destruct (scan_tip st area partP desc npP fp c cur fuel
              Hdesc HpartP HfitP HrcP HtipP HfP) as (rP & xP & oP & EP & HP).
  destruct (scan_tip st area partQ desc npQ fq (c - 1) prev fuel
              Hdesc HpartQ HfitQ HrcQ HtipQ HfQ) as (rQ & xQ & oQ & EQ & HQ).
  exists rP, xP, oP, rQ, xQ, oQ.
  split; [exact EP|]. split; [exact EQ|].
  split; [destruct HP as [(_ & ->) | (_ & -> & _)]; auto|].
  split; [destruct HQ as [(_ & ->) | (_ & -> & _)]; auto|].
  apply (choice_old c cur prev); [lia | exact HP |].
  destruct HQ as [(_ & ->) | (Hk & -> & ->)]; auto.
  right. right. repeat split; auto. lia.
Qed.

(** After a power loss during the write of the record of counter [c + 1]
    the scans lead [settings_storage_load] to the latest record or to the
    new one. *)
Lemma cut_scans mm st e b fuel :
  record_chain (mm id) desc npP fp ->
  record_chain (mm id) desc npQ fq ->
  tear_detected crc_ccitt (frame_of crc_ccitt (c + 1) S) = true ->
  nv_mem st
  = replay (power_cut e b
              (target_events desc npQ fq (frame_of crc_ccitt (c + 1) S))) mm ->
  (Z.to_nat (p_size npP) < fuel)%nat -> (Z.to_nat (p_size npQ) < fuel)%nat ->
  exists rP xP oP rQ xQ oQ,
    scanP fuel st = Some (rP, xP, oP) /\ scanQ fuel st = Some (rQ, xQ, oQ) /\
    (rP = 0 \/ rP = 1 \/ rP = 3) /\ (rQ = 0 \/ rQ = 1 \/ rQ = 3) /\
    ((settings (load_choice crc_ccitt rP xP rQ xQ) = kept /\
      settings (load_choice crc_ccitt rQ xQ rP xP) = kept) \/
     (settings (load_choice crc_ccitt rP xP rQ xQ) = settings_image S /\
      settings (load_choice crc_ccitt rQ xQ rP xP) = settings_image S)).
Proof.
  intros HrcP HrcQ Htear Hst HfP HfQ.
  set (f := frame_of crc_ccitt (c + 1) S) in *.
  assert (Hf : header_ok f = true) by apply frame_of_header_ok.
  assert (Hfb : Forall is_byte f) by apply frame_of_bytes.
  assert (Hval : check_store_integrity (decode f) = 1)
    by apply frame_of_valid.
  assert (HrcP' : record_chain (nv_mem st id) desc npP fp).
  { apply (record_chain_ext (mm id)); [|exact HrcP].
    intros x Hx. rewrite Hst.
    apply cut_outside; try assumption.
    destruct HfitP as (? & ? & ? & _). destruct HfitQ as (? & ? & ? & _).
    unfold part_base in *. destruct Hapart; lia. }
  destruct (scan_tip st area partP desc npP fp c cur fuel
              Hdesc HpartP HfitP HrcP' HtipP HfP) as (rP & xP & oP & EP & HP).
  assert (HrP : rP = 0 \/ rP = 1 \/ rP = 3)
    by (destruct HP as [(_ & ->) | (_ & -> & _)]; auto).
  assert (Hlay : forall frames,
            record_chain (nv_mem st id) desc npQ frames ->
            part_layout tab st area partQ frames)
    by (intros frames H; exists desc, npQ; auto).
  destruct (scan_after_cut area partQ desc npQ Hdesc HpartQ HfitQ HroomQ
              mm fq f HrcQ Hf Hfb Htear Hval e b st fuel
              ltac:(now rewrite Hst) HfQ)
    as [Hold | [(x & y & Hwiped) | [(x & y & Hbad) | (g & Hnew)]]].
  - destruct (scan_tip st area partQ desc npQ fq (c - 1) prev fuel
                Hdesc HpartQ HfitQ Hold HtipQ HfQ)
      as (rQ & xQ & oQ & EQ & HQ).
    exists rP, xP, oP, rQ, xQ, oQ.
    split; [exact EP|]. split; [exact EQ|]. split; [exact HrP|].
    split; [destruct HQ as [(_ & ->) | (_ & -> & _)]; auto|].
    left. apply (choice_old c cur prev); [lia | exact HP |].
    destruct HQ as [(_ & ->) | (Hk & -> & ->)]; auto.
    right. right. repeat split; auto. lia.
  - exists rP, xP, oP, 1, x, y.
    split; [exact EP|]. split; [exact Hwiped|].
    split; [exact HrP|]. split; [auto|].
    left. apply (choice_old c cur prev); [lia | exact HP | auto].
  - exists rP, xP, oP, 0, x, y.
    split; [exact EP|]. split; [exact Hbad|].
    split; [exact HrP|]. split; [auto|].
    left. apply (choice_old c cur prev); [lia | exact HP | auto].
  - exists rP, xP, oP, 3, (decode f),
      (STORE_SIZE * (Z.of_nat (List.length g) + 1)).
    split; [exact EP|]. split.
    { apply scan_valid; [apply Hlay; exact Hnew | exact Hval |].
      destruct Hnew as (_ & _ & _ & Hsz).
      rewrite length_app in Hsz. cbn [List.length] in Hsz. ulia. }
    split; [exact HrP|]. split; [auto|].
    right. unfold f. rewrite decode_frame_of.
    apply (choice_new c cur); auto.
Qed.

End Pair.

(** ** Saves on a sound store *)

Lemma power_cut_all b evs : power_cut (List.length evs) b evs = evs.
Proof.
  unfold power_cut. rewrite firstn_all.
  replace (nth_error evs (List.length evs)) with (@None nvm_event)
    by (symmetry; apply nth_error_None; lia).
  apply app_nil_r.
Qed.

Lemma power_cut_nil e b : power_cut e b [] = [].
Proof. unfold power_cut. rewrite firstn_nil. now destruct e. Qed.

Lemma parts_apart_sym npa npb : parts_apart npa npb -> parts_apart npb npa.
Proof. unfold parts_apart. tauto. Qed.

(** A write to one partition keeps the records of the other. *)
Lemma write_keeps_other desc npP npQ mm fp fq f :
  part_roomy npQ -> part_fits desc npP -> part_fits desc npQ ->
  parts_apart npP npQ -> header_ok f = true -> Forall is_byte f ->
  record_chain (mm (dev_id (dev desc))) desc npP fp ->
  record_chain (replay (target_events desc npQ fq f) mm (dev_id (dev desc)))
    desc npP fp.
Proof.
  intros Hroom HfitP HfitQ Hapart Hf Hfb Hrc.
  apply (record_chain_ext (mm (dev_id (dev desc)))); [|exact Hrc].
  intros x Hx.
  rewrite <- (power_cut_all 0 (target_events desc npQ fq f)) at 1.
  apply cut_outside; try assumption.
  destruct HfitP as (? & ? & ? & _). destruct HfitQ as (? & ? & ? & _).
  unfold part_base in *. destruct Hapart; lia.
Qed.

Lemma new_events_same st : new_events st st = [].
Proof. unfold new_events. apply skipn_all. Qed.

Section Durability.

Variables (area pa pb : Z) (desc : nvmDescriptor) (npa npb : nvmPartition).
Hypothesis Hdesc : nvm_getDesc tab (to_u32 area) = Some desc.
Hypothesis HpA : nvm_getPart tab (to_u32 area) (to_u32 pa) = (0, npa).
Hypothesis HpB : nvm_getPart tab (to_u32 area) (to_u32 pb) = (0, npb).
Hypothesis HfitA : part_fits desc npa.
Hypothesis HfitB : part_fits desc npb.
Hypothesis HwrA : part_writable desc npa.
Hypothesis HwrB : part_writable desc npb.
Hypothesis HroomA : part_roomy npa.
Hypothesis HroomB : part_roomy npb.
Hypothesis Hapart : parts_apart npa npb.

Local Abbreviation id := (dev_id (dev desc)).
Local Abbreviation Inv := (durable_inv crc_ccitt desc npa npb area pa pb).

(** One save on a sound store returns 0 and leaves a sound store: without a
    write when the payload is the cached one, else with the record of the
    next counter written to the partition that its parity selects. *)
Lemma save_step fuel st s S c img :
  Inv s (nv_mem st id) c img -> c + 1 <= 65535 ->
  exists s' st',
    settings_storage_save fuel st s S = Some (0, s', st') /\
    ((img = settings_image S /\ new_events st st' = [] /\
      nv_mem st' = nv_mem st /\ Inv s' (nv_mem st' id) c img) \/
     (exists fa fb cur prev,
        record_chain (nv_mem st id) desc npa fa /\
        record_chain (nv_mem st id) desc npb fb /\
        settings_image cur = img /\
        (c = 0 -> img = settings_image default_settings) /\
        tip crc_ccitt c cur (if odd_counter c then fb else fa) /\
        tip crc_ccitt (c - 1) prev (if odd_counter c then fa else fb) /\
        latest_store s' = store_of crc_ccitt (c + 1) S /\
        new_events st st'
        = (if odd_counter c
           then target_events desc npa fa (frame_of crc_ccitt (c + 1) S)
           else target_events desc npb fb (frame_of crc_ccitt (c + 1) S)) /\
        Inv s' (nv_mem st' id) (c + 1) (settings_image S))).
Proof.
  intros (fa & fb & cur & prev & HrcA & HrcB & Hdev & HA & HB & HoA & HoB &
          HsA & HsB & Hc & Himg & Hlat & Hwn & Hzero & Htc & Htp) Hc1.
  unfold settings_storage_save.
  rewrite Hlat. rewrite store_of_settings, Himg.
  destruct (negb (memcmp img (settings_image S) =? 0) || write_needed s)
    eqn:Edirty.
  - assert (Hup : update_settings_store S (store_of crc_ccitt c cur)
                 = (0, store_of crc_ccitt (c + 1) S)).
    { rewrite <- (update_store_of c cur S) by lia. reflexivity. }
    rewrite Hup.
    cbn [set_latest write_needed latest_store s_dev part_A part_B
         part_A_offset part_B_offset part_A_status part_B_status initialized].
    rewrite store_of_counter by lia.
    rewrite Hdev, HA, HB, HoA, HoB.
    replace (part_A_status s =? -1) with false
      by (symmetry; apply Z.eqb_neq; exact HsA).
    replace (part_B_status s =? -1) with false
      by (symmetry; apply Z.eqb_neq; exact HsB).
    fold (odd_counter (c + 1)). rewrite odd_counter_next by lia.
    destruct (odd_counter c) eqn:Eodd; cbn [negb].
    + destruct (write_store_target area pa desc npa Hdesc HpA HfitA HroomA
                  (nv_mem st) fa (frame_of crc_ccitt (c + 1) S) HrcA
                  (frame_of_header_ok _ _) (frame_of_bytes _ _) HwrA fuel st
                  (store_of crc_ccitt (c + 1) S) eq_refl eq_refl)
        as (st' & g & Hw & Hev & Hmem & Hrc').
      rewrite Hw. cbn [Z.ltb Z.compare].
      do 2 eexists. split; [reflexivity|]. right.
      exists fa, fb, cur, prev.
      split; [exact HrcA|]. split; [exact HrcB|]. split; [exact Himg|].
      split; [exact Hzero|]. split; [exact Htc|]. split; [exact Htp|].
      split; [reflexivity|]. split; [exact Hev|].
      exists (g ++ [frame_of crc_ccitt (c + 1) S]), fb, S, cur.
      cbn [set_latest set_part_A set_part_B write_needed latest_store s_dev
           part_A part_B part_A_offset part_B_offset part_A_status
           part_B_status initialized].
      rewrite odd_counter_next by lia. rewrite Eodd. cbn [negb].
      replace (c + 1 - 1) with c by lia.
      assert (Hother : record_chain (nv_mem st' id) desc npb fb)
        by (rewrite Hmem; apply write_keeps_other;
            auto using parts_apart_sym, frame_of_header_ok, frame_of_bytes).
      assert (Htip : tip crc_ccitt (c + 1) S
                       (g ++ [frame_of crc_ccitt (c + 1) S])).
      { unfold tip. replace (c + 1 <=? 0) with false
          by (symmetry; apply Z.leb_gt; lia).
        now exists g. }
      repeat match goal with |- _ /\ _ => split end;
        try assumption; try reflexivity; try lia; try discriminate.
    + destruct (write_store_target area pb desc npb Hdesc HpB HfitB HroomB
                  (nv_mem st) fb (frame_of crc_ccitt (c + 1) S) HrcB
                  (frame_of_header_ok _ _) (frame_of_bytes _ _) HwrB fuel st
                  (store_of crc_ccitt (c + 1) S) eq_refl eq_refl)
        as (st' & g & Hw & Hev & Hmem & Hrc').
      rewrite Hw. cbn [Z.ltb Z.compare].
      do 2 eexists. split; [reflexivity|]. right.
      exists fa, fb, cur, prev.
      split; [exact HrcA|]. split; [exact HrcB|]. split; [exact Himg|].
      split; [exact Hzero|]. split; [exact Htc|]. split; [exact Htp|].
      split; [reflexivity|]. split; [exact Hev|].
      exists fa, (g ++ [frame_of crc_ccitt (c + 1) S]), S, cur.
      cbn [set_latest set_part_A set_part_B write_needed latest_store s_dev
           part_A part_B part_A_offset part_B_offset part_A_status
           part_B_status initialized].
      rewrite odd_counter_next by lia. rewrite Eodd. cbn [negb].
      replace (c + 1 - 1) with c by lia.
      assert (Hother : record_chain (nv_mem st' id) desc npa fa)
        by (rewrite Hmem; apply write_keeps_other;
            auto using parts_apart_sym, frame_of_header_ok, frame_of_bytes).
      assert (Htip : tip crc_ccitt (c + 1) S
                       (g ++ [frame_of crc_ccitt (c + 1) S])).
      { unfold tip. replace (c + 1 <=? 0) with false
          by (symmetry; apply Z.leb_gt; lia).
        now exists g. }
      repeat match goal with |- _ /\ _ => split end;
        try assumption; try reflexivity; try lia; try discriminate.
  - apply orb_false_iff in Edirty. destruct Edirty as (Ecmp & Ewn).
    apply negb_false_iff, Z.eqb_eq in Ecmp. unfold memcmp in Ecmp.
    destruct (same_bytes img (settings_image S)) eqn:Esame; [|discriminate].
    apply same_bytes_eq in Esame.
    rewrite Ewn.
    do 2 eexists. split; [reflexivity|]. left.
    split; [exact Esame|]. split; [apply new_events_same|].
    split; [reflexivity|].
    exists fa, fb, cur, prev.
    cbn [set_latest write_needed latest_store s_dev part_A part_B
         part_A_offset part_B_offset part_A_status part_B_status initialized].
    repeat match goal with |- _ /\ _ => split end;
      try assumption; try reflexivity; try lia.
Qed.

Lemma last_cons_default {A} (l : list A) : forall x d,
  last (x :: l) d = last l x.
Proof.
  induction l as [|y l IH]; intros x d; [reflexivity|].
  change (last (x :: y :: l) d) with (last (y :: l) d).
  rewrite !IH. reflexivity.
Qed.

(** A run of saves on a sound store succeeds and leaves a sound store that
    caches the last payload. *)
Lemma save_seq_sound fuel l : forall st s c img,
  Inv s (nv_mem st id) c img -> c + Z.of_nat (List.length l) <= 65535 ->
  exists tr s' st' c',
    save_seq crc_ccitt tab fuel st s l = Some (tr, s', st') /\
    Inv s' (nv_mem st' id) c' (last (map settings_image l) img) /\
    c <= c' <= c + Z.of_nat (List.length l).
Proof.
  induction l as [|p l IH]; intros st s c img Hinv Hlen.
  - exists [], s, st, c. cbn [save_seq map last List.length].
    split; [reflexivity|]. split; [exact Hinv|]. lia.
  - cbn [List.length] in Hlen.
    destruct (save_step fuel st s p c img Hinv ltac:(lia))
      as (s1 & st1 & Hsave & Hcase).
    assert (Hinv1 : exists c1, Inv s1 (nv_mem st1 id) c1 (settings_image p) /\
                               c <= c1 <= c + 1).
    { destruct Hcase as [(Himg & _ & _ & H) | (fa & fb & cur & prev & H)].
      - exists c. rewrite <- Himg. split; [exact H|lia].
      - exists (c + 1). split; [apply H|lia]. }
    destruct Hinv1 as (c1 & Hinv1 & Hc1).
    destruct (IH st1 s1 c1 (settings_image p) Hinv1 ltac:(lia))
      as (tr & s' & st' & c' & Hrun & Hinv' & Hc').
    cbn [save_seq]. rewrite Hsave. cbn [Z.eqb]. rewrite Hrun.
    do 4 eexists. split; [reflexivity|].
    cbn [map]. rewrite last_cons_default.
    split; [exact Hinv'|]. cbn [List.length]. lia.
Qed.

(** An erased partition holds no records. *)
Lemma erased_record_chain m np :
  part_roomy np ->
  erased m (part_base desc np) (part_base desc np + p_size np) ->
  record_chain m desc np [].
Proof.
  intros (Hr & _) He. unfold record_chain. cbn [List.length chain].
  split; [constructor|]. split; [exact I|]. split; [|ulia].
  intros x Hx. apply He. ulia.
Qed.

(** The handle before the first save, over two erased partitions. *)
Lemma fresh_store_sound m s :
  erased m (part_base desc npa) (part_base desc npa + p_size npa) ->
  erased m (part_base desc npb) (part_base desc npb + p_size npb) ->
  fresh_handle crc_ccitt s area pa pb ->
  Inv s m 0 (settings_image default_settings).
Proof.
  intros HeA HeB (Hdev & HA & HB & Hlat & HoA & HoB & HsA & HsB).
  exists [], [], default_settings, default_settings.
  cbn [List.length]. unfold tip. cbn [odd_counter Z.leb Z.compare Z.sub].
  repeat match goal with |- _ /\ _ => split end;
    try assumption; try reflexivity; try lia;
    try (apply erased_record_chain; assumption).
Qed.

Local Abbreviation fresh :=
  (snd (settings_storage_init zero_storage area pa pb)).

Lemma load_after fuel st buf X rA xA oA rB xB oB :
  find_latest_valid_store fuel st area pa zero_store = Some (rA, xA, oA) ->
  find_latest_valid_store fuel st area pb zero_store = Some (rB, xB, oB) ->
  rA = 0 \/ rA = 1 \/ rA = 3 -> rB = 0 \/ rB = 1 \/ rB = 3 ->
  settings (load_choice crc_ccitt rA xA rB xB) = X ->
  exists s',
    settings_storage_load fuel st fresh buf = Some (0, s', buf) /\
    settings (latest_store s') = X.
Proof.
  intros EA EB HrA HrB HX.
  destruct (load_of_scans fuel st fresh buf rA xA oA rB xB oB
              eq_refl EA EB HrA HrB) as (s' & Hload & Hl).
  exists s'. split; [exact Hload|]. now rewrite Hl.
Qed.

Lemma kept_image c cur img :
  settings_image cur = img ->
  (c = 0 -> img = settings_image default_settings) -> 0 <= c ->
  (if c <=? 0 then settings_image default_settings else settings_image cur)
  = img.
Proof.
  intros Himg Hzero Hc. destruct (c <=? 0) eqn:E; [|exact Himg].
  apply Z.leb_le in E. symmetry. apply Hzero. lia.
Qed.

(** X26.  Two erased partitions that do not overlap, each long
    enough for a record and a header, no longer than 65321 bytes and with at
    least six bytes left behind its last whole record, on a device that
    writes bytes and erases the partition; a fresh handle; fewer than 65535
    payloads [Ss] saved, then the save of [S]; every tear of the record of
    [S] behind its header leaves the whole record or one that fails the
    integrity check.  Then all the saves return 0 and, wherever the stream of
    hardware operations of the last save is cut, [settings_storage_load] on
    a freshly initialised handle returns 0 and caches the payload [S] or the
    payload saved before it (the default settings when [Ss] is empty). *)
Theorem power_loss_durability st0 s0 Ss S fuel :
  erased (nv_mem st0 id) (part_base desc npa)
    (part_base desc npa + p_size npa) ->
  erased (nv_mem st0 id) (part_base desc npb)
    (part_base desc npb + p_size npb) ->
  fresh_handle crc_ccitt s0 area pa pb ->
  Z.of_nat (List.length Ss) < 65535 ->
  (forall k, (1 <= k <= List.length Ss + 1)%nat ->
     tear_detected crc_ccitt (frame_of crc_ccitt (Z.of_nat k) S) = true) ->
  exists tr s1 st1 s2 st2,
    save_seq crc_ccitt tab fuel st0 s0 Ss = Some (tr, s1, st1) /\
    settings_storage_save fuel st1 s1 S = Some (0, s2, st2) /\
    forall e b fuel' buf,
      (Z.to_nat (p_size npa) < fuel')%nat ->
      (Z.to_nat (p_size npb) < fuel')%nat ->
      exists s',
        settings_storage_load fuel'
          (after_power_loss
             (replay (power_cut e b (new_events st1 st2)) (nv_mem st1)))
          fresh buf
        = Some (0, s', buf) /\
        (settings (latest_store s') = settings_image S \/
         settings (latest_store s')
         = last (map settings_image Ss) (settings_image default_settings)).
Proof.
  intros HeA HeB Hfresh Hlen Htear.
  pose proof (fresh_store_sound _ _ HeA HeB Hfresh) as Hinv0.
  destruct (save_seq_sound fuel Ss st0 s0 0 _ Hinv0 ltac:(lia))
    as (tr & s1 & st1 & c & Hrun & Hinv & Hc).
  destruct (save_step fuel st1 s1 S c _ Hinv ltac:(lia))
    as (s2 & st2 & Hsave & Hcase).
  exists tr, s1, st1, s2, st2.
  split; [exact Hrun|]. split; [exact Hsave|].
  intros e b fuel' buf HfA HfB.
  set (img := last (map settings_image Ss) (settings_image default_settings))
    in *.
  destruct Hcase as [(_ & Hev & _ & _) |
    (fa & fb & cur & prev & HrcA & HrcB & Himg & Hzero & Htc & Htp & _ &
     Hev & _)].
  - rewrite Hev, power_cut_nil. cbn [replay fold_left].
    destruct Hinv as (fa & fb & cur & prev & HrcA & HrcB & _ & _ & _ & _ &
                      _ & _ & _ & _ & Himg & _ & _ & Hzero & Htc & Htp).
    pose proof (kept_image c cur img Himg Hzero ltac:(lia)) as Hk.
    destruct (odd_counter c).
    + destruct (old_scans area pb pa desc npb npa Hdesc HpB HpA HfitB HfitA
                  c cur prev fb fa ltac:(lia) ltac:(lia) Htc Htp
                  (after_power_loss (nv_mem st1)) fuel' HrcB HrcA HfB HfA)
        as (rP & xP & oP & rQ & xQ & oQ & EP & EQ & HrP & HrQ & H1 & H2).
      destruct (load_after fuel' _ buf img rQ xQ oQ rP xP oP EQ EP HrQ HrP
                  ltac:(now rewrite H2)) as (s' & Hload & Hs).
      exists s'. split; [exact Hload | right; exact Hs].
    + destruct (old_scans area pa pb desc npa npb Hdesc HpA HpB HfitA HfitB
                  c cur prev fa fb ltac:(lia) ltac:(lia) Htc Htp
                  (after_power_loss (nv_mem st1)) fuel' HrcA HrcB HfA HfB)
        as (rP & xP & oP & rQ & xQ & oQ & EP & EQ & HrP & HrQ & H1 & H2).
      destruct (load_after fuel' _ buf img rP xP oP rQ xQ oQ EP EQ HrP HrQ
                  ltac:(now rewrite H1)) as (s' & Hload & Hs).
      exists s'. split; [exact Hload | right; exact Hs].
  - pose proof (kept_image c cur img Himg Hzero ltac:(lia)) as Hk.
    assert (Ht : tear_detected crc_ccitt (frame_of crc_ccitt (c + 1) S)
                 = true).
    { replace (c + 1) with (Z.of_nat (Z.to_nat (c + 1))) by lia.
      apply Htear. lia. }
    rewrite Hev.
    destruct (odd_counter c).
    + destruct (cut_scans area pb pa desc npb npa Hdesc HpB HpA HfitB HfitA
                  HroomA (parts_apart_sym _ _ Hapart)
                  c cur prev S fb fa ltac:(lia) ltac:(lia) Htc Htp
                  (nv_mem st1) (after_power_loss _) e b fuel'
                  HrcB HrcA Ht eq_refl HfB HfA)
        as (rP & xP & oP & rQ & xQ & oQ & EP & EQ & HrP & HrQ & Hsel).
      destruct Hsel as [(H1 & H2) | (H1 & H2)].
      * destruct (load_after fuel' _ buf img rQ xQ oQ rP xP oP EQ EP HrQ HrP
                    ltac:(now rewrite H2)) as (s' & Hload & Hs).
        exists s'. split; [exact Hload | right; exact Hs].
      * destruct (load_after fuel' _ buf _ rQ xQ oQ rP xP oP EQ EP HrQ HrP
                    H2) as (s' & Hload & Hs).
        exists s'. split; [exact Hload | left; exact Hs].
    + destruct (cut_scans area pa pb desc npa npb Hdesc HpA HpB HfitA HfitB
                  HroomB Hapart
                  c cur prev S fa fb ltac:(lia) ltac:(lia) Htc Htp
                  (nv_mem st1) (after_power_loss _) e b fuel'
                  HrcA HrcB Ht eq_refl HfA HfB)
        as (rP & xP & oP & rQ & xQ & oQ & EP & EQ & HrP & HrQ & Hsel).
      destruct Hsel as [(H1 & H2) | (H1 & H2)].
      * destruct (load_after fuel' _ buf img rP xP oP rQ xQ oQ EP EQ HrP HrQ
                    ltac:(now rewrite H1)) as (s' & Hload & Hs).
        exists s'. split; [exact Hload | right; exact Hs].
      * destruct (load_after fuel' _ buf _ rP xP oP rQ xQ oQ EP EQ HrP HrQ
                    H1) as (s' & Hload & Hs).
        exists s'. split; [exact Hload | left; exact Hs].
Qed.

End Durability.

(** ** Where a save writes *)

Section AccessOk.

Variables (idx part : Z) (desc : nvmDescriptor) (np : nvmPartition).
Hypothesis Hdesc : nvm_getDesc tab idx = Some desc.
Hypothesis Hpart : nvm_getPart tab idx part = (0, np).
Hypothesis Hfit : part_fits desc np.

Local Abbreviation base := (part_base desc np).

(** A request that passes the bounds check without wrapping reaches the
    device at the partition's base plus the offset. *)
Lemma nvm_write_ok st o data st' :
  0 <= o -> o + Z.of_nat (List.length data) <= UINT32_MAX ->
  nvm_write tab st idx part o data = (0, st') ->
  o + Z.of_nat (List.length data) <= p_size np /\
  st' = commit (EvWrite (dev desc) (base + o) data) st.
Proof.
  intros Ho Hmax H. destruct Hfit as (Hb & Hpo & Hps & Hdev & Hdmax).
  unfold nvm_write in H. rewrite Hpart in H. cbn [Z.ltb Z.compare] in H.
  rewrite to_size_small in H by lia.
  destruct (o + Z.of_nat (List.length data) >? p_size np) eqn:E;
    [inv H|].
  rewrite Z.gtb_ltb in E. apply Z.ltb_ge in E.
  split; [exact E|].
  rewrite Hdesc in H.
  rewrite (to_u32_small (o + p_offset np)) in H by lia.
  rewrite to_u32_small in H by lia.
  apply nvm_devWrite_log in H. destruct H as [(Hneg & _) | (_ & ->)]; [lia|].
  unfold part_base. f_equal. f_equal. lia.
Qed.

Lemma nvm_erase_ok st o sz st' :
  0 <= o -> 0 <= sz -> o + sz <= UINT32_MAX ->
  nvm_erase tab st idx part o sz = (0, st') ->
  o + sz <= p_size np /\
  st' = commit (EvErase (dev desc) (base + o) sz) st.
Proof.
  intros Ho Hsz Hmax H. destruct Hfit as (Hb & Hpo & Hps & Hdev & Hdmax).
  unfold nvm_erase in H. rewrite Hpart in H. cbn [Z.ltb Z.compare] in H.
  rewrite to_size_small in H by lia.
  destruct (o + sz >? p_size np) eqn:E; [inv H|].
  rewrite Z.gtb_ltb in E. apply Z.ltb_ge in E.
  split; [exact E|].
  rewrite Hdesc in H.
  rewrite (to_u32_small (o + p_offset np)) in H by lia.
  rewrite to_u32_small in H by lia.
  apply nvm_devErase_log in H. destruct H as [(Hneg & _) | (_ & ->)]; [lia|].
  unfold part_base. f_equal. f_equal. lia.
Qed.

End AccessOk.

Lemma upd_mem_other mm i j m : i <> j -> upd_mem mm j m i = mm i.
Proof.
  intros H. unfold upd_mem.
  destruct (Nat.eqb i j) eqn:E; [apply Nat.eqb_eq in E; contradiction|].
  reflexivity.
Qed.






Section Confined.

Variables (area part : Z) (desc : nvmDescriptor) (np : nvmPartition).
Hypothesis Hdesc : nvm_getDesc tab (to_u32 area) = Some desc.
Hypothesis Hpart : nvm_getPart tab (to_u32 area) (to_u32 part) = (0, np).
Hypothesis Hfit : part_fits desc np.
Hypothesis Hend : p_size np + 2 * STORE_SIZE <= UINT32_MAX.

Local Abbreviation base := (part_base desc np).






End Confined.





(** ** The offsets that a load leaves *)

Lemma nvm_read_bytes st idx part o l r data :
  byte_memory st ->
  nvm_read tab st idx part o l = (r, data) -> Forall is_byte data.
Proof.
  intros Hm H. unfold nvm_read in H.
  destruct (nvm_getPart tab idx part) as [r0 np0].
  destruct (r0 <? 0); [inv H; constructor|].
  destruct (to_size (o + l) >? p_size np0); [inv H; constructor|].
  destruct (nvm_getDesc tab idx) as [nvm|]; [|inv H; constructor].
  unfold nvm_devRead, ops_read_hook in H.
  match type of H with
  | (if ?c then _ else _) = _ => destruct c
  end; inv H; [|constructor].
  apply Forall_forall. intros b Hb. apply in_map_iff in Hb.
  destruct Hb as (x & <- & _). apply Hm.
Qed.

Lemma rd16_bytes l : Forall is_byte l -> 0 <= rd16 l <= 65535.
Proof.
  intros H. unfold rd16.
  assert (Hn : forall i, is_byte (nth i l 0)).
  { intros i. destruct (Nat.lt_ge_cases i (List.length l)) as [Hi|Hi].
    - rewrite Forall_forall in H. apply H, nth_In, Hi.
    - rewrite nth_overflow by exact Hi. unfold is_byte. lia. }
  pose proof (Hn 0%nat) as H0. pose proof (Hn 1%nat) as H1.
  unfold is_byte in *. lia.
Qed.

Lemma Forall_skipn_bytes n l :
  Forall is_byte l -> Forall is_byte (skipn n l).
Proof.
  intros H. rewrite <- (firstn_skipn n l) in H.
  apply Forall_app in H. tauto.
Qed.

(** A store that [read_store] has read is no longer than a record. *)
Lemma read_store_length st dev part o store r x :
  byte_memory st ->
  read_store st dev part o store = (r, x) -> 0 <= r ->
  0 <= length x <= STORE_SIZE.
Proof.
  intros Hm H Hr. unfold read_store in H.
  destruct (nvm_read tab st (to_u32 dev) (to_u32 part) o 8)
    as [r0 hdr] eqn:E0.
  pose proof (nvm_read_bytes _ _ _ _ _ _ _ Hm E0) as Hb.
  pose proof (rd16_bytes _ (Forall_skipn_bytes 4 _ Hb)) as Hlen.
  destruct (r0 <? 0) eqn:Er0; [inv H; apply Z.ltb_lt in Er0; lia|].
  cbn [length set_header] in H.
  destruct (rd16 (skipn 4 hdr) =? STORE_SIZE) eqn:E1.
  - apply Z.eqb_eq in E1.
    destruct (nvm_read tab st (to_u32 dev) (to_u32 part) (to_u32 (o + 8))
                (STORE_SIZE - 8)) as [r1 d1].
    destruct (r1 <? 0); inv H;
      cbn [length set_header set_settings set_crc_field]; lia.
  - destruct (rd16 (skipn 4 hdr) <? STORE_SIZE) eqn:E2.
    + apply Z.ltb_lt in E2.
      repeat match type of H with
             | (let '(_, _) := ?p in _) = _ => destruct p
             | (if ?c then _ else _) = _ => destruct c
             end; inv H;
        cbn [length set_header set_settings set_crc_field]; lia.
    + inv H. unfold E2BIG in Hr. lia.
Qed.

(** Where the walk of [parse_partition] ends: it has not moved, or the
    record before lies below the limit. *)
Lemma parse_walk_done fuel st dev part limit :
  forall offset prev magic o' p' m',
  parse_walk fuel st dev part limit offset prev magic
  = Some (WalkDone o' p' m') ->
  0 <= offset ->
  (o' = offset /\ p' = prev) \/ 0 <= p' < limit.
Proof.
  induction fuel as [|fuel IH]; intros offset prev magic o' p' m' H Ho;
    cbn [parse_walk] in H; [discriminate|].
  destruct (offset <? limit) eqn:El; [|inv H; now left].
  apply Z.ltb_lt in El.
  destruct (nvm_read tab st (to_u32 dev) (to_u32 part) offset 6)
    as [r buffer].
  destruct (r <? 0); [discriminate|].
  destruct (negb (rd32 buffer =? SETTINGS_MAGIC)); [inv H; now left|].
  apply IH in H.
  - destruct H as [(_ & ->) | H]; right; [lia|exact H].
  - unfold to_size, to_u32. apply Z.mod_pos_bound. lia.
Qed.

Lemma parse_walk_return fuel st dev part limit :
  forall offset prev magic ret off,
  parse_walk fuel st dev part limit offset prev magic
  = Some (WalkReturn ret off) -> ret < 0.
Proof.
  induction fuel as [|fuel IH]; intros offset prev magic ret off H;
    cbn [parse_walk] in H; [discriminate|].
  destruct (offset <? limit); [|discriminate].
  destruct (nvm_read tab st (to_u32 dev) (to_u32 part) offset 6) as [r b].
  destruct (r <? 0) eqn:Er; [inv H; now apply Z.ltb_lt in Er|].
  destruct (negb (rd32 b =? SETTINGS_MAGIC)); [discriminate|].
  eapply IH; eauto.
Qed.

Lemma parse_partition_prev fuel st dev part limit r o :
  parse_partition fuel st dev part limit = Some (r, o) ->
  r < 0 \/ (r = 0 /\ 0 <= o < limit).
Proof.
  unfold parse_partition. intros H.
  destruct (parse_walk fuel st dev part limit 0 0 0) as [[ret off|o' p' m']|]
    eqn:E; [| |discriminate].
  - inv H. left. eapply parse_walk_return; eauto.
  - apply parse_walk_done in E; [|lia].
    destruct (negb (m' =? UINT32_MAX));
      [inv H; left; unfold EILSEQ; lia|].
    destruct (o' =? p') eqn:Eo; [inv H; left; unfold ENOENT; lia|].
    inv H. right. split; [reflexivity|].
    destruct E as [(-> & ->) | E]; [|exact E].
    rewrite Z.eqb_refl in Eo. discriminate.
Qed.

Lemma check_store_integrity_values store :
  check_store_integrity store = 0 \/ check_store_integrity store = 1 \/
  check_store_integrity store = -1.
Proof.
  unfold check_store_integrity.
  repeat match goal with
         | |- context [if ?c then _ else _] => destruct c
         end; auto.
Qed.

(** The loop of [find_latest_valid_store] on a partition of at most [L]
    bytes answers 0, 1, 2 or 3 or an error, with an offset of at most one
    record behind the partition. *)
Lemma find_loop_result L pfuel st dev part :
  byte_memory st -> L + STORE_SIZE <= UINT32_MAX ->
  forall fuel end_lim offset store r x o,
  find_loop fuel pfuel st dev part end_lim offset store = Some (r, x, o) ->
  (offset <> 0 /\ 0 <= offset <= L + STORE_SIZE) \/
  (offset = 0 /\ 0 <= end_lim <= L) ->
  (r < 0 \/ 0 <= r <= 3) /\ 0 <= o <= L + STORE_SIZE.
Proof.
  intros Hm HL.
  induction fuel as [|fuel IH]; intros end_lim offset store r x o H Hinv;
    cbn [find_loop] in H; [discriminate|].
  assert (Hoff : 0 <= offset <= L + STORE_SIZE)
    by (destruct Hinv as [(_ & ?) | (-> & ?)]; ulia).
  destruct (end_lim >? 0); [|inv H; split; [right; lia|exact Hoff]].
  destruct (parse_partition pfuel st dev part end_lim) as [[ret ro]|] eqn:Ep;
    [|discriminate].
  destruct (ret =? - EILSEQ); [inv H; split; [right; lia|exact Hoff]|].
  destruct (ret =? - ENOENT); [inv H; split; [right; lia|exact Hoff]|].
  destruct (ret <? 0) eqn:Er;
    [inv H; apply Z.ltb_lt in Er; split; [left; exact Er|exact Hoff]|].
  apply Z.ltb_ge in Er. apply parse_partition_prev in Ep.
  destruct Ep as [Ep | (-> & Hro)]; [lia|].
  destruct (read_store st dev part ro store) as [r2 store2] eqn:Ers.
  destruct (r2 <? 0) eqn:Er2;
    [inv H; apply Z.ltb_lt in Er2; split; [left; exact Er2|exact Hoff]|].
  apply Z.ltb_ge in Er2.
  pose proof (read_store_length _ _ _ _ _ _ _ Hm Ers Er2) as Hlen.
  cbv zeta in H.
  set (offset' := if offset =? 0 then to_size (ro + length store2)
                  else offset) in *.
  assert (Hoff' : 0 <= offset' <= L + STORE_SIZE /\
                  (offset' = 0 -> offset = 0 /\ length store2 = 0)).
  { unfold offset'. destruct (offset =? 0) eqn:E0.
    - apply Z.eqb_eq in E0. subst offset.
      destruct Hinv as [(Hne & _) | (_ & Hlim)]; [now contradiction Hne|].
      rewrite to_size_small by ulia. split; [ulia|]. intros Hz. split; lia.
    - apply Z.eqb_neq in E0. split; [exact Hoff|]. intros Hz. lia. }
  destruct Hoff' as (Hb' & Hz').
  destruct (check_store_integrity store2 =? 1);
    [inv H; split; [right; lia|exact Hb']|].
  destruct (check_store_integrity store2 =? 0).
  - apply IH in H; [exact H|].
    destruct (Z.eq_dec offset' 0) as [E|E];
      [|left; split; [exact E|exact Hb']].
    right. destruct (Hz' E) as (-> & Hl0). split; [exact E|].
    destruct Hinv as [(Hne & _) | (_ & Hlim)]; [now contradiction Hne|].
    rewrite Hl0, Z.sub_0_r, to_size_small by ulia. exact Hlim.
  - destruct (check_store_integrity store2 =? -1);
      [inv H; split; [right; lia|exact Hb']|].
    apply IH in H; [exact H|].
    destruct (Z.eq_dec offset' 0) as [E|E];
      [|left; split; [exact E|exact Hb']].
    right. destruct (Hz' E) as (-> & _). split; [exact E|].
    destruct Hinv as [(Hne & _) | (_ & Hlim)];
      [now contradiction Hne|exact Hlim].
Qed.

(** Every load that returns 0 on a handle not yet initialised leaves sound
    offsets, whatever bytes the memory holds. *)
Lemma load_leaves_sound_handle fuel st s buf s' buf' :
  byte_memory st ->
  part_sound tab (to_u32 (s_dev s)) (to_u32 (part_A s)) ->
  part_sound tab (to_u32 (s_dev s)) (to_u32 (part_B s)) ->
  initialized s = false ->
  settings_storage_load fuel st s buf = Some (0, s', buf') ->
  handle_sound s'.
Proof.
  intros Hm HsA HsB Hi H.
  assert (Hscan : forall part r x o,
            part_sound tab (to_u32 (s_dev s)) (to_u32 part) ->
            find_latest_valid_store fuel st (s_dev s) part zero_store
            = Some (r, x, o) ->
            (r < 0 \/ 0 <= r <= 3) /\ 0 <= o <= UINT32_MAX - STORE_SIZE).
  { intros part r x o Hs E. unfold find_latest_valid_store in E.
    destruct (nvm_getPart tab (to_u32 (s_dev s)) (to_u32 part)) as [r0 np]
      eqn:Hp.
    destruct (nvm_getPart_nonpos _ _ _ _ _ Hp) as [-> | ->].
    - destruct (nvm_getPart_ok_desc _ _ _ _ Hp) as [desc Hd].
      destruct (Hs desc np Hd Hp) as ((_ & _ & Hps & _) & Hend).
      cbn [Z.ltb Z.compare] in E.
      apply (find_loop_result (p_size np)) in E;
        [|exact Hm | ulia | right; split; [reflexivity|lia]].
      destruct E as (Hr & Ho). split; [exact Hr|ulia].
    - change (- EINVAL <? 0) with true in E. inv E.
      split; [left; lia|unfold UINT32_MAX; ulia]. }
  unfold settings_storage_load in H. rewrite Hi in H.
  destruct (find_latest_valid_store fuel st (s_dev s) (part_A s) zero_store)
    as [[[rA xA] oA]|] eqn:EA; [|discriminate].
  destruct (Hscan _ _ _ _ HsA EA) as (HrA & HoA).
  destruct (rA <? 0) eqn:ErA; [inv H; apply Z.ltb_lt in ErA; lia|].
  apply Z.ltb_ge in ErA.
  destruct (scan_A s rA oA) as [sA staleA] eqn:EsA.
  assert (HA : s_dev sA = s_dev s /\ part_B sA = part_B s /\
               (part_A_status sA = -1 \/
                0 <= part_A_offset sA <= UINT32_MAX - STORE_SIZE)).
  { unfold scan_A in EsA.
    assert (Hc : rA = 0 \/ rA = 1 \/ rA = 2 \/ rA = 3) by lia.
    destruct Hc as [-> | [-> | [-> | ->]]]; cbn in EsA; inv EsA;
      cbn [s_dev part_B part_A_status part_A_offset set_part_A];
      (split; [reflexivity|]); (split; [reflexivity|]);
      first [left; reflexivity | right; ulia | right; exact HoA]. }
  destruct HA as (HdA & HbA & HsoundA).
  rewrite HdA, HbA in H.
  destruct (find_latest_valid_store fuel st (s_dev s) (part_B s) zero_store)
    as [[[rB xB] oB]|] eqn:EB; [|discriminate].
  destruct (Hscan _ _ _ _ HsB EB) as (HrB & HoB).
  destruct (rB <? 0) eqn:ErB; [inv H; apply Z.ltb_lt in ErB; lia|].
  apply Z.ltb_ge in ErB.
  destruct (scan_B sA rB oB) as [sB staleB] eqn:EsB.
  assert (HB : handle_sound sB).
  { unfold scan_B in EsB.
    assert (Hc : rB = 0 \/ rB = 1 \/ rB = 2 \/ rB = 3) by lia.
    destruct Hc as [-> | [-> | [-> | ->]]]; cbn in EsB; inv EsB;
      (split; cbn [part_A_status part_A_offset part_B_status part_B_offset
                   set_part_B]; [exact HsoundA|]);
      first [left; reflexivity | right; ulia | right; exact HoB]. }
  assert (Hkeep : forall x i w, handle_sound (set_latest sB x i w))
    by (intros; exact HB).
  repeat match type of H with
         | (if ?c then _ else _) = _ => destruct c
         | (let '(_, _) := ?p in _) = _ => destruct p
         end; inv H; first [apply Hkeep | exact HB].
Qed.

(** * Further properties of the settings store *)

(** ** Records *)

Lemma check_set_crc m c s k :
  List.length s = 31%nat ->
  check_store_integrity
    (set_crc crc_ccitt {| MAGIC := m; length := STORE_SIZE; counter := c;
                          settings := s; crc := k |})
  = (if m =? SETTINGS_MAGIC then 1 else 0).
Proof.
  intros Hs. unfold check_store_integrity, set_crc.
  cbn [MAGIC length counter settings crc].
  destruct (m =? SETTINGS_MAGIC); cbn [negb]; [|reflexivity].
  change (STORE_SIZE >? STORE_SIZE) with false.
  change (STORE_SIZE =? STORE_SIZE) with true. cbn [negb].
  change (to_size (STORE_SIZE - 2)) with (STORE_SIZE - 2).
  unfold store_crc at 2. change (Z.to_nat (STORE_SIZE - 2)) with 39%nat.
  rewrite (store_prefix_ignores_crc m STORE_SIZE c s _ k Hs).
  fold (store_crc crc_ccitt
          {| MAGIC := m; length := STORE_SIZE; counter := c;
             settings := s; crc := k |} (STORE_SIZE - 2)).
  now rewrite Z.eqb_refl.
Qed.

(** X1.  The stores that [default_settings_store] and
    [update_settings_store] build pass [check_store_integrity] as valid and
    current; an update keeps the magic word of the store it is given, so the
    result is valid exactly when that store carried the magic word. *)
Theorem built_stores_pass_integrity S store :
  check_store_integrity (snd default_settings_store) = 1 /\
  check_store_integrity (snd (update_settings_store S store))
  = (if MAGIC store =? SETTINGS_MAGIC then 1 else 0).
Proof.
  split.
  - unfold default_settings_store. cbn [snd].
    rewrite check_set_crc by apply settings_image_length. reflexivity.
  - unfold update_settings_store. cbn [snd].
    apply check_set_crc, settings_image_length.
Qed.

(** ** The access layer *)

Section Access.

Variables (idx part : Z) (desc : nvmDescriptor) (np : nvmPartition).
Hypothesis Hdesc : nvm_getDesc tab idx = Some desc.
Hypothesis Hpart : nvm_getPart tab idx part = (0, np).
Hypothesis Hfit : part_fits desc np.

Local Abbreviation id := (dev_id (dev desc)).
Local Abbreviation base := (part_base desc np).

Local Abbreviation nvm_write_ok :=
  (nvm_write_ok idx part desc np Hdesc Hpart Hfit).
Local Abbreviation nvm_erase_ok :=
  (nvm_erase_ok idx part desc np Hdesc Hpart Hfit).

Lemma nvm_read_at st o l :
  0 <= o -> 0 <= l -> o + l <= p_size np ->
  nvm_read tab st idx part o l
  = (0, mem_bytes (nv_mem st id) (base + o) (Z.to_nat l)).
Proof.
  intros Ho Hl Hin. destruct Hfit as (Hb & Hpo & Hps & Hdev & Hmax).
  unfold nvm_read. rewrite Hpart. cbn [Z.ltb Z.compare].
  rewrite to_size_small by lia.
  destruct (o + l >? p_size np) eqn:E;
    [rewrite Z.gtb_ltb in E; apply Z.ltb_lt in E; lia|].
  rewrite Hdesc. unfold nvm_devRead, ops_read_hook.
  rewrite (to_u32_small (o + p_offset np)) by lia.
  rewrite to_u32_small by lia.
  destruct (baseAddr desc + (o + p_offset np) + l <=? dev_size (dev desc))
    eqn:E2; [|apply Z.leb_gt in E2; lia].
  rewrite seqZ_bytes.
  replace (baseAddr desc + (o + p_offset np)) with (base + o)
    by (unfold part_base; lia).
  reflexivity.
Qed.

(** X2.  Partitions are isolated: a write or an erase that [nvm_write] or
    [nvm_erase] accepts, and whose [offset + len] does not wrap, changes no
    byte outside the partition and no other device. *)
Theorem partition_isolation st o j x :
  0 <= o ->
  j <> id \/ x < base \/ base + p_size np <= x ->
  (forall data st',
     o + Z.of_nat (List.length data) <= UINT32_MAX ->
     nvm_write tab st idx part o data = (0, st') ->
     nv_mem st' j x = nv_mem st j x) /\
  (forall sz st',
     0 <= sz -> o + sz <= UINT32_MAX ->
     nvm_erase tab st idx part o sz = (0, st') ->
     nv_mem st' j x = nv_mem st j x).
Proof.
  intros Ho Hout. split.
  - intros data st' Hmax H.
    destruct (nvm_write_ok st o data st' Ho Hmax H) as (Hin & ->).
    cbn [commit nv_mem apply_event].
    destruct (Nat.eq_dec j id) as [->|Hne].
    + rewrite upd_mem_same. apply mem_store_outside.
      destruct Hout as [Hc | Hc]; [contradiction|lia].
    + now rewrite upd_mem_other.
  - intros sz st' Hsz Hmax H.
    destruct (nvm_erase_ok st o sz st' Ho Hsz Hmax H) as (Hin & ->).
    cbn [commit nv_mem apply_event].
    destruct (Nat.eq_dec j id) as [->|Hne].
    + rewrite upd_mem_same. apply mem_fill_outside.
      destruct Hout as [Hc | Hc]; [contradiction|lia].
    + now rewrite upd_mem_other.
Qed.

Lemma mem_store_written bc m a data i :
  (i < List.length data)%nat -> Forall is_byte data ->
  (bc = true -> m (a + Z.of_nat i) = 255) ->
  mem_store bc m a data (a + Z.of_nat i) = nth i data 0.
Proof.
  intros Hi Hb Hm. destruct bc.
  - apply mem_store_inside; auto.
  - unfold mem_store.
    replace ((a <=? a + Z.of_nat i)
             && (a + Z.of_nat i <? a + Z.of_nat (List.length data)))
      with true
      by (symmetry; apply andb_true_iff; split;
          [apply Z.leb_le|apply Z.ltb_lt]; lia).
    replace (Z.to_nat (a + Z.of_nat i - a)) with i by lia.
    apply to_u8_id. rewrite Forall_forall in Hb. apply Hb, nth_In, Hi.
Qed.

(** X3.  What [nvm_write] stored, [nvm_read] gives back: on a device that
    overwrites, or on one that can only clear bits when the range was erased
    before. *)
Theorem nvm_write_read_back st o data st' :
  0 <= o -> o + Z.of_nat (List.length data) <= UINT32_MAX ->
  Forall is_byte data ->
  (bit_clear (dev desc) = true ->
   erased (nv_mem st id) (base + o)
     (base + o + Z.of_nat (List.length data))) ->
  nvm_write tab st idx part o data = (0, st') ->
  nvm_read tab st' idx part o (Z.of_nat (List.length data)) = (0, data).
Proof.
  intros Ho Hmax Hb He H.
  destruct (nvm_write_ok st o data st' Ho Hmax H) as (Hin & ->).
  rewrite nvm_read_at by lia. f_equal. rewrite Nat2Z.id.
  cbn [commit nv_mem apply_event]. rewrite upd_mem_same.
  apply nth_ext with (d := 0) (d' := 0);
    [apply mem_bytes_length|].
  intros i Hi. rewrite mem_bytes_length in Hi.
  rewrite mem_bytes_nth by exact Hi.
  apply mem_store_written; auto.
  intros Hbc. apply He; [exact Hbc|lia].
Qed.

(** X4.  After an accepted [nvm_erase] every read inside the erased range
    gives [0xFF] bytes. *)
Theorem nvm_erase_reads_blank st o sz st' o' l :
  0 <= o -> 0 <= sz -> o + sz <= UINT32_MAX ->
  o <= o' -> 0 <= l -> o' + l <= o + sz ->
  nvm_erase tab st idx part o sz = (0, st') ->
  nvm_read tab st' idx part o' l = (0, repeat 255 (Z.to_nat l)).
Proof.
  intros Ho Hsz Hmax Ho' Hl Hin' H.
  destruct (nvm_erase_ok st o sz st' Ho Hsz Hmax H) as (Hin & ->).
  rewrite nvm_read_at by lia. f_equal.
  cbn [commit nv_mem apply_event]. rewrite upd_mem_same.
  apply (mem_bytes_erased _ _ (base + o + sz)); [|lia].
  intros x Hx. apply mem_fill_inside. lia.
Qed.

End Access.

(** ** Scanning a partition *)

Lemma last_cases {A} (l : list A) :
  l = [] \/ exists pre x, l = pre ++ [x].
Proof.
  induction l as [|x pre _] using rev_ind; [now left|right; eauto].
Qed.

Section Scans.

Variables (area part : Z) (desc : nvmDescriptor) (np : nvmPartition).
Hypothesis Hdesc : nvm_getDesc tab (to_u32 area) = Some desc.
Hypothesis Hpart : nvm_getPart tab (to_u32 area) (to_u32 part) = (0, np).
Hypothesis Hfit : part_fits desc np.

Local Abbreviation m st := (nv_mem st (dev_id (dev desc))).
Local Abbreviation base := (part_base desc np).

(** X5.  On a partition that lies inside its device, holds [n] records with
    the magic word and the current length from its start, is erased behind
    them and is at least 6 bytes longer than the [n] records,
    [parse_partition] with a limit greater than [41 * n] ends within [n + 1]
    steps: with [-ENOENT] when there is no record, else with 0 and the
    offset of the last record. *)
Theorem parse_partition_finds_last st frames limit fuel :
  record_chain (m st) desc np frames ->
  STORE_SIZE * Z.of_nat (List.length frames) < limit ->
  (List.length frames < fuel)%nat ->
  parse_partition fuel st area part limit
  = Some (match frames with
          | [] => (- ENOENT, 0)
          | _ => (0, STORE_SIZE * (Z.of_nat (List.length frames) - 1))
          end).
Proof.
  intros (Hok & Hch & He & Hsz) Hlim Hfuel.
  now apply (parse_partition_clean area part desc np).
Qed.

(** X6.  On such a partition (inside its device, [n] records with the magic
    word and the current length from its start, erased behind them, at
    least 6 bytes longer than the [n] records) [find_latest_valid_store]
    answers 1 and leaves [*store] alone when there is no record; when the
    last record passes the integrity check it answers 3 with that record and
    the offset behind it. *)
Theorem find_latest_on_sound_partition st frames fuel store :
  record_chain (m st) desc np frames ->
  (forall pre f, frames = pre ++ [f] ->
                 check_store_integrity (decode f) = 1) ->
  (List.length frames + 1 < fuel)%nat ->
  find_latest_valid_store fuel st area part store
  = Some (match rev frames with
          | [] => (1, store, 0)
          | f :: _ => (3, decode f,
                       STORE_SIZE * Z.of_nat (List.length frames))
          end).
Proof.
  intros Hrc Hlast Hfuel.
  destruct (last_cases frames) as [-> | (pre & f & ->)].
  - cbn [rev]. destruct Hrc as (_ & _ & He & Hsz).
    cbn [List.length] in He, Hsz.
    apply (find_latest_empty area part desc np); auto; try ulia.
    intros x Hx. apply He. ulia.
  - rewrite rev_app_distr. cbn [rev app].
    destruct Hrc as (Hok & Hch & He & Hsz).
    rewrite (find_latest_valid area part desc np Hdesc Hpart Hfit st pre f
               Hok Hch He Hsz fuel store (Hlast pre f eq_refl)).
    + rewrite length_app. cbn [List.length]. do 3 f_equal. lia.
    + rewrite length_app in Hfuel. cbn [List.length] in Hfuel. lia.
Qed.

(** X7.  One stray word makes the partition corrupt: when the bytes behind
    the last record start with a word that is neither the magic word nor
    [0xFFFFFFFF], [find_latest_valid_store] answers 0 with [*store] untouched
    and offset 0, whatever the records before it hold. *)
Theorem stray_word_makes_partition_corrupt st frames fuel store :
  Forall (fun f => header_ok f = true) frames ->
  chain (m st) base frames ->
  STORE_SIZE * Z.of_nat (List.length frames) + 6 <= p_size np ->
  rd32 (mem_bytes (m st)
          (base + STORE_SIZE * Z.of_nat (List.length frames)) 6)
  <> SETTINGS_MAGIC ->
  rd32 (mem_bytes (m st)
          (base + STORE_SIZE * Z.of_nat (List.length frames)) 6)
  <> UINT32_MAX ->
  (List.length frames + 2 <= fuel)%nat ->
  find_latest_valid_store fuel st area part store = Some (0, store, 0).
Proof.
  intros Hok Hch Hsz Hm1 Hm2 Hfuel.
  apply (find_latest_bad_header area part desc np Hdesc Hpart Hfit st frames
           fuel _ store Hok Hch Hsz eq_refl); auto.
Qed.

End Scans.

(** ** Writing a record *)

Lemma update_is_store_of S old :
  MAGIC old = SETTINGS_MAGIC ->
  snd (update_settings_store S old)
  = store_of crc_ccitt (counter old + 1) S.
Proof.
  intros Hm. unfold update_settings_store, store_of. cbn [snd].
  rewrite Hm. apply set_crc_ignores_crc, settings_image_length.
Qed.

Section WriteFind.

Variables (area part : Z) (desc : nvmDescriptor) (np : nvmPartition).
Hypothesis Hdesc : nvm_getDesc tab (to_u32 area) = Some desc.
Hypothesis Hpart : nvm_getPart tab (to_u32 area) (to_u32 part) = (0, np).
Hypothesis Hfit : part_fits desc np.
Hypothesis Hwr : part_writable desc np.
Hypothesis Hroom : part_roomy np.

(** X8.  What [write_store] writes, [find_latest_valid_store] finds.  The
    partition lies inside a device that writes single bytes and erases in
    units that divide the start and the length of the partition; it is from
    47 to 65321 bytes long with at least 6 bytes behind its last whole
    record; it holds records with the magic word and the current length
    from its start and is erased behind them, with at least 6 bytes behind
    them.  Then a store built by [update_settings_store] from a store with
    the magic word, written behind these records (after an erase when it
    does not fit), is reported as valid (3), with the offset that
    [write_store] left in [*offset]. *)
Theorem write_store_then_find st frames S old fuel fuel' any :
  record_chain (nv_mem st (dev_id (dev desc))) desc np frames ->
  MAGIC old = SETTINGS_MAGIC ->
  (Z.to_nat (p_size np) < fuel')%nat ->
  exists off' st',
    write_store fuel st area part (snd (update_settings_store S old))
      (STORE_SIZE * Z.of_nat (List.length frames)) false
    = Some (0, off', st') /\
    find_latest_valid_store fuel' st' area part any
    = Some (3, snd (update_settings_store S old), off').
Proof.
  intros Hrc Hm Hfuel. rewrite (update_is_store_of S old Hm).
  set (c := counter old + 1).
  destruct (write_store_target area part desc np Hdesc Hpart Hfit Hroom
              (nv_mem st) frames (frame_of crc_ccitt c S) Hrc
              (frame_of_header_ok _ _) (frame_of_bytes _ _) Hwr fuel st
              (store_of crc_ccitt c S) eq_refl eq_refl)
    as (st' & g & Hw & _ & _ & Hrc').
  exists (STORE_SIZE * Z.of_nat (List.length (g ++ [frame_of crc_ccitt c S]))),
    st'.
  split; [exact Hw|].
  destruct Hrc' as (Hok & Hch & He & Hsz).
  rewrite (find_latest_valid area part desc np Hdesc Hpart Hfit st' g
             (frame_of crc_ccitt c S) Hok Hch He Hsz fuel' any
             (frame_of_valid c S)).
  - rewrite decode_frame_of, length_app. cbn [List.length].
    do 3 f_equal. lia.
  - rewrite length_app in Hsz. cbn [List.length] in Hsz. ulia.
Qed.

End WriteFind.

(** ** Loading *)

Lemma find_on_missing_partition fuel st dev part store :
  fst (nvm_getPart tab (to_u32 dev) (to_u32 part)) <> 0 ->
  find_latest_valid_store fuel st dev part store
  = Some (- EINVAL, store, 0).
Proof.
  intros H. unfold find_latest_valid_store.
  destruct (nvm_getPart tab (to_u32 dev) (to_u32 part)) as [ret pInfo] eqn:E.
  cbn [fst] in H.
  destruct (nvm_getPart_nonpos _ _ _ _ _ E) as [-> | ->];
    [contradiction|reflexivity].
Qed.

Lemma scan_A_keeps s r o :
  s_dev (fst (scan_A s r o)) = s_dev s /\
  part_A (fst (scan_A s r o)) = part_A s /\
  part_B (fst (scan_A s r o)) = part_B s /\
  initialized (fst (scan_A s r o)) = initialized s.
Proof.
  unfold scan_A.
  repeat match goal with |- context [if ?c then _ else _] => destruct c end;
    repeat split.
Qed.

(** X9.  [settings_storage_load] needs both partitions: when partition A
    does not exist it returns [-EINVAL] and changes nothing; when partition
    B does not exist it returns [-EINVAL] after the scan of A and the handle
    stays uninitialised. *)
Theorem load_needs_both_partitions fuel st s buf :
  initialized s = false ->
  (fst (nvm_getPart tab (to_u32 (s_dev s)) (to_u32 (part_A s))) <> 0 ->
   settings_storage_load fuel st s buf = Some (- EINVAL, s, buf)) /\
  (forall rA sA oA,
     find_latest_valid_store fuel st (s_dev s) (part_A s) zero_store
     = Some (rA, sA, oA) ->
     0 <= rA ->
     fst (nvm_getPart tab (to_u32 (s_dev s)) (to_u32 (part_B s))) <> 0 ->
     exists s',
       settings_storage_load fuel st s buf = Some (- EINVAL, s', buf) /\
       initialized s' = false).
Proof.
  intros Hi. split.
  - intros HA. unfold settings_storage_load. rewrite Hi.
    rewrite find_on_missing_partition by exact HA. reflexivity.
  - intros rA sA oA EA HrA HB. unfold settings_storage_load. rewrite Hi, EA.
    replace (rA <? 0) with false by (symmetry; apply Z.ltb_ge; exact HrA).
    destruct (scan_A_keeps s rA oA) as (Hd & _ & Hb & Hin).
    destruct (scan_A s rA oA) as [s1 stale]. cbn [fst] in Hd, Hb, Hin.
    rewrite Hd, Hb, find_on_missing_partition by exact HB.
    cbn [Z.ltb Z.compare EINVAL Z.opp].
    exists s1. split; [reflexivity|]. now rewrite Hin.
Qed.

Lemma load_success_initializes fuel st s buf s' buf' :
  settings_storage_load fuel st s buf = Some (0, s', buf') ->
  initialized s' = true.
Proof.
  unfold settings_storage_load. intros H.
  destruct (initialized s) eqn:Hi; [inv H; exact Hi|].
  repeat match type of H with
         | match ?x with _ => _ end = _ => destruct x eqn:?
         | (if ?c then _ else _) = _ => destruct c eqn:?
         | (let '(_, _) := ?p in _) = _ => destruct p eqn:?
         end;
    inv H; try reflexivity;
    match goal with E : (0 <? 0) = true |- _ => discriminate E end.
Qed.

(** X10.  Once [settings_storage_load] has returned 0, every further load
    on that handle returns 0, copies the cached payload to the caller and
    neither reads the memory nor changes the handle. *)
Theorem load_then_load fuel st s buf s1 buf1 fuel2 st2 buf2 :
  settings_storage_load fuel st s buf = Some (0, s1, buf1) ->
  settings_storage_load fuel2 st2 s1 buf2
  = Some (0, s1, settings (latest_store s1)).
Proof.
  intros H. apply later_load_copies_cache.
  exact (load_success_initializes _ _ _ _ _ _ H).
Qed.

Lemma load_of_scans_handle fuel st s buf rA sA oA rB sB oB :
  initialized s = false ->
  find_latest_valid_store fuel st (s_dev s) (part_A s) zero_store
  = Some (rA, sA, oA) ->
  find_latest_valid_store fuel st (s_dev s) (part_B s) zero_store
  = Some (rB, sB, oB) ->
  rA = 0 \/ rA = 1 \/ rA = 3 ->
  rB = 0 \/ rB = 1 \/ rB = 3 ->
  settings_storage_load fuel st s buf
  = Some (0,
          set_latest (fst (scan_B (fst (scan_A s rA oA)) rB oB))
            (load_choice crc_ccitt rA sA rB sB) true
            (negb (rA =? 3) && negb (rB =? 3)),
          buf).
Proof.
  intros Hi HA HB HrA HrB. unfold settings_storage_load, load_choice.
  rewrite Hi, HA.
  destruct HrA as [-> | [-> | ->]]; destruct HrB as [-> | [-> | ->]];
    cbn -[find_latest_valid_store Z.geb default_settings_store]; rewrite HB;
    cbn -[find_latest_valid_store Z.geb default_settings_store];
    try destruct (counter sA >=? counter sB);
    reflexivity.
Qed.

(** X11.  First boot: over two erased partitions the load returns 0, caches
    the default store, marks both partitions empty with offset 0 and sets
    [write_needed], so that the next save writes even the default
    settings. *)
Theorem load_on_erased_store fuel st s buf :
  initialized s = false ->
  part_layout tab st (s_dev s) (part_A s) [] ->
  part_layout tab st (s_dev s) (part_B s) [] ->
  (1 < fuel)%nat ->
  exists s',
    settings_storage_load fuel st s buf = Some (0, s', buf) /\
    latest_store s' = snd default_settings_store /\
    write_needed s' = true /\ initialized s' = true /\
    part_A_status s' = 0 /\ part_B_status s' = 0 /\
    part_A_offset s' = 0 /\ part_B_offset s' = 0.
Proof.
  intros Hi HA HB Hfuel.
  rewrite (load_of_scans_handle fuel st s buf 1 zero_store 0 1 zero_store 0
             Hi (scan_empty _ _ _ _ _ HA Hfuel)
             (scan_empty _ _ _ _ _ HB Hfuel))
    by auto.
  eexists. split; [reflexivity|]. repeat split.
Qed.

(** ** Saving *)

(** X12.  A pending write is written: with [write_needed] set, a save that
    returns 0 has written exactly one record, of the next counter, even when
    the payload is the cached one. *)
Theorem pending_write_is_written fuel st s S s' st' :
  write_needed s = true ->
  settings_storage_save fuel st s S = Some (0, s', st') ->
  frame_writes (new_events st st') = 1%nat /\
  latest_store s' = snd (update_settings_store S (latest_store s)) /\
  write_needed s' = false.
Proof.
  intros Hwn H. apply save_cases in H.
  destruct H as [(_ & Hf & _) | (_ & Hl & _ & _ & _ & _ & Hw & evs & Hlog &
                                 Hfw & _)].
  - rewrite Hwn in Hf. discriminate Hf.
  - rewrite (logs_new_events _ _ _ Hlog).
    split; [exact Hfw|]. split; [exact Hl|]. now apply Hw.
Qed.

(** X13.  A save that fails has still advanced the cache: it returns the
    negative code of the failed write, the handle caches the new payload with
    the counter incremented and keeps [write_needed] set, and no record was
    written. *)
Theorem failed_save_keeps_update fuel st s S ret s' st' :
  settings_storage_save fuel st s S = Some (ret, s', st') ->
  ret <> 0 ->
  ret < 0 /\
  latest_store s' = snd (update_settings_store S (latest_store s)) /\
  write_needed s' = true /\
  frame_writes (new_events st st') = 0%nat.
Proof.
  intros H Hret. pose proof H as H0. apply save_cases in H0.
  destruct H0 as [(_ & _ & -> & _) | (_ & Hl & _ & _ & _ & _ & _ & evs &
                                      Hlog & Hfw & _)];
    [contradiction|].
  rewrite (logs_new_events _ _ _ Hlog).
  replace (ret =? 0) with false in Hfw
    by (symmetry; apply Z.eqb_neq; exact Hret).
  assert (Hrest : ret < 0 /\ write_needed s' = true).
  { clear Hl Hlog Hfw. unfold settings_storage_save in H.
    destruct (negb (memcmp (settings (latest_store s)) (settings_image S)
                    =? 0) || write_needed s) eqn:Ed.
    - cbn [update_settings_store set_latest write_needed latest_store
           s_dev part_A part_B part_A_offset part_B_offset part_A_status
           part_B_status initialized] in H.
      repeat match type of H with
             | match ?x with _ => _ end = _ => destruct x eqn:?
             | (if ?c then _ else _) = _ => destruct c eqn:?
             end; inv H; try contradiction;
        (split; [apply Z.ltb_lt; assumption | reflexivity]).
    - apply orb_false_iff in Ed. destruct Ed as (_ & Ewn).
      rewrite Ewn in H. inv H. contradiction. }
  destruct Hrest as (Hneg & Hwn). repeat split; assumption.
Qed.

(** ** Power cycles *)

Lemma last_app_default {A} (l2 : list A) : forall l1 d,
  last (l1 ++ l2) d = last l2 (last l1 d).
Proof.
  intros l1. induction l1 as [|x l1 IH]; intros d; [reflexivity|].
  change ((x :: l1) ++ l2) with (x :: (l1 ++ l2)).
  rewrite !last_cons_default. apply IH.
Qed.

(** The scan of a sound partition, with the offset it reports. *)
Lemma scan_tip_offset st area part desc np frames k p fuel :
  nvm_getDesc tab (to_u32 area) = Some desc ->
  nvm_getPart tab (to_u32 area) (to_u32 part) = (0, np) ->
  part_fits desc np ->
  record_chain (nv_mem st (dev_id (dev desc))) desc np frames ->
  tip crc_ccitt k p frames ->
  (Z.to_nat (p_size np) < fuel)%nat ->
  exists r x o,
    find_latest_valid_store fuel st area part zero_store = Some (r, x, o) /\
    ((k <= 0 /\ r = 1 /\ frames = []) \/
     (1 <= k /\ r = 3 /\ x = store_of crc_ccitt k p /\
      o = STORE_SIZE * Z.of_nat (List.length frames))).
Proof.
  intros Hdesc Hpart Hfit Hrc Htip Hfuel.
  assert (Hlay : part_layout tab st area part frames)
    by (exists desc, np; auto).
  pose proof Hrc as (_ & _ & _ & Hsz).
  unfold tip in Htip. destruct (k <=? 0) eqn:Ek.
  - apply Z.leb_le in Ek. subst frames.
    exists 1, zero_store, 0. split; [|left; auto].
    apply scan_empty; auto. cbn [List.length] in Hsz. ulia.
  - apply Z.leb_gt in Ek. destruct Htip as (pre & ->).
    do 3 eexists. split.
    + apply scan_valid; [exact Hlay | apply frame_of_valid |].
      rewrite length_app in Hsz. cbn [List.length] in Hsz. ulia.
    + right. split; [lia|]. split; [reflexivity|].
      split; [apply decode_frame_of|].
      rewrite length_app. cbn [List.length]. lia.
Qed.

(** The store that the load selects between the record of counter [c] and
    the one before it. *)
Lemma choice_old_store c cur prev rP xP rQ xQ :
  0 <= c <= 65535 ->
  (c <= 0 /\ rP = 1) \/ (1 <= c /\ rP = 3 /\ xP = store_of crc_ccitt c cur) ->
  (c - 1 <= 0 /\ rQ = 1) \/
  (1 <= c - 1 /\ rQ = 3 /\ xQ = store_of crc_ccitt (c - 1) prev) ->
  load_choice crc_ccitt rP xP rQ xQ
  = (if c <=? 0 then snd default_settings_store else store_of crc_ccitt c cur)
  /\
  load_choice crc_ccitt rQ xQ rP xP
  = (if c <=? 0 then snd default_settings_store else store_of crc_ccitt c cur).
Proof.
  intros Hc HP HQ. unfold load_choice.
  destruct HP as [(Hk & ->) | (Hk & -> & ->)].
  - replace (c <=? 0) with true by (symmetry; apply Z.leb_le; lia).
    destruct HQ as [(_ & ->) | (Hk2 & _)]; [|lia].
    cbn [Z.eqb Pos.eqb]. auto.
  - replace (c <=? 0) with false by (symmetry; apply Z.leb_gt; lia).
    destruct HQ as [(_ & ->) | (Hk2 & -> & ->)];
      cbn [Z.eqb Pos.eqb]; auto.
    rewrite !store_of_counter by lia.
    replace (c >=? c - 1) with true by (symmetry; apply Z.geb_le; lia).
    replace (c - 1 >=? c) with false
      by (symmetry; rewrite Z.geb_leb; apply Z.leb_gt; lia).
    auto.
Qed.

Section Reboot.

Variables (area pa pb : Z) (desc : nvmDescriptor) (npa npb : nvmPartition).
Hypothesis Hdesc : nvm_getDesc tab (to_u32 area) = Some desc.
Hypothesis HpA : nvm_getPart tab (to_u32 area) (to_u32 pa) = (0, npa).
Hypothesis HpB : nvm_getPart tab (to_u32 area) (to_u32 pb) = (0, npb).
Hypothesis HfitA : part_fits desc npa.
Hypothesis HfitB : part_fits desc npb.
Hypothesis HwrA : part_writable desc npa.
Hypothesis HwrB : part_writable desc npb.
Hypothesis HroomA : part_roomy npa.
Hypothesis HroomB : part_roomy npb.
Hypothesis Hapart : parts_apart npa npb.

Local Abbreviation id := (dev_id (dev desc)).
Local Abbreviation Inv := (durable_inv crc_ccitt desc npa npb area pa pb).
Local Abbreviation fresh :=
  (snd (settings_storage_init zero_storage area pa pb)).

(** The load on a fresh handle over a sound store gives a handle that is
    sound for that store again and caches its latest payload. *)
Lemma load_restores fuel st s c img buf :
  Inv s (nv_mem st id) c img ->
  (Z.to_nat (p_size npa) < fuel)%nat -> (Z.to_nat (p_size npb) < fuel)%nat ->
  exists s',
    settings_storage_load fuel st fresh buf = Some (0, s', buf) /\
    Inv s' (nv_mem st id) c img /\
    settings (latest_store s') = img.
Proof.
  intros (fa & fb & cur & prev & HrcA & HrcB & _ & _ & _ & _ & _ & _ & _ &
          Hc & Himg & _ & _ & Hzero & Htc & Htp) HfA HfB.
  destruct (scan_tip_offset st area pa desc npa fa
              (if odd_counter c then c - 1 else c)
              (if odd_counter c then prev else cur) fuel
              Hdesc HpA HfitA HrcA
              ltac:(destruct (odd_counter c); assumption) HfA)
    as (rA & xA & oA & EA & HA).
  destruct (scan_tip_offset st area pb desc npb fb
              (if odd_counter c then c else c - 1)
              (if odd_counter c then cur else prev) fuel
              Hdesc HpB HfitB HrcB
              ltac:(destruct (odd_counter c); assumption) HfB)
    as (rB & xB & oB & EB & HB).
  assert (HrA : rA = 0 \/ rA = 1 \/ rA = 3)
    by (destruct HA as [(_ & -> & _) | (_ & -> & _)]; auto).
  assert (HrB : rB = 0 \/ rB = 1 \/ rB = 3)
    by (destruct HB as [(_ & -> & _) | (_ & -> & _)]; auto).
  rewrite (load_of_scans_handle fuel st fresh buf rA xA oA rB xB oB
             eq_refl EA EB HrA HrB).
  eexists. split; [reflexivity|].
  assert (Hsel : load_choice crc_ccitt rA xA rB xB
                 = (if c <=? 0 then snd default_settings_store
                    else store_of crc_ccitt c cur)).
  { destruct (odd_counter c).
    - apply (choice_old_store c cur prev rB xB rA xA); [exact Hc | |].
      + destruct HB as [(? & ? & _) | (? & ? & ? & _)]; auto.
      + destruct HA as [(? & ? & _) | (? & ? & ? & _)]; auto.
    - apply (choice_old_store c cur prev rA xA rB xB); [exact Hc | |].
      + destruct HA as [(? & ? & _) | (? & ? & ? & _)]; auto.
      + destruct HB as [(? & ? & _) | (? & ? & ? & _)]; auto. }
  rewrite Hsel.
  assert (Hlat : (if c <=? 0 then snd default_settings_store
                  else store_of crc_ccitt c cur)
                 = store_of crc_ccitt c
                     (if c <=? 0 then default_settings else cur)).
  { destruct (c <=? 0) eqn:E; [|reflexivity].
    apply Z.leb_le in E. replace c with 0 by lia. reflexivity. }
  assert (Him : settings_image (if c <=? 0 then default_settings else cur)
                = img).
  { destruct (c <=? 0) eqn:E; [|exact Himg].
    apply Z.leb_le in E. symmetry. apply Hzero. lia. }
  assert (Hwn : 1 <= c -> negb (rA =? 3) && negb (rB =? 3) = false).
  { intros H1. destruct (odd_counter c).
    - destruct HB as [(? & _) | (_ & -> & _)]; [lia|].
      apply andb_false_r.
    - destruct HA as [(? & _) | (_ & -> & _)]; [lia|]. reflexivity. }
  assert (HoA : part_A_offset (fst (scan_A fresh rA oA))
                = STORE_SIZE * Z.of_nat (List.length fa) /\
                part_A_status (fst (scan_A fresh rA oA)) <> -1).
  { destruct HA as [(_ & -> & ->) | (_ & -> & _ & ->)];
      cbn; split; [reflexivity | discriminate | reflexivity | discriminate]. }
  assert (HoB : forall h,
            part_B_offset (fst (scan_B h rB oB))
            = STORE_SIZE * Z.of_nat (List.length fb) /\
            part_B_status (fst (scan_B h rB oB)) <> -1 /\
            part_A_offset (fst (scan_B h rB oB)) = part_A_offset h /\
            part_A_status (fst (scan_B h rB oB)) = part_A_status h /\
            s_dev (fst (scan_B h rB oB)) = s_dev h /\
            part_A (fst (scan_B h rB oB)) = part_A h /\
            part_B (fst (scan_B h rB oB)) = part_B h).
  { intros h. destruct HB as [(_ & -> & ->) | (_ & -> & _ & ->)]; cbn;
      repeat split; discriminate. }
  destruct (HoB (fst (scan_A fresh rA oA)))
    as (Hb1 & Hb2 & Hb3 & Hb4 & Hb5 & Hb6 & Hb7).
  destruct HoA as (Ha1 & Ha2).
  destruct (scan_A_keeps fresh rA oA) as (Hk1 & Hk2 & Hk3 & _).
  split.
  - exists fa, fb, (if c <=? 0 then default_settings else cur), prev.
    cbn [set_latest write_needed latest_store s_dev part_A part_B
         part_A_offset part_B_offset part_A_status part_B_status initialized].
    assert (Htc' : tip crc_ccitt c (if c <=? 0 then default_settings else cur)
                     (if odd_counter c then fb else fa)).
    { unfold tip in *. destruct (c <=? 0); assumption. }
    repeat match goal with |- _ /\ _ => split end;
      try assumption; try congruence; try lia.
    + rewrite Hb5, Hk1. reflexivity.
    + rewrite Hb6, Hk2. reflexivity.
    + rewrite Hb7, Hk3. reflexivity.
  - cbn [set_latest latest_store]. rewrite Hlat. exact Him.
Qed.

(** X14.  Saves survive power cycles.  On two erased partitions that do not
    overlap, each from 47 to 65321 bytes long with at least six bytes behind
    its last whole record, on a device that writes bytes and erases: after
    the saves [Ss] a load on a freshly initialised handle returns 0, leaves
    the caller's buffer as it was and caches the last payload of [Ss], and
    the next load on that handle hands this payload to the caller; the
    saves [Ts] on that handle succeed, and after them the same holds of a
    freshly initialised handle with the last payload of [Ss ++ Ts] (the
    default settings when nothing was saved).  At most 65535 saves in
    all. *)
Theorem saves_survive_power_cycles st0 s0 Ss Ts fuel fuel' buf :
  erased (nv_mem st0 id) (part_base desc npa)
    (part_base desc npa + p_size npa) ->
  erased (nv_mem st0 id) (part_base desc npb)
    (part_base desc npb + p_size npb) ->
  fresh_handle crc_ccitt s0 area pa pb ->
  Z.of_nat (List.length Ss) + Z.of_nat (List.length Ts) <= 65535 ->
  (Z.to_nat (p_size npa) < fuel')%nat ->
  (Z.to_nat (p_size npb) < fuel')%nat ->
  exists tr1 s1 st1 s2 tr2 s3 st3 s4,
    save_seq crc_ccitt tab fuel st0 s0 Ss = Some (tr1, s1, st1) /\
    settings_storage_load fuel' st1 fresh buf = Some (0, s2, buf) /\
    settings (latest_store s2)
    = last (map settings_image Ss) (settings_image default_settings) /\
    settings_storage_load fuel' st1 s2 buf
    = Some (0, s2,
            last (map settings_image Ss) (settings_image default_settings)) /\
    save_seq crc_ccitt tab fuel st1 s2 Ts = Some (tr2, s3, st3) /\
    settings_storage_load fuel' st3 fresh buf = Some (0, s4, buf) /\
    settings (latest_store s4)
    = last (map settings_image (Ss ++ Ts)) (settings_image default_settings) /\
    settings_storage_load fuel' st3 s4 buf
    = Some (0, s4,
            last (map settings_image (Ss ++ Ts))
              (settings_image default_settings)).
Proof.
  intros HeA HeB Hfresh Hlen HfA HfB.
  pose proof (fresh_store_sound area pa pb desc npa npb HroomA HroomB
                _ _ HeA HeB Hfresh) as Hinv0.
  destruct (save_seq_sound area pa pb desc npa npb Hdesc HpA HpB HfitA HfitB
              HwrA HwrB HroomA HroomB Hapart fuel Ss st0 s0 0 _ Hinv0
              ltac:(lia))
    as (tr1 & s1 & st1 & c1 & Hrun1 & Hinv1 & Hc1).
  destruct (load_restores fuel' st1 s1 c1 _ buf Hinv1 HfA HfB)
    as (s2 & Hload2 & Hinv2 & Hs2).
  destruct (save_seq_sound area pa pb desc npa npb Hdesc HpA HpB HfitA HfitB
              HwrA HwrB HroomA HroomB Hapart fuel Ts st1 s2 c1 _ Hinv2
              ltac:(lia))
    as (tr2 & s3 & st3 & c3 & Hrun2 & Hinv3 & Hc3).
  destruct (load_restores fuel' st3 s3 c3 _ buf Hinv3 HfA HfB)
    as (s4 & Hload4 & _ & Hs4).
  assert (Hagain : forall st s x,
            settings_storage_load fuel' st fresh buf = Some (0, s, buf) ->
            settings (latest_store s) = x ->
            settings_storage_load fuel' st s buf = Some (0, s, x)).
  { intros st s x Hl <-. apply load_success_initializes in Hl.
    unfold settings_storage_load. rewrite Hl. reflexivity. }
  rewrite map_app, last_app_default.
  exists tr1, s1, st1, s2, tr2, s3, st3, s4.
  repeat match goal with |- _ /\ _ => split end;
    try assumption; apply Hagain; assumption.
Qed.

End Reboot.

(** ** Devices without an erase operation *)

Section Rewritable.

Variables (area part : Z) (desc : nvmDescriptor) (np : nvmPartition).
Hypothesis Hdesc : nvm_getDesc tab (to_u32 area) = Some desc.
Hypothesis Hpart : nvm_getPart tab (to_u32 area) (to_u32 part) = (0, np).
Hypothesis Hfit : part_fits desc np.
Hypothesis Hrw : part_rewritable desc.

Local Abbreviation id := (dev_id (dev desc)).
Local Abbreviation base := (part_base desc np).

Lemma nvm_write_bytes st o data :
  0 <= o -> o + Z.of_nat (List.length data) <= p_size np ->
  nvm_write tab st (to_u32 area) (to_u32 part) o data
  = (0, commit (EvWrite (dev desc) (base + o) data) st).
Proof.
  intros Ho Hin. destruct Hfit as (Hb & Hpo & Hps & Hdev & Hmax).
  destruct Hrw as (Hw & Hws & _).
  unfold nvm_write. rewrite Hpart. cbn [Z.ltb Z.compare].
  rewrite to_size_small by lia.
  destruct (o + Z.of_nat (List.length data) >? p_size np) eqn:E;
    [rewrite Z.gtb_ltb in E; apply Z.ltb_lt in E; lia|].
  rewrite Hdesc. unfold nvm_devWrite, ops_write_hook.
  rewrite Hw, Hws, !Z.mod_1_r. cbn [negb Z.eqb].
  rewrite (to_u32_small (o + p_offset np)) by lia.
  rewrite to_u32_small by lia.
  destruct (baseAddr desc + (o + p_offset np) + Z.of_nat (List.length data)
            <=? dev_size (dev desc)) eqn:E2; [|apply Z.leb_gt in E2; lia].
  replace (baseAddr desc + (o + p_offset np)) with (base + o)
    by (unfold part_base; lia).
  reflexivity.
Qed.

Lemma nvm_erase_unsupported st :
  nvm_erase tab st (to_u32 area) (to_u32 part) 0 (p_size np)
  = (- ENOTSUP, st).
Proof.
  destruct Hfit as (Hb & Hpo & Hps & Hdev & Hmax).
  destruct Hrw as (_ & _ & He & _).
  unfold nvm_erase. rewrite Hpart. cbn [Z.ltb Z.compare].
  rewrite to_size_small by lia.
  replace (0 + p_size np >? p_size np) with false
    by (symmetry; rewrite Z.gtb_ltb; apply Z.ltb_ge; lia).
  rewrite Hdesc. unfold nvm_devErase. rewrite He. reflexivity.
Qed.

Lemma blanked_refl m a : blanked m m a a.
Proof.
  intros x. destruct ((a <=? x) && (x <? a)) eqn:E; [|reflexivity].
  apply andb_true_iff in E. destruct E as (E1 & E2).
  apply Z.leb_le in E1. apply Z.ltb_lt in E2. lia.
Qed.

Lemma blanked_step m m'' b c k :
  b + Z.of_nat k <= c ->
  blanked (mem_store false m b (repeat 255 k)) m'' (b + Z.of_nat k) c ->
  blanked m m'' b c.
Proof.
  intros Hc Hm x. rewrite Hm. unfold mem_store.
  rewrite repeat_length.
  destruct ((b + Z.of_nat k <=? x) && (x <? c)) eqn:E1.
  - apply andb_true_iff in E1. destruct E1 as (E1 & E2).
    apply Z.leb_le in E1. apply Z.ltb_lt in E2.
    replace ((b <=? x) && (x <? c)) with true
      by (symmetry; apply andb_true_iff; split;
          [apply Z.leb_le|apply Z.ltb_lt]; lia).
    reflexivity.
  - destruct ((b <=? x) && (x <? b + Z.of_nat k)) eqn:E2.
    + apply andb_true_iff in E2. destruct E2 as (E2 & E3).
      apply Z.leb_le in E2. apply Z.ltb_lt in E3.
      replace ((b <=? x) && (x <? c)) with true
        by (symmetry; apply andb_true_iff; split;
            [apply Z.leb_le|apply Z.ltb_lt]; lia).
      rewrite nth_repeat_lt by lia. reflexivity.
    + replace ((b <=? x) && (x <? c)) with false; [reflexivity|].
      symmetry. apply andb_false_iff.
      apply andb_false_iff in E1. apply andb_false_iff in E2.
      destruct (Z_lt_le_dec x b); [left; apply Z.leb_gt; lia|].
      right. apply Z.ltb_ge.
      destruct E2 as [E2|E2]; [apply Z.leb_gt in E2; lia|].
      apply Z.ltb_ge in E2.
      destruct E1 as [E1|E1]; [apply Z.leb_gt in E1; lia|].
      apply Z.ltb_ge in E1. lia.
Qed.

(** The loop that writes words of [0xFF]. *)
Lemma fill_words_run fuel : forall st i bound,
  0 <= i -> i <= p_size np -> bound + 4 <= p_size np ->
  (Z.to_nat (bound - i) < fuel)%nat ->
  exists i' st',
    fill_words fuel st area part bound i = Some (0, i', st') /\
    i <= i' <= p_size np /\ bound <= i' /\
    blanked (nv_mem st id) (nv_mem st' id) (base + i) (base + i').
Proof.
  destruct Hfit as (Hb & Hpo & Hps & Hdev & Hmax).
  induction fuel as [|fuel IH]; intros st i bound Hi Hsz Hbound Hfuel;
    [lia|].
  simpl.
  destruct (i <? bound) eqn:E.
  - apply Z.ltb_lt in E.
    rewrite nvm_write_bytes by (cbn [List.length]; lia).
    cbn [Z.ltb Z.compare].
    rewrite to_size_small by lia.
    destruct (IH (commit (EvWrite (dev desc) (base + i) [255; 255; 255; 255])
                    st) (i + 4) bound ltac:(lia) ltac:(lia) Hbound
                ltac:(lia)) as (i' & st' & Hrun & Hi' & Hb' & Hbl).
    exists i', st'. split; [exact Hrun|]. split; [lia|]. split; [exact Hb'|].
    apply (blanked_step _ _ _ _ 4); [lia|].
    cbn [commit nv_mem apply_event] in Hbl. rewrite upd_mem_same in Hbl.
    destruct Hrw as (_ & _ & _ & Hbc). rewrite Hbc in Hbl.
    replace (base + i + Z.of_nat 4) with (base + (i + 4)) by lia.
    exact Hbl.
  - apply Z.ltb_ge in E. exists i, st. split; [reflexivity|].
    split; [lia|]. split; [lia|]. apply blanked_refl.
Qed.

(** The loop that writes single bytes of [0xFF]. *)
Lemma fill_bytes_run fuel : forall st i,
  0 <= i <= p_size np ->
  (Z.to_nat (p_size np - i) < fuel)%nat ->
  exists i' st',
    fill_bytes fuel st area part (p_size np) i = Some (0, i', st') /\
    blanked (nv_mem st id) (nv_mem st' id) (base + i) (base + p_size np).
Proof.
  destruct Hfit as (Hb & Hpo & Hps & Hdev & Hmax).
  induction fuel as [|fuel IH]; intros st i Hi Hfuel; [lia|].
  simpl.
  destruct (i <? p_size np) eqn:E.
  - apply Z.ltb_lt in E.
    rewrite nvm_write_bytes by (cbn [List.length]; lia).
    cbn [Z.ltb Z.compare].
    rewrite to_size_small by lia.
    destruct (IH (commit (EvWrite (dev desc) (base + i) [255]) st) (i + 1)
                ltac:(lia) ltac:(lia)) as (i' & st' & Hrun & Hbl).
    exists i', st'. split; [exact Hrun|].
    apply (blanked_step _ _ _ _ 1); [lia|].
    cbn [commit nv_mem apply_event] in Hbl. rewrite upd_mem_same in Hbl.
    destruct Hrw as (_ & _ & _ & Hbc). rewrite Hbc in Hbl.
    replace (base + i + Z.of_nat 1) with (base + (i + 1)) by lia.
    exact Hbl.
  - apply Z.ltb_ge in E. exists i, st. split; [reflexivity|].
    replace i with (p_size np) by lia. apply blanked_refl.
Qed.

Lemma blanked_trans m1 m2 m3 a b c :
  a <= b <= c -> blanked m1 m2 a b -> blanked m2 m3 b c ->
  blanked m1 m3 a c.
Proof.
  intros Habc H12 H23 x. rewrite H23, H12.
  destruct ((b <=? x) && (x <? c)) eqn:E1;
    destruct ((a <=? x) && (x <? b)) eqn:E2;
    destruct ((a <=? x) && (x <? c)) eqn:E3; try reflexivity; exfalso;
    repeat match goal with
           | H : _ && _ = true |- _ =>
               apply andb_true_iff in H; destruct H
           | H : _ && _ = false |- _ =>
               apply andb_false_iff in H; destruct H
           | H : (_ <=? _) = true |- _ => apply Z.leb_le in H
           | H : (_ <=? _) = false |- _ => apply Z.leb_gt in H
           | H : (_ <? _) = true |- _ => apply Z.ltb_lt in H
           | H : (_ <? _) = false |- _ => apply Z.ltb_ge in H
           end; lia.
Qed.

(** X22.  Where the device has no erase operation, [write_store] blanks
    the partition itself: when an erase is asked for or the record does not
    fit, it overwrites the whole partition with [0xFF], writes the record at
    its start and returns 0 with the offset behind that record; no byte
    outside the partition changes. *)
Theorem write_store_without_erase fuel st store off erase :
  STORE_SIZE <= p_size np ->
  List.length (store_bytes store) = 41%nat ->
  Forall is_byte (store_bytes store) ->
  0 <= off -> off + STORE_SIZE <= UINT32_MAX ->
  erase = true \/ p_size np < off + STORE_SIZE ->
  (Z.to_nat (p_size np) < fuel)%nat ->
  exists st',
    write_store fuel st area part store off erase
    = Some (0, STORE_SIZE, st') /\
    holds (nv_mem st' id) base (store_bytes store) /\
    erased (nv_mem st' id) (base + STORE_SIZE) (base + p_size np) /\
    forall x, x < base \/ base + p_size np <= x ->
              nv_mem st' id x = nv_mem st id x.
Proof.
  intros Hsz Hlen Hbytes Hoff Hmax Hwhy Hfuel.
  pose proof Hfit as (Hb & Hpo & Hps & Hdev & Hdmax).
  unfold write_store. rewrite Hpart. cbn [Z.ltb Z.compare].
  replace (erase || (to_size (off + STORE_SIZE) >? p_size np)) with true.
  2:{ symmetry. apply orb_true_iff.
      destruct Hwhy as [-> | Hfull]; [now left|right].
      rewrite to_size_small by lia. rewrite Z.gtb_ltb. apply Z.ltb_lt.
      exact Hfull. }
  rewrite nvm_erase_unsupported. rewrite Z.eqb_refl.
  rewrite to_size_small by ulia.
  destruct (fill_words_run fuel st 0 (p_size np - 4) ltac:(lia) ltac:(ulia)
              ltac:(lia) ltac:(ulia)) as (i & st2 & Hw & Hi & _ & Hbl2).
  rewrite Hw. cbn [Z.ltb Z.compare].
  destruct (fill_bytes_run fuel st2 i ltac:(lia) ltac:(lia))
    as (i3 & st3 & Hby & Hbl3).
  rewrite Hby. cbn [Z.ltb Z.compare].
  rewrite nvm_write_bytes by (rewrite ?Hlen; ulia).
  cbn [Z.ltb Z.compare].
  eexists. split; [rewrite to_size_small by ulia; reflexivity|].
  cbn [commit nv_mem apply_event]. rewrite upd_mem_same.
  destruct Hrw as (_ & _ & _ & Hbc). rewrite Hbc.
  replace (base + 0) with base by lia.
  assert (Hbl : blanked (nv_mem st id) (nv_mem st3 id) base
                  (base + p_size np)).
  { apply (blanked_trans _ (nv_mem st2 id) _ _ (base + i)); [lia| |exact Hbl3].
    replace base with (base + 0) at 1 by lia. exact Hbl2. }
  split; [|split].
  - unfold holds. apply nth_ext with (d := 0) (d' := 0);
      [apply mem_bytes_length|].
    intros k Hk. rewrite mem_bytes_length in Hk.
    rewrite mem_bytes_nth by exact Hk.
    apply mem_store_written; auto. intros Hc; discriminate Hc.
  - intros x Hx. rewrite mem_store_outside by (rewrite Hlen; ulia).
    rewrite Hbl.
    replace ((base <=? x) && (x <? base + p_size np)) with true;
      [reflexivity|].
    symmetry. apply andb_true_iff.
    split; [apply Z.leb_le|apply Z.ltb_lt]; ulia.
  - intros x Hx. rewrite mem_store_outside by (rewrite Hlen; ulia).
    rewrite Hbl.
    replace ((base <=? x) && (x <? base + p_size np)) with false;
      [reflexivity|].
    symmetry. apply andb_false_iff.
    destruct Hx; [left; apply Z.leb_gt|right; apply Z.ltb_ge]; lia.
Qed.

End Rewritable.

End StoreProofs.

(** ** Termination of the partition walk *)

Lemma parse_walk_zero_length fuel : forall magic,
  parse_walk tab256 fuel looping_nvm 0 1 128 0 0 magic = None.
Proof.
  induction fuel as [|fuel IH]; intros magic; [reflexivity|].
  cbn [parse_walk].
  change (nvm_read tab256 looping_nvm (to_u32 0) (to_u32 1) 0 6)
    with (0, [79; 80; 78; 88; 0; 0]).
  change (to_size (0 + rd16 (skipn 4 [79; 80; 78; 88; 0; 0]))) with 0.
  change (0 <? 128) with true. cbv iota.
  change (0 <? 0) with false. cbv iota.
  change (negb (rd32 [79; 80; 78; 88; 0; 0] =? SETTINGS_MAGIC)) with false.
  cbv iota. apply IH.
Qed.

(** C9 fails on the code: a header with the magic word and a length field of
    zero never advances the offset, so the walk of [parse_partition] does not
    end, whatever the number of steps it is given. *)
Theorem parse_partition_zero_length_diverges :
  forall fuel, parse_partition tab256 fuel looping_nvm 0 1 128 = None.
Proof.
  intros fuel. unfold parse_partition.
  now rewrite parse_walk_zero_length.
Qed.

(** ** Instances on the example device *)

Lemma save_caches_payload_witness :
  exists s' st',
    settings_storage_save crc16_ccitt tab256 8 fresh_nvm ready_handle
      (payload 50) = Some (0, s', st')
    /\ write_needed s' = false
    /\ settings (latest_store s') = settings_image (payload 50).
Proof.
  assert (E : match settings_storage_save crc16_ccitt tab256 8 fresh_nvm
                      ready_handle (payload 50) with
              | Some (r, _, _) => r = 0
              | None => False
              end) by (vm_compute; reflexivity).
  destruct (settings_storage_save crc16_ccitt tab256 8 fresh_nvm ready_handle
              (payload 50)) as [[[r s'] st']|] eqn:Hs; [|contradiction].
  subst r. exists s', st'. split; [reflexivity|].
  exact (save_caches_payload crc16_ccitt tab256 _ _ _ _ _ _ Hs).
Defined.

Lemma save_twice_writes_at_most_once_witness :
  exists s1 st1,
    settings_storage_save crc16_ccitt tab256 8 fresh_nvm ready_handle
      (payload 50) = Some (0, s1, st1)
    /\ settings_storage_save crc16_ccitt tab256 8 st1 s1 (payload 50)
       = Some (0, s1, st1)
    /\ frame_writes (new_events fresh_nvm st1) = 1%nat
    /\ counter (latest_store s1) = 1.
Proof.
  assert (E : match settings_storage_save crc16_ccitt tab256 8 fresh_nvm
                      ready_handle (payload 50) with
              | Some (r, _, _) => r = 0
              | None => False
              end) by (vm_compute; reflexivity).
  destruct (settings_storage_save crc16_ccitt tab256 8 fresh_nvm ready_handle
              (payload 50)) as [[[r s1] st1]|] eqn:Hs; [|contradiction].
  subst r. exists s1, st1. split; [reflexivity|].
  exact (save_twice_writes_at_most_once crc16_ccitt tab256 8 8 fresh_nvm
           ready_handle (payload 50) s1 st1 eq_refl Hs).
Defined.

(** C6 (as stated) fails: saving twice the payload that the handle already
    caches writes no frame at all, not exactly one. *)
Lemma save_twice_may_write_nothing :
  write_needed ready_handle = false
  /\ match settings_storage_save crc16_ccitt tab256 8 fresh_nvm ready_handle
             default_settings with
     | Some (r1, s1, st1) =>
         r1 = 0 /\
         match settings_storage_save crc16_ccitt tab256 8 st1 s1
                 default_settings with
         | Some (r2, s2, st2) =>
             r2 = 0 /\ frame_writes (new_events fresh_nvm st2) = 0%nat
             /\ frame_writes (new_events fresh_nvm st2) <> 1%nat
         | None => False
         end
     | None => False
     end.
Proof.
  split; [reflexivity|]. vm_compute. repeat split. discriminate.
Qed.



(** ** Instances on prepared flash contents *)

Ltac holds_all :=
  repeat lazymatch goal with
  | |- _ /\ _ => split
  | |- holds _ _ _ => unfold holds; vm_compute; reflexivity
  | |- True => exact I
  end.

Ltac layout256 :=
  match goal with
  | |- part_layout _ _ _ _ _ =>
      do 2 eexists;
      split; [reflexivity|]; split; [reflexivity|];
      split; [unfold part_fits, UINT32_MAX; simpl; lia|];
      split; [repeat (constructor; [vm_compute; reflexivity|]); constructor|];
      split; [cbn [chain app]; holds_all|];
      split; [|vm_compute; discriminate]
  end.

Lemma round_trip_leaves_buffer_witness :
  exists s1 st1 s2,
    fst (settings_storage_init crc16_ccitt zero_storage 0 1 2) = 0
    /\ settings_storage_save crc16_ccitt tab256 200 fresh_nvm ready_handle
         (payload 50) = Some (0, s1, st1)
    /\ settings_storage_load crc16_ccitt tab256 200 st1 s1 zero_buffer
       = Some (0, s2, zero_buffer)
    /\ settings (latest_store s2) = settings_image (payload 50)
    /\ zero_buffer <> settings_image (payload 50).
Proof.
  assert (E : match settings_storage_save crc16_ccitt tab256 200 fresh_nvm
                      ready_handle (payload 50) with
              | Some (r1, s1, st1) =>
                  match settings_storage_load crc16_ccitt tab256 200 st1 s1
                          zero_buffer with
                  | Some (r2, s2, _) =>
                      r1 = 0 /\ r2 = 0 /\
                      settings (latest_store s2) = settings_image (payload 50)
                  | None => False
                  end
              | None => False
              end) by (vm_compute; repeat split).
  destruct (settings_storage_save crc16_ccitt tab256 200 fresh_nvm ready_handle
              (payload 50)) as [[[r1 s1] st1]|] eqn:Hs; [|contradiction].
  destruct (settings_storage_load crc16_ccitt tab256 200 st1 s1 zero_buffer)
    as [[[r2 s2] buf']|] eqn:Hl; [|contradiction].
  destruct E as (-> & -> & Hc).
  pose proof (round_trip_leaves_buffer crc16_ccitt tab256 200 fresh_nvm
                zero_storage 0 1 2 (payload 50) 0 s1 st1 zero_buffer 0 s2
                buf' Hs Hl) as Hb.
  subst buf'. exists s1, st1, s2.
  split; [reflexivity|]. split; [reflexivity|]. split; [exact Hl|].
  split; [exact Hc|]. vm_compute. discriminate.
Defined.

Lemma find_latest_corrupt_tail_witness :
  check_store_integrity crc16_ccitt
    (decode (frame_of crc16_ccitt 1 (payload 10))) = 1
  /\ check_store_integrity crc16_ccitt
       (decode (bad_crc (frame_of crc16_ccitt 3 (payload 30)))) = 0
  /\ find_latest_valid_store crc16_ccitt tab256 200 corrupt_tail_nvm 0 1
       zero_store
     = Some (0, decode (bad_crc (frame_of crc16_ccitt 3 (payload 30))), 82).
Proof.
  split; [vm_compute; reflexivity|]. split; [vm_compute; reflexivity|].
  apply (find_latest_corrupt_tail crc16_ccitt tab256 corrupt_tail_nvm 0 1
           [frame_of crc16_ccitt 1 (payload 10)]
           (bad_crc (frame_of crc16_ccitt 3 (payload 30))) 200 zero_store).
  - layout256. apply (all_erased_erased _ 82 46). vm_compute. reflexivity.
  - discriminate.
  - constructor; [vm_compute; reflexivity|constructor].
  - vm_compute. reflexivity.
  - vm_compute. lia.
Defined.

(** C4 (as stated) fails: in scenario D the first load caches A's payload
    but leaves [write_needed] clear. *)
Lemma load_after_torn_write_keeps_write_needed_clear :
  exists s' buf',
    counter (decode (frame_of crc16_ccitt 10 (payload 10))) = 10
    /\ counter (decode (bad_crc (frame_of crc16_ccitt 11 (payload 20)))) = 11
    /\ settings_storage_load crc16_ccitt tab256 200 torn_write_nvm
         ready_handle zero_buffer = Some (0, s', buf')
    /\ settings (latest_store s') = settings_image (payload 10)
    /\ write_needed s' = false
    /\ write_needed s' <> true.
Proof.
  vm_compute. do 2 eexists. repeat split. discriminate.
Qed.

Lemma load_after_torn_write_witness :
  exists s' buf',
    settings_storage_load crc16_ccitt tab256 200 torn_write_nvm ready_handle
      zero_buffer = Some (0, s', buf')
    /\ latest_store s' = decode (frame_of crc16_ccitt 10 (payload 10))
    /\ write_needed s' = false
    /\ initialized s' = true
    /\ part_A_status s' = 1 /\ part_B_status s' = -1.
Proof.
  apply (load_after_torn_write crc16_ccitt tab256 200 torn_write_nvm
           ready_handle zero_buffer
           [] (frame_of crc16_ccitt 10 (payload 10))
           [] (bad_crc (frame_of crc16_ccitt 11 (payload 20)))).
  - reflexivity.
  - layout256. apply (all_erased_erased _ 41 87). vm_compute. reflexivity.
  - vm_compute. reflexivity.
  - vm_compute. reflexivity.
  - layout256. apply (all_erased_erased _ 169 87). vm_compute. reflexivity.
  - vm_compute. reflexivity.
  - vm_compute. reflexivity.
  - vm_compute. lia.
  - vm_compute. lia.
Defined.

Lemma load_picks_greater_counter_witness :
  exists s',
    settings_storage_load crc16_ccitt tab256 200 tie_nvm ready_handle
      zero_buffer = Some (0, s', zero_buffer)
    /\ settings (latest_store s') = settings_image (payload 10)
    /\ counter (latest_store s') = 7
    /\ write_needed s' = false
    /\ zero_buffer <> settings_image (payload 10).
Proof.
  destruct (load_picks_greater_counter crc16_ccitt tab256 200 tie_nvm
              ready_handle zero_buffer
              3 (decode (frame_of crc16_ccitt 7 (payload 10))) 41
              3 (decode (frame_of crc16_ccitt 7 (payload 20))) 41)
    as (s' & Hl & Hs & Hw & _).
  - reflexivity.
  - vm_compute. reflexivity.
  - right. reflexivity.
  - vm_compute. reflexivity.
  - right. reflexivity.
  - exists s'. split; [exact Hl|].
    split; [rewrite Hs; vm_compute; reflexivity|].
    split; [rewrite Hs; vm_compute; reflexivity|].
    split; [rewrite Hw; vm_compute; reflexivity|].
    vm_compute. discriminate.
Defined.

(** C1.  Power loss is not survived everywhere: on two erased partitions of
    64 KiB the first save returns 0; when power is lost after the first five
    bytes of its record (the magic word and the low byte of the length), the
    load on a fresh handle returns [-E2BIG] and hands out no settings, where
    the specification promises the payload or the one before it. *)
Lemma power_loss_load_fails :
  exists s2 st2 s',
    settings_storage_save crc16_ccitt tab128k 4 fresh_nvm ready_handle
      (payload 50) = Some (0, s2, st2) /\
    settings_storage_load crc16_ccitt tab128k 4
      (after_power_loss
         (replay (power_cut 0 5 (new_events fresh_nvm st2))
            (nv_mem fresh_nvm)))
      ready_handle zero_buffer
    = Some (- E2BIG, s', zero_buffer).
Proof.
  assert (H :
    match settings_storage_save crc16_ccitt tab128k 4 fresh_nvm ready_handle
            (payload 50) with
    | Some (r, _, st2) =>
        r = 0 /\
        match settings_storage_load crc16_ccitt tab128k 4
                (after_power_loss
                   (replay (power_cut 0 5 (new_events fresh_nvm st2))
                      (nv_mem fresh_nvm)))
                ready_handle zero_buffer with
        | Some (r', _, buf') => r' = - E2BIG /\ buf' = zero_buffer
        | None => False
        end
    | None => False
    end) by (vm_compute; split; [|split]; reflexivity).
  revert H.
  destruct (settings_storage_save crc16_ccitt tab128k 4 fresh_nvm
              ready_handle (payload 50)) as [[[r s2] st2]|];
    [|contradiction].
  intros (-> & H). exists s2, st2. revert H.
  destruct (settings_storage_load crc16_ccitt tab128k 4
              (after_power_loss
                 (replay (power_cut 0 5 (new_events fresh_nvm st2))
                    (nv_mem fresh_nvm)))
              ready_handle zero_buffer) as [[[r' s'] buf']|];
    [|contradiction].
  intros (-> & ->). exists s'. split; reflexivity.
Qed.

Lemma power_loss_durability_witness :
  exists tr s1 st1 s2 st2,
    save_seq crc16_ccitt tab8k 4 fresh_nvm ready_handle
      [payload 10; payload 20; payload 30] = Some (tr, s1, st1) /\
    settings_storage_save crc16_ccitt tab8k 4 st1 s1 (payload 40)
    = Some (0, s2, st2) /\
    forall e b fuel' buf,
      (Z.to_nat (p_size part8k_A) < fuel')%nat ->
      (Z.to_nat (p_size part8k_B) < fuel')%nat ->
      exists s',
        settings_storage_load crc16_ccitt tab8k fuel'
          (after_power_loss
             (replay (power_cut e b (new_events st1 st2)) (nv_mem st1)))
          ready_handle buf
        = Some (0, s', buf) /\
        (settings (latest_store s') = settings_image (payload 40) \/
         settings (latest_store s')
         = last (map settings_image [payload 10; payload 20; payload 30])
             (settings_image default_settings)).
Proof.
  apply (power_loss_durability crc16_ccitt tab8k 0 1 2 area8k
           part8k_A part8k_B).
  - reflexivity.
  - reflexivity.
  - reflexivity.
  - unfold part_fits, UINT32_MAX. cbn. lia.
  - unfold part_fits, UINT32_MAX. cbn. lia.
  - unfold part_writable. cbn. repeat split; lia.
  - unfold part_writable. cbn. repeat split; lia.
  - unfold part_roomy, STORE_SIZE. cbn. lia.
  - unfold part_roomy, STORE_SIZE. cbn. lia.
  - unfold parts_apart. cbn. lia.
  - intros x _. reflexivity.
  - intros x _. reflexivity.
  - unfold fresh_handle. repeat split.
  - cbn. lia.
  - intros k Hk. cbn [List.length] in Hk.
    assert (Hcases : k = 1%nat \/ k = 2%nat \/ k = 3%nat \/ k = 4%nat)
      by lia.
    destruct Hcases as [-> | [-> | [-> | ->]]]; vm_compute; reflexivity.
Defined.

(** The room behind the last whole record matters: partitions of 128 bytes
    leave five bytes behind three records; after five saves, with no power
    loss at all, the load on a fresh handle returns [-EINVAL]. *)
Lemma full_partition_load_fails :
  match save_seq crc16_ccitt tab256 4 fresh_nvm ready_handle
          [payload 1; payload 2; payload 3; payload 4; payload 5] with
  | Some (tr, _, st) =>
      map fst tr = [1; 2; 3; 4; 5] /\
      match settings_storage_load crc16_ccitt tab256 200
              (after_power_loss (nv_mem st)) ready_handle zero_buffer with
      | Some (r, _, _) => r = - EINVAL
      | None => False
      end
  | None => False
  end.
Proof. vm_compute. split; reflexivity. Qed.

(** * Further properties at concrete inputs *)

Ltac fits256 := unfold part_fits, UINT32_MAX; cbn; lia.

Lemma partition_isolation_witness :
  (forall data st',
     10 + Z.of_nat (List.length data) <= UINT32_MAX ->
     nvm_write tab256 fresh_nvm 0 1 10 data = (0, st') ->
     nv_mem st' 0%nat 200 = nv_mem fresh_nvm 0%nat 200) /\
  (forall sz st',
     0 <= sz -> 10 + sz <= UINT32_MAX ->
     nvm_erase tab256 fresh_nvm 0 1 10 sz = (0, st') ->
     nv_mem st' 0%nat 200 = nv_mem fresh_nvm 0%nat 200).
Proof.
  apply (partition_isolation tab256 0 1 area256 part256_A).
  - reflexivity.
  - reflexivity.
  - fits256.
  - lia.
  - right. right. cbn. lia.
Defined.

Lemma nvm_write_read_back_witness :
  nvm_read tab256 (snd (nvm_write tab256 fresh_nvm 0 2 5 [1; 2; 3])) 0 2 5
    (Z.of_nat (List.length [1; 2; 3]))
  = (0, [1; 2; 3]).
Proof.
  apply (nvm_write_read_back tab256 0 2 area256 part256_B eq_refl eq_refl
           ltac:(fits256) fresh_nvm).
  - lia.
  - unfold UINT32_MAX. cbn. lia.
  - repeat constructor; unfold is_byte; lia.
  - intros _ x _. reflexivity.
  - reflexivity.
Defined.

Lemma nvm_erase_reads_blank_witness :
  nvm_read tab256
    (snd (nvm_erase tab256 (nvm_of [1; 2; 3; 4; 5; 6]) 0 1 0 128)) 0 1 2 3
  = (0, repeat 255 (Z.to_nat 3)).
Proof.
  apply (nvm_erase_reads_blank tab256 0 1 area256 part256_A eq_refl eq_refl
           ltac:(fits256) (nvm_of [1; 2; 3; 4; 5; 6]) 0 128).
  - lia.
  - lia.
  - unfold UINT32_MAX. lia.
  - lia.
  - lia.
  - lia.
  - reflexivity.
Defined.

Ltac chain256 a n :=
  split; [repeat (constructor; [vm_compute; reflexivity|]); constructor|];
  split; [cbn [chain app]; holds_all|];
  split; [apply (all_erased_erased _ a n); vm_compute; reflexivity
         |vm_compute; discriminate].

Lemma parse_partition_finds_last_witness :
  parse_partition tab256 5 two_records_nvm 0 1 128 = Some (0, 41).
Proof.
  apply (parse_partition_finds_last tab256 0 1 area256 part256_A eq_refl
           eq_refl ltac:(fits256) two_records_nvm
           [frame_of crc16_ccitt 2 (payload 20);
            frame_of crc16_ccitt 4 (payload 40)] 128 5).
  - chain256 82 46%nat.
  - vm_compute. reflexivity.
  - cbn. lia.
Defined.

Lemma find_latest_on_sound_partition_witness :
  find_latest_valid_store crc16_ccitt tab256 200 two_records_nvm 0 1
    zero_store
  = Some (3, decode (frame_of crc16_ccitt 4 (payload 40)), 82).
Proof.
  apply (find_latest_on_sound_partition crc16_ccitt tab256 0 1 area256
           part256_A eq_refl eq_refl ltac:(fits256) two_records_nvm
           [frame_of crc16_ccitt 2 (payload 20);
            frame_of crc16_ccitt 4 (payload 40)] 200 zero_store).
  - chain256 82 46%nat.
  - intros pre f0 H.
    change [frame_of crc16_ccitt 2 (payload 20);
            frame_of crc16_ccitt 4 (payload 40)]
      with ([frame_of crc16_ccitt 2 (payload 20)]
            ++ [frame_of crc16_ccitt 4 (payload 40)]) in H.
    apply app_inj_tail in H. destruct H as (_ & <-).
    vm_compute. reflexivity.
  - cbn. lia.
Defined.

Lemma stray_word_makes_partition_corrupt_witness :
  find_latest_valid_store crc16_ccitt tab256 200 stray_word_nvm 0 1
    zero_store
  = Some (0, zero_store, 0).
Proof.
  apply (stray_word_makes_partition_corrupt crc16_ccitt tab256 0 1 area256
           part256_A eq_refl eq_refl ltac:(fits256) stray_word_nvm
           [frame_of crc16_ccitt 2 (payload 20)] 200 zero_store).
  - repeat (constructor; [vm_compute; reflexivity|]); constructor.
  - cbn [chain app]. holds_all.
  - vm_compute. discriminate.
  - vm_compute. discriminate.
  - vm_compute. discriminate.
  - cbn. lia.
Defined.

Ltac writable8k := unfold part_writable; cbn; repeat split; lia.
Ltac roomy8k := unfold part_roomy, STORE_SIZE; cbn; lia.

Lemma write_store_then_find_witness :
  exists off' st',
    write_store tab8k 4 fresh_nvm 0 1
      (snd (update_settings_store crc16_ccitt (payload 30)
              (snd (default_settings_store crc16_ccitt))))
      (STORE_SIZE * Z.of_nat (@List.length (list Z) [])) false
    = Some (0, off', st') /\
    find_latest_valid_store crc16_ccitt tab8k (Z.to_nat 5000) st' 0 1
      zero_store
    = Some (3,
            snd (update_settings_store crc16_ccitt (payload 30)
                   (snd (default_settings_store crc16_ccitt))),
            off').
Proof.
  apply (write_store_then_find crc16_ccitt tab8k 0 1 area8k part8k_A eq_refl
           eq_refl ltac:(fits256) ltac:(writable8k) ltac:(roomy8k)
           fresh_nvm [] (payload 30) (snd (default_settings_store crc16_ccitt))
           4%nat (Z.to_nat 5000) zero_store).
  - split; [constructor|]. split; [exact I|].
    split; [intros x _; reflexivity | vm_compute; discriminate].
  - reflexivity.
  - cbn [part8k_A p_size]. lia.
Defined.

Lemma load_needs_both_partitions_witness :
  (fst (nvm_getPart tab256 (to_u32 (s_dev lost_handle))
          (to_u32 (part_A lost_handle))) <> 0 ->
   settings_storage_load crc16_ccitt tab256 200 fresh_nvm lost_handle
     zero_buffer
   = Some (- EINVAL, lost_handle, zero_buffer)) /\
  (forall rA sA oA,
     find_latest_valid_store crc16_ccitt tab256 200 fresh_nvm
       (s_dev lost_handle) (part_A lost_handle) zero_store
     = Some (rA, sA, oA) ->
     0 <= rA ->
     fst (nvm_getPart tab256 (to_u32 (s_dev lost_handle))
            (to_u32 (part_B lost_handle))) <> 0 ->
     exists s',
       settings_storage_load crc16_ccitt tab256 200 fresh_nvm lost_handle
         zero_buffer
       = Some (- EINVAL, s', zero_buffer) /\
       initialized s' = false).
Proof.
  apply (load_needs_both_partitions crc16_ccitt tab256 200 fresh_nvm
           lost_handle zero_buffer).
  reflexivity.
Defined.

Lemma load_then_load_witness :
  settings_storage_load crc16_ccitt tab256 1 looping_nvm
    (set_latest ready_handle (snd (default_settings_store crc16_ccitt))
       true true)
    zero_buffer
  = Some (0,
          set_latest ready_handle (snd (default_settings_store crc16_ccitt))
            true true,
          settings
            (latest_store
               (set_latest ready_handle
                  (snd (default_settings_store crc16_ccitt)) true true))).
Proof.
  apply (load_then_load crc16_ccitt tab256 200 fresh_nvm ready_handle
           zero_buffer _ zero_buffer 1 looping_nvm zero_buffer).
  vm_compute. reflexivity.
Defined.

Lemma load_on_erased_store_witness :
  exists s',
    settings_storage_load crc16_ccitt tab256 200 fresh_nvm ready_handle
      zero_buffer = Some (0, s', zero_buffer) /\
    latest_store s' = snd (default_settings_store crc16_ccitt) /\
    write_needed s' = true /\ initialized s' = true /\
    part_A_status s' = 0 /\ part_B_status s' = 0 /\
    part_A_offset s' = 0 /\ part_B_offset s' = 0.
Proof.
  apply (load_on_erased_store crc16_ccitt tab256 200 fresh_nvm ready_handle
           zero_buffer).
  - reflexivity.
  - exists area256, part256_A. split; [reflexivity|]. split; [reflexivity|].
    split; [fits256|]. split; [constructor|]. split; [exact I|].
    split; [intros x _; reflexivity | vm_compute; discriminate].
  - exists area256, part256_B. split; [reflexivity|]. split; [reflexivity|].
    split; [fits256|]. split; [constructor|]. split; [exact I|].
    split; [intros x _; reflexivity | vm_compute; discriminate].
  - lia.
Defined.

Lemma pending_write_is_written_witness :
  exists s' st',
    settings_storage_save crc16_ccitt tab256 4 fresh_nvm pending_handle
      (payload 100) = Some (0, s', st') /\
    frame_writes (new_events fresh_nvm st') = 1%nat /\
    latest_store s'
    = snd (update_settings_store crc16_ccitt (payload 100)
             (latest_store pending_handle)) /\
    write_needed s' = false.
Proof.
  assert (H : match settings_storage_save crc16_ccitt tab256 4 fresh_nvm
                      pending_handle (payload 100) with
              | Some (r, _, _) => r = 0
              | None => False
              end) by (vm_compute; reflexivity).
  revert H.
  destruct (settings_storage_save crc16_ccitt tab256 4 fresh_nvm
              pending_handle (payload 100)) as [[[r s'] st']|] eqn:E;
    [|contradiction].
  intros ->. exists s', st'. split; [reflexivity|].
  apply (pending_write_is_written crc16_ccitt tab256 4 fresh_nvm
           pending_handle (payload 100) s' st'); [reflexivity | exact E].
Defined.

Lemma failed_save_keeps_update_witness :
  exists s' st',
    settings_storage_save crc16_ccitt tab256 4 fresh_nvm lost_handle
      (payload 50) = Some (- EINVAL, s', st') /\
    - EINVAL < 0 /\
    latest_store s'
    = snd (update_settings_store crc16_ccitt (payload 50)
             (latest_store lost_handle)) /\
    write_needed s' = true /\
    frame_writes (new_events fresh_nvm st') = 0%nat.
Proof.
  assert (H : match settings_storage_save crc16_ccitt tab256 4 fresh_nvm
                      lost_handle (payload 50) with
              | Some (r, _, _) => r = - EINVAL
              | None => False
              end) by (vm_compute; reflexivity).
  revert H.
  destruct (settings_storage_save crc16_ccitt tab256 4 fresh_nvm
              lost_handle (payload 50)) as [[[r s'] st']|] eqn:E;
    [|contradiction].
  intros ->. exists s', st'. split; [reflexivity|].
  apply (failed_save_keeps_update crc16_ccitt tab256 4 fresh_nvm
           lost_handle (payload 50) (- EINVAL) s' st');
    [exact E | discriminate].
Defined.

Lemma saves_survive_power_cycles_witness :
  exists tr1 s1 st1 s2 tr2 s3 st3 s4,
    save_seq crc16_ccitt tab8k 4 fresh_nvm ready_handle
      [payload 10; payload 20] = Some (tr1, s1, st1) /\
    settings_storage_load crc16_ccitt tab8k (Z.to_nat 5000) st1 ready_handle
      zero_buffer = Some (0, s2, zero_buffer) /\
    settings (latest_store s2)
    = last (map settings_image [payload 10; payload 20])
        (settings_image default_settings) /\
    settings_storage_load crc16_ccitt tab8k (Z.to_nat 5000) st1 s2
      zero_buffer
    = Some (0, s2,
            last (map settings_image [payload 10; payload 20])
              (settings_image default_settings)) /\
    save_seq crc16_ccitt tab8k 4 st1 s2 [payload 30] = Some (tr2, s3, st3) /\
    settings_storage_load crc16_ccitt tab8k (Z.to_nat 5000) st3 ready_handle
      zero_buffer = Some (0, s4, zero_buffer) /\
    settings (latest_store s4)
    = last (map settings_image ([payload 10; payload 20] ++ [payload 30]))
        (settings_image default_settings) /\
    settings_storage_load crc16_ccitt tab8k (Z.to_nat 5000) st3 s4
      zero_buffer
    = Some (0, s4,
            last (map settings_image ([payload 10; payload 20]
                                      ++ [payload 30]))
              (settings_image default_settings)).
Proof.
  apply (saves_survive_power_cycles crc16_ccitt tab8k 0 1 2 area8k
           part8k_A part8k_B).
  - reflexivity.
  - reflexivity.
  - reflexivity.
  - fits256.
  - fits256.
  - writable8k.
  - writable8k.
  - roomy8k.
  - roomy8k.
  - unfold parts_apart. cbn. lia.
  - intros x _. reflexivity.
  - intros x _. reflexivity.
  - unfold fresh_handle. repeat split.
  - cbn. lia.
  - cbn [part8k_A p_size]. lia.
  - cbn [part8k_B p_size]. lia.
Defined.

Lemma write_store_without_erase_witness :
  exists st',
    write_store tab_file 200 (nvm_of [1; 2; 3]) 0 1
      (snd (default_settings_store crc16_ccitt)) 0 true
    = Some (0, STORE_SIZE, st') /\
    holds (nv_mem st' (dev_id (dev area_file)))
      (part_base area_file part256_A)
      (store_bytes (snd (default_settings_store crc16_ccitt))) /\
    erased (nv_mem st' (dev_id (dev area_file)))
      (part_base area_file part256_A + STORE_SIZE)
      (part_base area_file part256_A + p_size part256_A) /\
    forall x,
      x < part_base area_file part256_A \/
      part_base area_file part256_A + p_size part256_A <= x ->
      nv_mem st' (dev_id (dev area_file)) x
      = nv_mem (nvm_of [1; 2; 3]) (dev_id (dev area_file)) x.
Proof.
  apply (write_store_without_erase tab_file 0 1 area_file part256_A eq_refl
           eq_refl ltac:(fits256) ltac:(repeat split)).
  - vm_compute. discriminate.
  - reflexivity.
  - apply (frame_of_bytes crc16_ccitt 0 default_settings).
  - lia.
  - vm_compute. discriminate.
  - now left.
  - cbn. lia.
Defined.

(** * Properties of the user functions *)

Module UserFunctionsFacts.

Import UserFunctions.

Lemma replace_nth_length l : forall i p,
  List.length (replace_nth l i p) = List.length l.
Proof.
  induction l as [|x l IH]; intros [|i] p; cbn [replace_nth List.length];
    auto.
Qed.

Lemma nth_replace_nth_same l : forall i p d,
  (i < List.length l)%nat -> nth i (replace_nth l i p) d = p.
Proof.
  induction l as [|x l IH]; intros [|i] p d Hi; cbn [List.length] in Hi;
    try lia; cbn [replace_nth nth]; [reflexivity|].
  apply IH. lia.
Qed.

Lemma nth_replace_nth_other l : forall i j p d,
  i <> j -> nth j (replace_nth l i p) d = nth j l d.
Proof.
  induction l as [|x l IH]; intros [|i] [|j] p d Hne;
    cbn [replace_nth nth]; try reflexivity; try contradiction.
  apply IH. lia.
Qed.

Lemma entry_set_entry_same st id p :
  0 <= id < Z.of_nat (List.length (user_functions st)) ->
  entry (set_entry st id p) id = p.
Proof.
  intros H. unfold entry, set_entry. cbn [user_functions].
  apply nth_replace_nth_same. lia.
Qed.

Lemma entry_set_entry_other st id j p :
  0 <= id -> 0 <= j -> id <> j ->
  entry (set_entry st id p) j = entry st j.
Proof.
  intros Hi Hj Hne. unfold entry, set_entry. cbn [user_functions].
  apply nth_replace_nth_other. lia.
Qed.

Lemma entry_beyond st j :
  Z.of_nat (List.length (user_functions st)) <= j -> entry st j = zero_param.
Proof. intros H. unfold entry. apply nth_overflow. lia. Qed.

Lemma table_ok_set_entry config st id p :
  table_ok config st -> table_ok config (set_entry st id p).
Proof.
  unfold table_ok, set_entry. cbn [user_functions].
  now rewrite replace_nth_length.
Qed.

Section Facts.

Variable CONFIG_USER_FUNCTIONS : Z.
Variables USER_FUNCTION_ASYNC USER_FUNCTION_1HZ USER_FUNCTION_10HZ
  USER_FUNCTION_20HZ USER_FUNCTION_50HZ USER_FUNCTION_100HZ : Z.

Local Abbreviation add := (user_functions_add CONFIG_USER_FUNCTIONS).
Local Abbreviation remove := (user_functions_remove CONFIG_USER_FUNCTIONS).
Local Abbreviation trigger := (user_functions_trigger CONFIG_USER_FUNCTIONS).
Local Abbreviation enable := (user_functions_enable CONFIG_USER_FUNCTIONS).
Local Abbreviation disable := (user_functions_disable CONFIG_USER_FUNCTIONS).
Local Abbreviation terminate :=
  (user_functions_terminate CONFIG_USER_FUNCTIONS).
Local Abbreviation ok := (table_ok CONFIG_USER_FUNCTIONS).

(** X15.  Registration: [user_functions_add] of a function that is not
    [NULL] on a free slot returns 0 and stores the function, its argument
    and its scheduling, disabled and due at the current time; the other
    slots keep their entries; every further add on that slot returns
    [EADDRINUSE] and changes nothing. *)
Theorem add_registers_once st id fn a sched now :
  ok st -> 0 <= id < CONFIG_USER_FUNCTIONS -> f (entry st id) = None ->
  exists st',
    add id (Some fn) a sched now st = (0, st') /\
    entry st' id = {| f := Some fn; arg := a; next_exec := to_u32 now;
                      scheduling := sched; enabled := false |} /\
    (forall j, 0 <= j -> j <> id -> entry st' j = entry st j) /\
    forall fn' a' sched' now',
      add id fn' a' sched' now' st' = (EADDRINUSE, st').
Proof.
  intros Hok Hid Hfree. unfold user_functions_add.
  replace (id >=? CONFIG_USER_FUNCTIONS) with false
    by (symmetry; rewrite Z.geb_leb; apply Z.leb_gt; lia).
  rewrite Hfree. eexists. split; [reflexivity|].
  unfold table_ok in Hok.
  split; [apply entry_set_entry_same; lia|].
  split; [intros j Hj Hne; apply entry_set_entry_other; lia|].
  intros fn' a' sched' now'.
  rewrite entry_set_entry_same by lia. reflexivity.
Qed.

(** X16.  [user_functions_remove] frees the slot and disables it, so that a
    later add succeeds; it leaves a trigger or an expiry that is pending for
    the slot in place. *)
Theorem remove_frees_slot st id fn a sched now :
  ok st -> 0 <= id < CONFIG_USER_FUNCTIONS ->
  exists st1 st2,
    remove id st = (0, st1) /\
    f (entry st1 id) = None /\ enabled (entry st1 id) = false /\
    unlocked_async_tasks st1 = unlocked_async_tasks st /\
    expired_tasks st1 = expired_tasks st /\
    add id fn a sched now st1 = (0, st2) /\
    f (entry st2 id) = fn.
Proof.
  intros Hok Hid. unfold user_functions_remove, user_functions_add.
  replace (id >=? CONFIG_USER_FUNCTIONS) with false
    by (symmetry; rewrite Z.geb_leb; apply Z.leb_gt; lia).
  unfold table_ok in Hok.
  do 2 eexists. split; [reflexivity|].
  rewrite entry_set_entry_same by lia. cbn [f enabled].
  repeat split.
  rewrite entry_set_entry_same
    by (cbn [set_entry user_functions]; rewrite replace_nth_length; lia).
  reflexivity.
Qed.

Lemma disable_run n : forall st,
  Z.of_nat n <= CONFIG_USER_FUNCTIONS ->
  Z.of_nat (List.length (user_functions st)) = CONFIG_USER_FUNCTIONS ->
  let st' := fold_left (fun st i => snd (disable (Z.of_nat i) st))
               (seq 0 n) st in
  List.length (user_functions st') = List.length (user_functions st) /\
  unlocked_async_tasks st' = unlocked_async_tasks st /\
  expired_tasks st' = expired_tasks st /\
  calls st' = calls st /\
  forall j, 0 <= j ->
    entry st' j = (if j <? Z.of_nat n then set_enabled (entry st j) false
                   else entry st j).
Proof.
  induction n as [|n IH]; intros st Hn Hok.
  - cbn [seq fold_left]. repeat split. intros j Hj.
    replace (j <? Z.of_nat 0) with false
      by (symmetry; apply Z.ltb_ge; lia).
    reflexivity.
  - rewrite seq_S, fold_left_app. cbn [fold_left Nat.add].
    destruct (IH st ltac:(lia) Hok) as (Hl & Ha & He & Hc & Hent).
    set (st1 := fold_left (fun st i => snd (disable (Z.of_nat i) st))
                  (seq 0 n) st) in *.
    unfold user_functions_disable.
    replace (Z.of_nat n >=? CONFIG_USER_FUNCTIONS) with false
      by (symmetry; rewrite Z.geb_leb; apply Z.leb_gt; lia).
    cbn [snd set_entry user_functions unlocked_async_tasks expired_tasks
         calls].
    rewrite replace_nth_length.
    repeat split; try assumption.
    intros j Hj.
    destruct (Z.eq_dec j (Z.of_nat n)) as [->|Hne].
    + change (entry {| user_functions := _; unlocked_async_tasks := _;
                       expired_tasks := _; uf_wakeup_time := _;
                       calls := _ |} (Z.of_nat n))
        with (entry (set_entry st1 (Z.of_nat n)
                       (set_enabled (entry st1 (Z.of_nat n)) false))
                (Z.of_nat n)).
      rewrite entry_set_entry_same by lia.
      rewrite Hent by lia.
      replace (Z.of_nat n <? Z.of_nat n) with false
        by (symmetry; apply Z.ltb_ge; lia).
      replace (Z.of_nat n <? Z.of_nat (S n)) with true
        by (symmetry; apply Z.ltb_lt; lia).
      reflexivity.
    + change (entry {| user_functions := _; unlocked_async_tasks := _;
                       expired_tasks := _; uf_wakeup_time := _;
                       calls := _ |} j)
        with (entry (set_entry st1 (Z.of_nat n)
                       (set_enabled (entry st1 (Z.of_nat n)) false)) j).
      rewrite entry_set_entry_other by lia.
      rewrite Hent by lia.
      destruct (j <? Z.of_nat n) eqn:E1.
      * apply Z.ltb_lt in E1.
        replace (j <? Z.of_nat (S n)) with true
          by (symmetry; apply Z.ltb_lt; lia).
        reflexivity.
      * apply Z.ltb_ge in E1.
        replace (j <? Z.of_nat (S n)) with false
          by (symmetry; apply Z.ltb_ge; lia).
        reflexivity.
Qed.

(** X17.  [user_functions_terminate] disables every function and nothing
    else: the functions stay registered with their arguments, schedules and
    due times, and the triggers and expiries that are pending stay
    pending. *)
Theorem terminate_disables_all st :
  ok st -> 0 <= CONFIG_USER_FUNCTIONS ->
  (forall j, 0 <= j ->
     entry (terminate st) j = set_enabled (entry st j) false) /\
  unlocked_async_tasks (terminate st) = unlocked_async_tasks st /\
  expired_tasks (terminate st) = expired_tasks st /\
  calls (terminate st) = calls st.
Proof.
  intros Hok Hc. unfold table_ok in Hok.
  destruct (disable_run (Z.to_nat CONFIG_USER_FUNCTIONS) st ltac:(lia) Hok)
    as (_ & Ha & He & Hcl & Hent).
  unfold user_functions_terminate.
  repeat split; try assumption.
  intros j Hj. rewrite Hent by exact Hj.
  destruct (j <? Z.of_nat (Z.to_nat CONFIG_USER_FUNCTIONS)) eqn:E;
    [reflexivity|].
  apply Z.ltb_ge in E. rewrite entry_beyond by lia. reflexivity.
Qed.

End Facts.

(** ** Bit masks *)

Lemma bit_testbit i j :
  0 <= i < 32 -> Z.testbit (bit i) j = (i =? j).
Proof.
  intros Hi. unfold bit, to_u32. rewrite Z.shiftl_1_l.
  rewrite Z.mod_small.
  - apply Z.pow2_bits_eqb. lia.
  - split; [apply Z.pow_nonneg; lia|].
    change 4294967296 with (2 ^ 32). apply Z.pow_lt_mono_r; lia.
Qed.

Lemma clear_bit_testbit x i j :
  0 <= i < 32 -> 0 <= j < 32 ->
  Z.testbit (clear_bit x i) j = Z.testbit x j && negb (i =? j).
Proof.
  intros Hi Hj. unfold clear_bit, to_u32. rewrite Z.land_spec.
  change 4294967296 with (2 ^ 32).
  rewrite Z.mod_pow2_bits_low by lia.
  rewrite Z.lnot_spec by lia. rewrite Z.shiftl_1_l.
  rewrite Z.pow2_bits_eqb by lia. reflexivity.
Qed.

Lemma clear_bit_fits x i : fits_u32 (clear_bit x i).
Proof.
  intros j Hj. unfold clear_bit, to_u32. rewrite Z.land_spec.
  change 4294967296 with (2 ^ 32).
  rewrite Z.mod_pow2_bits_high by lia. apply andb_false_r.
Qed.

Lemma fits_u32_zero m :
  fits_u32 m -> (forall j, 0 <= j < 32 -> Z.testbit m j = false) -> m = 0.
Proof.
  intros Hf Hz. apply Z.bits_inj'. intros j Hj. rewrite Z.bits_0.
  destruct (Z_lt_le_dec j 32); [apply Hz; lia | apply Hf; lia].
Qed.

Lemma ctz_from_spec n : forall i x,
  0 <= i ->
  i <= ctz_from n i x <= i + Z.of_nat n /\
  (forall j, i <= j < ctz_from n i x -> Z.testbit x j = false) /\
  (ctz_from n i x < i + Z.of_nat n ->
   Z.testbit x (ctz_from n i x) = true).
Proof.
  induction n as [|n IH]; intros i x Hi; cbn [ctz_from].
  - split; [lia|]. split; [intros j Hj; lia | intros H; lia].
  - destruct (Z.testbit x i) eqn:E.
    + split; [lia|]. split; [intros j Hj; lia | intros _; exact E].
    + destruct (IH (i + 1) x ltac:(lia)) as (Hr & Hlow & Hset).
      split; [lia|]. split.
      * intros j Hj. destruct (Z.eq_dec j i) as [->|Hne]; [exact E|].
        apply Hlow. lia.
      * intros H. apply Hset. lia.
Qed.

Lemma filter_none {A} (p : A -> bool) l :
  (forall x, In x l -> p x = false) -> filter p l = [].
Proof.
  induction l as [|x l IH]; intros H; [reflexivity|].
  cbn [filter]. rewrite (H x (or_introl eq_refl)).
  apply IH. intros y Hy. apply H. now right.
Qed.

Lemma seq_split3 n r :
  (r < n)%nat -> seq 0 n = seq 0 r ++ r :: seq (S r) (n - S r).
Proof.
  intros H. replace n with (r + S (n - S r))%nat at 1 by lia.
  rewrite seq_app. reflexivity.
Qed.

Lemma filter_seq_head (p : nat -> bool) n : forall a i rest,
  filter p (seq a n) = i :: rest ->
  (a <= i < a + n)%nat /\ p i = true /\
  (forall j, (a <= j < i)%nat -> p j = false) /\
  rest = filter p (seq (S i) (a + n - S i)).
Proof.
  induction n as [|n IH]; intros a i rest H; [discriminate H|].
  cbn [seq filter] in H. destruct (p a) eqn:E.
  - injection H as <- <-. split; [lia|]. split; [exact E|].
    split; [intros j Hj; lia|].
    replace (a + S n - S a)%nat with n by lia. reflexivity.
  - destruct (IH (S a) i rest H) as (Hi & Hp & Hlow & Hrest).
    split; [lia|]. split; [exact Hp|]. split.
    + intros j Hj. destruct (Nat.eq_dec j a) as [->|Hne]; [exact E|].
      apply Hlow. lia.
    + rewrite Hrest. f_equal. f_equal. lia.
Qed.

(** The lowest set bit heads the list of set bits, and clearing it leaves
    the others. *)
Lemma bits_below_first n m i rest :
  (n <= 32)%nat ->
  bits_below n m = i :: rest ->
  (i < n)%nat /\ Z.testbit m (Z.of_nat i) = true /\
  (forall j, (j < i)%nat -> Z.testbit m (Z.of_nat j) = false) /\
  bits_below n (clear_bit m (Z.of_nat i)) = rest /\ ~ In i rest.
Proof.
  intros Hn H. unfold bits_below in H.
  apply filter_seq_head in H. destruct H as (Hi & Hbit & Hlow & Hrest).
  split; [lia|]. split; [exact Hbit|].
  split; [intros j Hj; apply Hlow; lia|]. split.
  - unfold bits_below. rewrite (seq_split3 n i) by lia.
    rewrite filter_app. cbn [filter].
    rewrite clear_bit_testbit by lia. rewrite Z.eqb_refl, andb_false_r.
    rewrite filter_none.
    + cbn [app]. rewrite Hrest.
      replace (0 + n - S i)%nat with (n - S i)%nat by lia.
      apply filter_ext_in. intros x Hx. apply in_seq in Hx.
      rewrite clear_bit_testbit by lia.
      replace (Z.of_nat i =? Z.of_nat x) with false
        by (symmetry; apply Z.eqb_neq; lia).
      apply andb_true_r.
    + intros x Hx. apply in_seq in Hx.
      rewrite clear_bit_testbit by lia. rewrite Hlow by lia. reflexivity.
  - rewrite Hrest. intros Hin. apply filter_In in Hin.
    destruct Hin as (Hin & _). apply in_seq in Hin. lia.
Qed.

Lemma ctz_first m i :
  (i < 32)%nat -> Z.testbit m (Z.of_nat i) = true ->
  (forall j, (j < i)%nat -> Z.testbit m (Z.of_nat j) = false) ->
  ctz m = Z.of_nat i.
Proof.
  intros Hi Hbit Hlow. unfold ctz.
  destruct (ctz_from_spec 32 0 m ltac:(lia)) as (Hr & Hzero & Hset).
  remember (ctz_from 32 0 m) as r eqn:Er. clear Er.
  change (Z.of_nat 32) with 32 in *.
  destruct (Z_lt_le_dec r (Z.of_nat i)) as [Hlt|Hge].
  - specialize (Hset ltac:(lia)).
    specialize (Hlow (Z.to_nat r) ltac:(lia)).
    rewrite Z2Nat.id in Hlow by lia. congruence.
  - destruct (Z.eq_dec r (Z.of_nat i)) as [He|Hne]; [exact He|].
    specialize (Hzero (Z.of_nat i) ltac:(lia)). congruence.
Qed.

Lemma bits_below_nil n m :
  n = 32%nat -> fits_u32 m -> bits_below n m = [] -> m = 0.
Proof.
  intros Hn Hf H. apply fits_u32_zero; [exact Hf|]. intros j Hj.
  destruct (Z.testbit m j) eqn:E; [|reflexivity]. exfalso.
  assert (Hin : In (Z.to_nat j) (bits_below n m)).
  { apply filter_In. split; [apply in_seq; lia|].
    now rewrite Z2Nat.id by lia. }
  rewrite H in Hin. destruct Hin.
Qed.

Lemma bits_below_nonzero n m i rest : bits_below n m = i :: rest -> m <> 0.
Proof.
  intros H ->. unfold bits_below in H.
  rewrite filter_none in H; [discriminate|].
  intros x _. apply Z.bits_0.
Qed.

(** ** Serving the pending functions *)

Lemma to_u8_index i : (i < 32)%nat -> to_u8 (Z.of_nat i) = Z.of_nat i.
Proof. intros H. unfold to_u8. apply Z.mod_small. lia. Qed.

Lemma entry_registered st i :
  f (entry st (Z.of_nat i)) <> None ->
  0 <= Z.of_nat i < Z.of_nat (List.length (user_functions st)).
Proof.
  intros H. split; [lia|].
  destruct (Z_lt_le_dec (Z.of_nat i)
              (Z.of_nat (List.length (user_functions st)))) as [Hlt|Hge];
    [exact Hlt|].
  rewrite entry_beyond in H by exact Hge. now contradiction H.
Qed.

(** The loop [while(unlocked_async_tasks)] over the first pending
    functions [pre], all of them set. *)
Lemma async_prefix n pre : forall st fuel rest,
  n = 32%nat -> fits_u32 (unlocked_async_tasks st) ->
  bits_below n (unlocked_async_tasks st) = pre ++ rest ->
  (forall i, In i pre -> f (entry st (Z.of_nat i)) <> None) ->
  exists m',
    service_async (List.length pre + fuel) st
    = service_async fuel
        {| user_functions := user_functions st;
           unlocked_async_tasks := m';
           expired_tasks := expired_tasks st;
           uf_wakeup_time := uf_wakeup_time st;
           calls := calls st
                    ++ map (fun i => call_of (entry st (Z.of_nat i))) pre |}
    /\ bits_below n m' = rest /\ fits_u32 m'.
Proof.
  induction pre as [|i pre IH]; intros st fuel rest Hn Hfit Hbits Hreg.
  - exists (unlocked_async_tasks st). cbn [List.length Nat.add map app].
    rewrite app_nil_r. destruct st; cbn. auto.
  - cbn [app] in Hbits.
    destruct (bits_below_first n _ i (pre ++ rest) ltac:(lia) Hbits)
      as (Hi & Hbit & Hlow & Hrest & Hnotin).
    assert (Hi32 : (i < 32)%nat) by lia.
    pose proof (ctz_first _ i Hi32 Hbit Hlow) as Hctz.
    pose proof (bits_below_nonzero _ _ _ _ Hbits) as Hnz.
    cbn [List.length Nat.add service_async].
    replace (unlocked_async_tasks st =? 0) with false
      by (symmetry; apply Z.eqb_neq; exact Hnz).
    rewrite Hctz, to_u8_index by exact Hi32.
    change (entry (set_async st
                     (clear_bit (unlocked_async_tasks st) (Z.of_nat i)))
              (Z.of_nat i)) with (entry st (Z.of_nat i)).
    destruct (f (entry st (Z.of_nat i))) as [fn|] eqn:Ef;
      [|exfalso; apply (Hreg i (or_introl eq_refl)); exact Ef].
    set (st1 := log_call
                  (set_async st
                     (clear_bit (unlocked_async_tasks st) (Z.of_nat i)))
                  fn (arg (entry st (Z.of_nat i)))).
    destruct (IH st1 fuel rest Hn (clear_bit_fits _ _) Hrest
                ltac:(intros k Hk; apply (Hreg k); now right))
      as (m' & Hrun & Hb & Hf).
    exists m'. split; [|auto].
    rewrite Hrun. f_equal. unfold st1, log_call, set_async.
    cbn [user_functions unlocked_async_tasks expired_tasks uf_wakeup_time
         calls map].
    f_equal. rewrite <- app_assoc. cbn [app]. do 2 f_equal.
    unfold call_of. rewrite Ef. reflexivity.
Qed.

Section Service.

Variable CONFIG_USER_FUNCTIONS : Z.

Local Abbreviation remove := (user_functions_remove CONFIG_USER_FUNCTIONS).
Local Abbreviation trigger := (user_functions_trigger CONFIG_USER_FUNCTIONS).

(** X18.  The loop over the triggered functions calls each function whose
    bit is set in [unlocked_async_tasks] once, in the order of their
    indices and whether or not it is enabled, and leaves the mask empty and
    the table as it was. *)
Theorem async_serves_triggered st fuel :
  fits_u32 (unlocked_async_tasks st) ->
  (forall i, In i (bits_below 32 (unlocked_async_tasks st)) ->
             f (entry st (Z.of_nat i)) <> None) ->
  (List.length (bits_below 32 (unlocked_async_tasks st)) < fuel)%nat ->
  exists st',
    service_async fuel st = Served st' /\
    unlocked_async_tasks st' = 0 /\
    calls st'
    = calls st ++ map (fun i => call_of (entry st (Z.of_nat i)))
                    (bits_below 32 (unlocked_async_tasks st)) /\
    user_functions st' = user_functions st /\
    expired_tasks st' = expired_tasks st.
Proof.
  intros Hfit Hreg Hfuel.
  remember 32%nat as n eqn:Hn.
  set (L := bits_below n (unlocked_async_tasks st)) in *.
  destruct (async_prefix n L st (fuel - List.length L) [] Hn Hfit
              ltac:(now rewrite app_nil_r) Hreg)
    as (m' & Hrun & Hb & Hf).
  replace (List.length L + (fuel - List.length L))%nat with fuel in Hrun
    by lia.
  rewrite Hrun.
  pose proof (bits_below_nil n m' Hn Hf Hb) as ->.
  destruct (fuel - List.length L)%nat as [|k] eqn:Ek; [lia|].
  cbn [service_async unlocked_async_tasks Z.eqb].
  eexists. split; [reflexivity|]. repeat split.
Qed.

(** X19.  A trigger survives the removal of its function: after
    [user_functions_trigger] and [user_functions_remove] on the same slot,
    the loop over the triggered functions reaches the call of the null
    pointer that the removal left. *)
Theorem removed_function_is_still_called st id fuel :
  table_ok CONFIG_USER_FUNCTIONS st ->
  0 <= id < CONFIG_USER_FUNCTIONS -> CONFIG_USER_FUNCTIONS <= 32 ->
  unlocked_async_tasks st = 0 ->
  (0 < fuel)%nat ->
  exists st',
    service_async fuel (snd (remove id (snd (trigger id st))))
    = NullCall id st' /\
    calls st' = calls st.
Proof.
  intros Hok Hid Hcfg Hmask Hfuel.
  unfold user_functions_trigger, user_functions_remove.
  replace (id >=? CONFIG_USER_FUNCTIONS) with false
    by (symmetry; rewrite Z.geb_leb; apply Z.leb_gt; lia).
  cbn [snd]. rewrite Hmask. cbn [Z.lor].
  destruct fuel as [|fuel]; [lia|].
  cbn [service_async set_entry set_async unlocked_async_tasks].
  assert (Hbit : bit id <> 0).
  { intros H0. pose proof (bit_testbit id id ltac:(lia)) as Hb.
    rewrite H0, Z.bits_0, Z.eqb_refl in Hb. discriminate Hb. }
  replace (bit id =? 0) with false by (symmetry; apply Z.eqb_neq; exact Hbit).
  assert (Hctz : ctz (bit id) = id).
  { rewrite <- (Z2Nat.id id) at 2 by lia.
    apply ctz_first; [lia | |].
    - rewrite Z2Nat.id by lia. rewrite bit_testbit by lia.
      apply Z.eqb_refl.
    - intros j Hj. rewrite bit_testbit by lia. apply Z.eqb_neq. lia. }
  rewrite Hctz.
  replace (to_u8 id) with id
    by (symmetry; unfold to_u8; apply Z.mod_small; lia).
  unfold table_ok in Hok.
  match goal with
  | |- context [f (entry ?s id)] =>
      replace (f (entry s id)) with (@None Z)
  end.
  - eexists. split; [reflexivity|]. reflexivity.
  - symmetry. unfold entry, set_async, set_entry. cbn [user_functions].
    rewrite nth_replace_nth_same by lia. reflexivity.
Qed.

Variables USER_FUNCTION_ASYNC USER_FUNCTION_1HZ USER_FUNCTION_10HZ
  USER_FUNCTION_20HZ USER_FUNCTION_50HZ USER_FUNCTION_100HZ : Z.

Local Abbreviation advance :=
  (advance USER_FUNCTION_1HZ USER_FUNCTION_10HZ USER_FUNCTION_20HZ
     USER_FUNCTION_50HZ USER_FUNCTION_100HZ).
Local Abbreviation service_expired :=
  (service_expired USER_FUNCTION_1HZ USER_FUNCTION_10HZ USER_FUNCTION_20HZ
     USER_FUNCTION_50HZ USER_FUNCTION_100HZ).

Lemma expired_run n L : forall st fuel,
  n = 32%nat -> fits_u32 (expired_tasks st) ->
  bits_below n (expired_tasks st) = L ->
  (forall i, In i L -> f (entry st (Z.of_nat i)) <> None) ->
  (List.length L < fuel)%nat ->
  exists st',
    service_expired fuel st = Served st' /\
    expired_tasks st' = 0 /\
    unlocked_async_tasks st' = unlocked_async_tasks st /\
    calls st'
    = calls st ++ map (fun i => call_of (entry st (Z.of_nat i))) L /\
    forall j,
      (In j L -> entry st' (Z.of_nat j) = advance (entry st (Z.of_nat j))) /\
      (~ In j L -> entry st' (Z.of_nat j) = entry st (Z.of_nat j)).
Proof.
  induction L as [|i L IH]; intros st fuel Hn Hfit Hbits Hreg Hfuel.
  - pose proof (bits_below_nil n _ Hn Hfit Hbits) as Hz.
    destruct fuel as [|fuel]; [cbn in Hfuel; lia|].
    cbn [service_expired UserFunctions.service_expired]. rewrite Hz.
    cbn [Z.eqb]. exists st. split; [reflexivity|].
    cbn [map]. rewrite app_nil_r. repeat split; auto.
    intros H; destruct H.
  - destruct (bits_below_first n _ i L ltac:(lia) Hbits)
      as (Hi & Hbit & Hlow & Hrest & Hnotin).
    assert (Hi32 : (i < 32)%nat) by lia.
    pose proof (ctz_first _ i Hi32 Hbit Hlow) as Hctz.
    pose proof (bits_below_nonzero _ _ _ _ Hbits) as Hnz.
    pose proof (entry_registered st i (Hreg i (or_introl eq_refl))) as Hlen.
    destruct fuel as [|fuel]; [cbn in Hfuel; lia|].
    cbn [service_expired UserFunctions.service_expired].
    replace (expired_tasks st =? 0) with false
      by (symmetry; apply Z.eqb_neq; exact Hnz).
    rewrite Hctz, to_u8_index by exact Hi32.
    change (entry (set_expired st
                     (clear_bit (expired_tasks st) (Z.of_nat i)))
              (Z.of_nat i)) with (entry st (Z.of_nat i)).
    destruct (f (entry st (Z.of_nat i))) as [fn|] eqn:Ef;
      [|exfalso; apply (Hreg i (or_introl eq_refl)); exact Ef].
    set (stb := log_call
                  (set_expired st
                     (clear_bit (expired_tasks st) (Z.of_nat i)))
                  fn (arg (entry st (Z.of_nat i)))).
    change (entry stb (Z.of_nat i)) with (entry st (Z.of_nat i)).
    set (st1 := set_entry stb (Z.of_nat i) (advance (entry st (Z.of_nat i)))).
    assert (Hsame : entry st1 (Z.of_nat i) = advance (entry st (Z.of_nat i))).
    { unfold st1. apply entry_set_entry_same. exact Hlen. }
    assert (Hother : forall k, k <> i ->
              entry st1 (Z.of_nat k) = entry st (Z.of_nat k)).
    { intros k Hk. unfold st1.
      rewrite entry_set_entry_other by lia. reflexivity. }
    destruct (IH st1 fuel Hn (clear_bit_fits _ _) Hrest) as
      (st' & Hrun & He & Ha & Hc & Hent).
    + intros k Hk. rewrite Hother by (intros ->; contradiction).
      apply Hreg. now right.
    + cbn [List.length] in Hfuel. lia.
    + exists st'. split; [exact Hrun|]. split; [exact He|].
      split; [exact Ha|]. split.
      * rewrite Hc. unfold st1, stb, set_entry, log_call, set_expired.
        cbn [calls map]. rewrite <- app_assoc. cbn [app]. do 2 f_equal.
        -- unfold call_of. rewrite Ef. reflexivity.
        -- apply map_ext_in. intros k Hk.
           fold stb. fold st1.
           change (entry (set_entry stb (Z.of_nat i)
                            (advance (entry st (Z.of_nat i)))) (Z.of_nat k))
             with (entry st1 (Z.of_nat k)).
           rewrite Hother by (intros ->; contradiction). reflexivity.
      * intros j. destruct (Hent j) as (Hin & Hout). split.
        -- intros [<- | Hj].
           ++ rewrite Hout by exact Hnotin. exact Hsame.
           ++ rewrite Hin by exact Hj.
              rewrite Hother by (intros ->; contradiction). reflexivity.
        -- intros Hj. rewrite Hout by (intros H; apply Hj; now right).
           apply Hother. intros ->. apply Hj. now left.
Qed.

(** X20.  The loop over the expired functions calls each function whose bit
    is set in [expired_tasks] once, in the order of their indices, adds the
    period of its scheduling to its due time (modulo 2^32), and leaves the
    mask empty; the other entries and the pending triggers are untouched. *)
Theorem expired_are_served_and_rescheduled st fuel :
  fits_u32 (expired_tasks st) ->
  (forall i, In i (bits_below 32 (expired_tasks st)) ->
             f (entry st (Z.of_nat i)) <> None) ->
  (List.length (bits_below 32 (expired_tasks st)) < fuel)%nat ->
  exists st',
    service_expired fuel st = Served st' /\
    expired_tasks st' = 0 /\
    unlocked_async_tasks st' = unlocked_async_tasks st /\
    calls st'
    = calls st ++ map (fun i => call_of (entry st (Z.of_nat i)))
                    (bits_below 32 (expired_tasks st)) /\
    forall j, 0 <= j ->
      entry st' j = (if Z.testbit (expired_tasks st) j
                     then advance (entry st j) else entry st j).
Proof.
  intros Hfit Hreg Hfuel.
  destruct (expired_run 32 _ st fuel eq_refl Hfit eq_refl Hreg Hfuel)
    as (st' & Hrun & He & Ha & Hc & Hent).
  exists st'. split; [exact Hrun|]. split; [exact He|].
  split; [exact Ha|]. split; [exact Hc|].
  intros j Hj. destruct (Hent (Z.to_nat j)) as (Hin & Hout).
  rewrite Z2Nat.id in Hin, Hout by exact Hj.
  assert (Hmem : Z.testbit (expired_tasks st) j = true <->
                 In (Z.to_nat j) (bits_below 32 (expired_tasks st))).
  { unfold bits_below. rewrite filter_In, in_seq.
    rewrite Z2Nat.id by exact Hj. split; [|tauto].
    intros Eb. split; [|exact Eb].
    destruct (Z_lt_le_dec j 32) as [Hlt|Hge].
    - split; [apply Nat.le_0_l|]. apply (Z2Nat.inj_lt j 32); lia.
    - rewrite Hfit in Eb by exact Hge. discriminate Eb. }
  destruct (Z.testbit (expired_tasks st) j) eqn:Eb.
  - apply Hin, Hmem. reflexivity.
  - apply Hout. intros H. apply Hmem in H. discriminate H.
Qed.

Local Abbreviation periodic := (periodic USER_FUNCTION_ASYNC).
Local Abbreviation select_step := (select_step USER_FUNCTION_ASYNC).
Local Abbreviation task_select :=
  (task_select CONFIG_USER_FUNCTIONS USER_FUNCTION_ASYNC).

Lemma select_run st e0 k :
  (k <= 32)%nat ->
  (forall i, (i < k)%nat -> next_exec (entry st (Z.of_nat i)) < INT64_MAX) ->
  let acc := fold_left (select_step st) (seq 0 k) (INT64_MAX, e0) in
  (forall i, (i < k)%nat -> periodic (entry st (Z.of_nat i)) = true ->
             fst acc <= next_exec (entry st (Z.of_nat i))) /\
  ((forall i, (i < k)%nat -> periodic (entry st (Z.of_nat i)) = false) ->
   acc = (INT64_MAX, e0)) /\
  ((exists i, (i < k)%nat /\ periodic (entry st (Z.of_nat i)) = true) ->
   fst acc < INT64_MAX /\
   forall j, 0 <= j ->
     Z.testbit (snd acc) j
     = (j <? Z.of_nat k) && periodic (entry st j)
       && (next_exec (entry st j) =? fst acc)).
Proof.
  induction k as [|k IH]; intros Hk Hne.
  - cbn [seq fold_left fst snd]. split; [intros i Hi; lia|].
    split; [reflexivity|]. intros (i & Hi & _). lia.
  - cbn zeta. rewrite seq_S, fold_left_app. cbn [Nat.add fold_left].
    destruct (IH ltac:(lia) ltac:(intros i Hi; apply Hne; lia))
      as (Hmin & Hnone & Hsome).
    destruct (fold_left (select_step st) (seq 0 k) (INT64_MAX, e0))
      as [next expired] eqn:Eacc.
    cbn [fst snd] in Hmin, Hnone, Hsome.
    assert (Hcase : (forall i, (i < k)%nat ->
                       periodic (entry st (Z.of_nat i)) = false) \/
                    (exists i, (i < k)%nat /\
                       periodic (entry st (Z.of_nat i)) = true)).
    { clear. induction k as [|k IHk]; [left; intros i Hi; lia|].
      destruct IHk as [Hall | (i & Hi & Hp)];
        [|right; exists i; split; [lia|exact Hp]].
      destruct (periodic (entry st (Z.of_nat k))) eqn:E.
      - right. exists k. split; [lia|exact E].
      - left. intros i Hi. destruct (Nat.eq_dec i k) as [->|Hn];
          [exact E|apply Hall; lia]. }
    unfold UserFunctions.select_step.
    fold (periodic (entry st (Z.of_nat k))).
    destruct (periodic (entry st (Z.of_nat k))) eqn:Ek.
    + (* entry k takes part *)
      pose proof (Hne k ltac:(lia)) as Hnek.
      destruct (next_exec (entry st (Z.of_nat k)) <? next) eqn:Elt.
      * apply Z.ltb_lt in Elt. cbn [fst snd].
        split; [|split].
        -- intros i Hi Hp. destruct (Nat.eq_dec i k) as [->|Hn]; [lia|].
           specialize (Hmin i ltac:(lia) Hp). lia.
        -- intros Hall. rewrite Hall in Ek by lia. discriminate Ek.
        -- intros _. split; [exact Hnek|]. intros j Hj.
           rewrite bit_testbit by lia.
           destruct (Z.eq_dec (Z.of_nat k) j) as [<-|Hn].
           ++ rewrite !Z.eqb_refl, Ek.
              replace (Z.of_nat k <? Z.of_nat (S k)) with true
                by (symmetry; apply Z.ltb_lt; lia).
              reflexivity.
           ++ replace (Z.of_nat k =? j) with false
                by (symmetry; apply Z.eqb_neq; exact Hn).
              symmetry.
              destruct (j <? Z.of_nat (S k)) eqn:Ej; [|reflexivity].
              apply Z.ltb_lt in Ej. cbn [andb].
              destruct (UserFunctions.periodic USER_FUNCTION_ASYNC
                          (entry st j)) eqn:Ep; [|reflexivity].
              cbn [andb]. apply Z.eqb_neq.
              specialize (Hmin (Z.to_nat j) ltac:(lia)).
              rewrite Z2Nat.id in Hmin by lia.
              specialize (Hmin Ep). lia.
      * apply Z.ltb_ge in Elt.
        destruct Hcase as [Hall | Hex];
          [pose proof (Hnone Hall) as Hq; injection Hq as -> ->; lia|].
        destruct (Hsome Hex) as (Hlt & Hbits).
        destruct (next_exec (entry st (Z.of_nat k)) =? next) eqn:Eeq.
        -- apply Z.eqb_eq in Eeq. cbn [fst snd].
           split; [|split].
           ++ intros i Hi Hp. destruct (Nat.eq_dec i k) as [->|Hn]; [lia|].
              apply Hmin; [lia|exact Hp].
           ++ intros Hall. rewrite Hall in Ek by lia. discriminate Ek.
           ++ intros _. split; [exact Hlt|]. intros j Hj.
              rewrite Z.lor_spec, Hbits by exact Hj.
              rewrite bit_testbit by lia.
              destruct (Z.eq_dec (Z.of_nat k) j) as [<-|Hn].
              ** rewrite Z.eqb_refl, Ek, Eeq, Z.eqb_refl.
                 replace (Z.of_nat k <? Z.of_nat (S k)) with true
                   by (symmetry; apply Z.ltb_lt; lia).
                 apply orb_true_r.
              ** replace (Z.of_nat k =? j) with false
                   by (symmetry; apply Z.eqb_neq; exact Hn).
                 rewrite orb_false_r.
                 replace (j <? Z.of_nat (S k)) with (j <? Z.of_nat k);
                   [reflexivity|].
                 destruct (j <? Z.of_nat k) eqn:E1; symmetry;
                   [apply Z.ltb_lt in E1; apply Z.ltb_lt
                   |apply Z.ltb_ge in E1; apply Z.ltb_ge]; lia.
        -- apply Z.eqb_neq in Eeq. cbn [fst snd].
           split; [|split].
           ++ intros i Hi Hp. destruct (Nat.eq_dec i k) as [->|Hn]; [lia|].
              apply Hmin; [lia|exact Hp].
           ++ intros Hall. rewrite Hall in Ek by lia. discriminate Ek.
           ++ intros _. split; [exact Hlt|]. intros j Hj.
              rewrite Hbits by exact Hj.
              destruct (Z.eq_dec (Z.of_nat k) j) as [<-|Hn].
              ** replace (Z.of_nat k <? Z.of_nat k) with false
                   by (symmetry; apply Z.ltb_ge; lia).
                 replace (next_exec (entry st (Z.of_nat k)) =? next)
                   with false by (symmetry; apply Z.eqb_neq; exact Eeq).
                 cbn [andb]. now rewrite andb_false_r.
              ** replace (j <? Z.of_nat (S k)) with (j <? Z.of_nat k);
                   [reflexivity|].
                 destruct (j <? Z.of_nat k) eqn:E1; symmetry;
                   [apply Z.ltb_lt in E1; apply Z.ltb_lt
                   |apply Z.ltb_ge in E1; apply Z.ltb_ge]; lia.
    + (* entry k does not take part *)
      cbn [fst snd]. split; [|split].
      * intros i Hi Hp. destruct (Nat.eq_dec i k) as [->|Hn];
          [rewrite Hp in Ek; discriminate Ek|].
        apply Hmin; [lia|exact Hp].
      * intros Hall. apply Hnone. intros i Hi. apply Hall. lia.
      * intros (i & Hi & Hp).
        assert (Hex : exists i, (i < k)%nat /\
                        periodic (entry st (Z.of_nat i)) = true).
        { exists i. split; [|exact Hp].
          destruct (Nat.eq_dec i k) as [->|Hn];
            [rewrite Hp in Ek; discriminate Ek|lia]. }
        destruct (Hsome Hex) as (Hlt & Hbits).
        split; [exact Hlt|]. intros j Hj. rewrite Hbits by exact Hj.
        destruct (Z.eq_dec (Z.of_nat k) j) as [<-|Hn].
        -- replace (Z.of_nat k <? Z.of_nat k) with false
             by (symmetry; apply Z.ltb_ge; lia).
           rewrite Ek. cbn [andb]. now rewrite andb_false_r.
        -- replace (j <? Z.of_nat (S k)) with (j <? Z.of_nat k);
             [reflexivity|].
           destruct (j <? Z.of_nat k) eqn:E1; symmetry;
             [apply Z.ltb_lt in E1; apply Z.ltb_lt
             |apply Z.ltb_ge in E1; apply Z.ltb_ge]; lia.
Qed.

(** The time that the loop has found is the due time of one of the
    functions that take part, unless it is still [INT64_MAX]. *)
Lemma select_attained st e0 k :
  let acc := fold_left (select_step st) (seq 0 k) (INT64_MAX, e0) in
  fst acc = INT64_MAX \/
  exists i, (i < k)%nat /\ periodic (entry st (Z.of_nat i)) = true /\
            next_exec (entry st (Z.of_nat i)) = fst acc.
Proof.
  induction k as [|k IH]; [left; reflexivity|].
  cbn zeta in *. rewrite seq_S, fold_left_app. cbn [Nat.add fold_left].
  destruct (fold_left (select_step st) (seq 0 k) (INT64_MAX, e0))
    as [next expired].
  cbn [fst] in IH.
  assert (Hkeep : next = INT64_MAX \/
                  exists i, (i < S k)%nat /\
                            periodic (entry st (Z.of_nat i)) = true /\
                            next_exec (entry st (Z.of_nat i)) = next).
  { destruct IH as [IH | (i & Hi & Hp & Hn)]; [left; exact IH|].
    right. exists i. split; [lia|]. split; assumption. }
  unfold UserFunctions.select_step.
  fold (periodic (entry st (Z.of_nat k))).
  destruct (periodic (entry st (Z.of_nat k))) eqn:Ek; [|exact Hkeep].
  destruct (next_exec (entry st (Z.of_nat k)) <? next).
  - right. exists k. split; [lia|]. split; [exact Ek|reflexivity].
  - destruct (next_exec (entry st (Z.of_nat k)) =? next); exact Hkeep.
Qed.

(** X21.  The first loop of [user_functions_task] selects the enabled
    periodic functions that are due first: its [next_exec] is the least due
    time among them, the due time of at least one of them, and
    [expired_tasks] has exactly the bits of those due at that time.  With no
    enabled periodic function [next_exec] stays [INT64_MAX] and
    [expired_tasks] keeps the value it had. *)
Theorem select_picks_earliest st :
  0 <= CONFIG_USER_FUNCTIONS <= 32 ->
  (forall i, 0 <= i < CONFIG_USER_FUNCTIONS ->
             next_exec (entry st i) < INT64_MAX) ->
  user_functions (snd (task_select st)) = user_functions st /\
  unlocked_async_tasks (snd (task_select st)) = unlocked_async_tasks st /\
  (forall i, 0 <= i < CONFIG_USER_FUNCTIONS ->
     periodic (entry st i) = true ->
     fst (task_select st) <= next_exec (entry st i)) /\
  ((forall i, 0 <= i < CONFIG_USER_FUNCTIONS ->
      periodic (entry st i) = false) ->
   fst (task_select st) = INT64_MAX /\
   expired_tasks (snd (task_select st)) = expired_tasks st) /\
  ((exists i, 0 <= i < CONFIG_USER_FUNCTIONS /\
      periodic (entry st i) = true) ->
   (exists i, 0 <= i < CONFIG_USER_FUNCTIONS /\
      periodic (entry st i) = true /\
      next_exec (entry st i) = fst (task_select st)) /\
   forall j, 0 <= j ->
     Z.testbit (expired_tasks (snd (task_select st))) j
     = (j <? CONFIG_USER_FUNCTIONS) && periodic (entry st j)
       && (next_exec (entry st j) =? fst (task_select st))).
Proof.
  intros Hcfg Hne.
  pose proof (select_run st (expired_tasks st)
                (Z.to_nat CONFIG_USER_FUNCTIONS) ltac:(lia)) as Hrun.
  pose proof (select_attained st (expired_tasks st)
                (Z.to_nat CONFIG_USER_FUNCTIONS)) as Hatt.
  cbn zeta in Hrun, Hatt.
  destruct Hrun as (Hmin & Hnone & Hsome).
  { intros i Hi. apply Hne. lia. }
  unfold UserFunctions.task_select.
  destruct (fold_left (select_step st)
              (seq 0 (Z.to_nat CONFIG_USER_FUNCTIONS))
              (INT64_MAX, expired_tasks st)) as [next expired] eqn:Eacc.
  cbn [fst snd set_expired user_functions unlocked_async_tasks
       expired_tasks] in *.
  split; [reflexivity|]. split; [reflexivity|]. split; [|split].
  - intros i Hi Hp. specialize (Hmin (Z.to_nat i) ltac:(lia)).
    rewrite Z2Nat.id in Hmin by lia. exact (Hmin Hp).
  - intros Hall.
    assert (Hq : (next, expired) = (INT64_MAX, expired_tasks st)).
    { apply Hnone. intros i Hi. apply Hall. lia. }
    injection Hq as -> ->. split; reflexivity.
  - intros (i & Hi & Hp).
    destruct Hsome as (Hlt & Hbits).
    { exists (Z.to_nat i). split; [lia|].
      now rewrite Z2Nat.id by lia. }
    split.
    + destruct Hatt as [Hmax | (k & Hk & Hpk & Hnk)]; [lia|].
      exists (Z.of_nat k). split; [lia|]. split; assumption.
    + intros j Hj. rewrite Hbits by exact Hj.
      now rewrite Z2Nat.id by lia.
Qed.

End Service.

(** ** At concrete tables *)

Lemma add_registers_once_witness :
  exists st',
    user_functions_add 4 2 (Some 700) 7 1 123456 empty_state = (0, st') /\
    entry st' 2 = {| f := Some 700; arg := 7; next_exec := to_u32 123456;
                     scheduling := 1; enabled := false |} /\
    (forall j, 0 <= j -> j <> 2 -> entry st' j = entry empty_state j) /\
    forall fn' a' sched' now',
      user_functions_add 4 2 fn' a' sched' now' st' = (EADDRINUSE, st').
Proof.
  apply (add_registers_once 4 empty_state 2 700 7 1 123456).
  - reflexivity.
  - lia.
  - reflexivity.
Defined.

Lemma remove_frees_slot_witness :
  exists st1 st2,
    user_functions_remove 4 1 busy_state = (0, st1) /\
    f (entry st1 1) = None /\ enabled (entry st1 1) = false /\
    unlocked_async_tasks st1 = unlocked_async_tasks busy_state /\
    expired_tasks st1 = expired_tasks busy_state /\
    user_functions_add 4 1 (Some 900) 9 3 50 st1 = (0, st2) /\
    f (entry st2 1) = Some 900.
Proof.
  apply (remove_frees_slot 4 busy_state 1 (Some 900) 9 3 50).
  - reflexivity.
  - lia.
Defined.

Lemma terminate_disables_all_witness :
  (forall j, 0 <= j ->
     entry (user_functions_terminate 4 busy_state) j
     = set_enabled (entry busy_state j) false) /\
  unlocked_async_tasks (user_functions_terminate 4 busy_state)
  = unlocked_async_tasks busy_state /\
  expired_tasks (user_functions_terminate 4 busy_state)
  = expired_tasks busy_state /\
  calls (user_functions_terminate 4 busy_state) = calls busy_state.
Proof.
  apply (terminate_disables_all 4 busy_state).
  - reflexivity.
  - lia.
Defined.

Lemma busy_bits_registered m :
  m = 9 \/ m = 6 ->
  forall i, In i (bits_below 32 m) ->
            f (entry busy_state (Z.of_nat i)) <> None.
Proof.
  intros [-> | ->] i Hi; vm_compute in Hi;
    repeat (destruct Hi as [<- | Hi]; [discriminate|]); destruct Hi.
Qed.

Lemma small_fits m : 0 <= m < 4294967296 -> fits_u32 m.
Proof.
  intros H j Hj. apply Z.bits_above_log2; [lia|].
  destruct (Z.eq_dec m 0) as [->|Hn]; [cbn; lia|].
  apply Z.log2_lt_pow2; [lia|].
  apply Z.lt_le_trans with (2 ^ 32); [cbn; lia|].
  apply Z.pow_le_mono_r; lia.
Qed.

Lemma async_serves_triggered_witness :
  exists st',
    service_async 5 busy_state = Served st' /\
    unlocked_async_tasks st' = 0 /\
    calls st'
    = calls busy_state
      ++ map (fun i => call_of (entry busy_state (Z.of_nat i)))
           (bits_below 32 (unlocked_async_tasks busy_state)) /\
    user_functions st' = user_functions busy_state /\
    expired_tasks st' = expired_tasks busy_state.
Proof.
  apply (async_serves_triggered busy_state 5).
  - apply small_fits. cbn. lia.
  - apply busy_bits_registered. now left.
  - vm_compute. lia.
Defined.

Lemma removed_function_is_still_called_witness :
  exists st',
    service_async 1
      (snd (user_functions_remove 4 2
              (snd (user_functions_trigger 4 2 empty_state))))
    = NullCall 2 st' /\
    calls st' = calls empty_state.
Proof.
  apply (removed_function_is_still_called 4 empty_state 2 1).
  - reflexivity.
  - lia.
  - lia.
  - reflexivity.
  - lia.
Defined.

Lemma expired_are_served_and_rescheduled_witness :
  exists st',
    service_expired 1 2 3 4 5 5 busy_state = Served st' /\
    expired_tasks st' = 0 /\
    unlocked_async_tasks st' = unlocked_async_tasks busy_state /\
    calls st'
    = calls busy_state
      ++ map (fun i => call_of (entry busy_state (Z.of_nat i)))
           (bits_below 32 (expired_tasks busy_state)) /\
    forall j, 0 <= j ->
      entry st' j = (if Z.testbit (expired_tasks busy_state) j
                     then advance 1 2 3 4 5 (entry busy_state j)
                     else entry busy_state j).
Proof.
  apply (expired_are_served_and_rescheduled 1 2 3 4 5 busy_state 5).
  - apply small_fits. cbn. lia.
  - apply busy_bits_registered. now right.
  - vm_compute. lia.
Defined.

Lemma select_picks_earliest_witness :
  user_functions (snd (task_select 4 0 busy_state))
  = user_functions busy_state /\
  unlocked_async_tasks (snd (task_select 4 0 busy_state))
  = unlocked_async_tasks busy_state /\
  (forall i, 0 <= i < 4 ->
     periodic 0 (entry busy_state i) = true ->
     fst (task_select 4 0 busy_state) <= next_exec (entry busy_state i)) /\
  ((forall i, 0 <= i < 4 -> periodic 0 (entry busy_state i) = false) ->
   fst (task_select 4 0 busy_state) = INT64_MAX /\
   expired_tasks (snd (task_select 4 0 busy_state))
   = expired_tasks busy_state) /\
  ((exists i, 0 <= i < 4 /\ periodic 0 (entry busy_state i) = true) ->
   (exists i, 0 <= i < 4 /\ periodic 0 (entry busy_state i) = true /\
      next_exec (entry busy_state i) = fst (task_select 4 0 busy_state)) /\
   forall j, 0 <= j ->
     Z.testbit (expired_tasks (snd (task_select 4 0 busy_state))) j
     = (j <? 4) && periodic 0 (entry busy_state j)
       && (next_exec (entry busy_state j)
           =? fst (task_select 4 0 busy_state))).
Proof.
  apply (select_picks_earliest 4 0 busy_state).
  - lia.
  - intros i Hi.
    assert (Hc : i = 0 \/ i = 1 \/ i = 2 \/ i = 3) by lia.
    destruct Hc as [-> | [-> | [-> | ->]]]; vm_compute; reflexivity.
Defined.

End UserFunctionsFacts.

(** * Properties of the flash driver *)

Module FlashFacts.

Import Flash.

Lemma memcpys_app l1 l2 : memcpys (l1 ++ l2) = memcpys l1 ++ memcpys l2.
Proof. unfold memcpys. apply flat_map_app. Qed.

Lemma memcpys_reads sr w :
  Forall (fun o => exists x, o = Read sr x) w -> memcpys w = [].
Proof.
  induction 1 as [|o w (x & ->) _ IH]; [reflexivity|]. exact IH.
Qed.

Lemma bind_some {A B} (m : M A) (k : A -> M B) h r :
  bind m k h = Some r ->
  exists a h1, m h = Some (a, h1) /\ k a h1 = Some r.
Proof.
  unfold bind. destruct (m h) as [[a h1]|]; [eauto|discriminate].
Qed.

Lemma read_ops r h v h' :
  read r h = Some (v, h') -> ops h' = ops h ++ [Read r v].
Proof.
  unfold read. destruct (answers h r) as [|x rest]; [discriminate|].
  intros H. inversion H. reflexivity.
Qed.

Lemma ret_ops {A} (a b : A) h h' :
  ret a h = Some (b, h') -> ops h' = ops h ++ [].
Proof. unfold ret. intros H. inversion H. now rewrite app_nil_r. Qed.

Lemma emit_ops o h u h' :
  emit o h = Some (u, h') -> ops h' = ops h ++ [o].
Proof. unfold emit. intros H. inversion H. reflexivity. Qed.

Lemma wait_answers_ops r mask ans : forall tr rest tr',
  wait_answers r mask ans tr = Some (rest, tr') ->
  exists w, tr' = tr ++ w /\ Forall (fun o => exists x, o = Read r x) w.
Proof.
  induction ans as [|v ans IH]; intros tr rest tr' H; [discriminate|].
  cbn [wait_answers] in H. destruct (Z.land v mask =? 0).
  - inversion H. exists [Read r v]. split; [reflexivity|].
    constructor; [eauto|constructor].
  - apply IH in H. destruct H as (w & -> & Hw).
    exists (Read r v :: w). split; [now rewrite <- app_assoc|].
    constructor; [eauto|exact Hw].
Qed.

Lemma wait_clear_ops r mask h u h' :
  wait_clear r mask h = Some (u, h') ->
  exists w, ops h' = ops h ++ w /\
            Forall (fun o => exists x, o = Read r x) w.
Proof.
  unfold wait_clear. intros H.
  destruct (wait_answers r mask (answers h r) (ops h)) as [[rest tr]|] eqn:E;
    [|discriminate].
  inversion H. cbn [ops]. eapply wait_answers_ops; eauto.
Qed.

Section Facts.

Variables FLASH_CR_LOCK FLASH_CR_SER FLASH_CR_SNB FLASH_CR_SNB_Pos
  FLASH_CR_START FLASH_CR_PG FLASH_SR_BSY FLASH_SR_QW : Z.

Local Abbreviation unlock := (unlock FLASH_CR_LOCK).
Local Abbreviation unlock_bank1 := (unlock_bank1 FLASH_CR_LOCK).
Local Abbreviation unlock_bank2 := (unlock_bank2 FLASH_CR_LOCK).
Local Abbreviation program := (program FLASH_CR_PG FLASH_SR_QW).
Local Abbreviation flash_write :=
  (flash_write FLASH_CR_LOCK FLASH_CR_PG FLASH_SR_QW).
Local Abbreviation erase_in_bank :=
  (erase_in_bank FLASH_CR_LOCK FLASH_CR_SER FLASH_CR_SNB FLASH_CR_SNB_Pos
     FLASH_CR_START FLASH_SR_BSY FLASH_SR_QW).
Local Abbreviation flash_eraseSector_bank :=
  (flash_eraseSector_bank FLASH_CR_LOCK FLASH_CR_SER FLASH_CR_SNB
     FLASH_CR_SNB_Pos FLASH_CR_START FLASH_SR_BSY FLASH_SR_QW).
Local Abbreviation flash_eraseSector :=
  (flash_eraseSector FLASH_CR_LOCK FLASH_CR_SER FLASH_CR_SNB
     FLASH_CR_SNB_Pos FLASH_CR_START FLASH_SR_BSY FLASH_SR_QW).
Local Abbreviation unlock_trace := (unlock_trace FLASH_CR_LOCK).
Local Abbreviation program_trace := (program_trace FLASH_CR_PG).

(** The unlock returns true exactly when the control register read last
    has the lock bit clear. *)
Lemma unlock_ops cr keyr h b h' :
  unlock cr keyr h = Some (b, h') ->
  exists l, ops h' = ops h ++ l /\ unlock_trace cr keyr l.
Proof.
  unfold Flash.unlock. intros H.
  apply bind_some in H. destruct H as (v & h1 & E1 & H).
  apply read_ops in E1.
  destruct (Z.land v FLASH_CR_LOCK =? 0) eqn:Ev.
  - inversion H; subst. exists [Read cr v]. split; [exact E1|].
    left. exists v. split; [now apply Z.eqb_eq|reflexivity].
  - apply bind_some in H. destruct H as (u2 & h2 & E2 & H).
    apply bind_some in H. destruct H as (u3 & h3 & E3 & H).
    apply bind_some in H. destruct H as (u4 & h4 & E4 & H).
    apply bind_some in H. destruct H as (v' & h5 & E5 & H).
    apply emit_ops in E2, E3, E4. apply read_ops in E5.
    assert (Hh : h' = h5)
      by (destruct (Z.land v' FLASH_CR_LOCK =? 0); inversion H; reflexivity).
    subst h'.
    exists [Read cr v; Write keyr KEY1; Write keyr KEY2; ISB; Read cr v'].
    split.
    + rewrite E5, E4, E3, E2, E1. rewrite <- !app_assoc. reflexivity.
    + right. exists v, v'. split; [now apply Z.eqb_neq|reflexivity].
Qed.

Lemma program_ops cr sr mem buf n h u h' :
  program cr sr mem buf n h = Some (u, h') ->
  exists l, ops h' = ops h ++ l /\
            program_trace cr sr mem (firstn (Z.to_nat n) buf) l.
Proof.
  unfold Flash.program. intros H.
  apply bind_some in H. destruct H as (u1 & h1 & E1 & H).
  apply bind_some in H. destruct H as (u2 & h2 & E2 & H).
  apply bind_some in H. destruct H as (u3 & h3 & E3 & H).
  apply bind_some in H. destruct H as (u4 & h4 & E4 & H).
  apply bind_some in H. destruct H as (u5 & h5 & E5 & H).
  unfold clear_bits in H.
  apply bind_some in H. destruct H as (v & h6 & E6 & H).
  apply wait_clear_ops in E1, E5.
  destruct E1 as (w1 & E1 & Hw1). destruct E5 as (w2 & E5 & Hw2).
  apply emit_ops in E2, E3, E4, H. apply read_ops in E6.
  eexists. split.
  - rewrite H, E6, E5, E4, E3, E2, E1. rewrite <- !app_assoc.
    cbn [app]. reflexivity.
  - exists w1, w2, v. split; [exact Hw1|]. split; [exact Hw2|].
    cbn [app]. reflexivity.
Qed.

Lemma memcpys_unlock_trace cr keyr l :
  unlock_trace cr keyr l -> memcpys l = [].
Proof. intros [(v & _ & ->) | (v & v' & _ & ->)]; reflexivity. Qed.

Lemma memcpys_program_trace cr sr mem bytes l :
  program_trace cr sr mem bytes l -> memcpys l = [(mem, bytes)].
Proof.
  intros (w1 & w2 & v & Hw1 & Hw2 & ->).
  rewrite !memcpys_app, (memcpys_reads _ _ Hw1), (memcpys_reads _ _ Hw2).
  reflexivity.
Qed.

(** X23.  [flash_eraseSector] maps the sector numbers 0 to 7 to bank 1 and
    8 to 15 to the sectors 0 to 7 of bank 2; for a sector number from 16 on
    it returns false without touching the hardware. *)
Theorem erase_sector_by_bank secNum h :
  0 <= secNum <= 255 ->
  flash_eraseSector secNum h
  = if secNum <? 8 then erase_in_bank CR1 SR1 KEYR1 secNum h
    else if secNum <? 16 then erase_in_bank CR2 SR2 KEYR2 (secNum - 8) h
    else Some (false, h).
Proof.
  intros Hs.
  unfold Flash.flash_eraseSector, Flash.flash_eraseSector_bank, to_u8.
  assert (Hm : 0 <= secNum mod 8 < 8) by (apply Z.mod_pos_bound; lia).
  assert (Hd : 0 <= secNum / 8 < 32).
  { split; [apply Z.div_pos; lia | apply Z.div_lt_upper_bound; lia]. }
  assert (He : secNum = 8 * (secNum / 8) + secNum mod 8)
    by (apply Z.div_mod; lia).
  change (2 ^ 8) with 256.
  rewrite (Z.mod_small (secNum mod 8)) by lia.
  rewrite (Z.mod_small (1 + secNum / 8)) by lia.
  replace (secNum mod 8 >? 7) with false
    by (symmetry; rewrite Z.gtb_ltb; apply Z.ltb_ge; lia).
  destruct (secNum <? 8) eqn:E8.
  - apply Z.ltb_lt in E8.
    assert (secNum / 8 = 0) by lia.
    replace (1 + secNum / 8 =? 1) with true
      by (symmetry; apply Z.eqb_eq; lia).
    now replace (secNum mod 8) with secNum by lia.
  - apply Z.ltb_ge in E8.
    replace (1 + secNum / 8 =? 1) with false
      by (symmetry; apply Z.eqb_neq; lia).
    destruct (secNum <? 16) eqn:E16.
    + apply Z.ltb_lt in E16.
      assert (secNum / 8 = 1) by lia.
      replace (1 + secNum / 8 =? 2) with true
        by (symmetry; apply Z.eqb_eq; lia).
      now replace (secNum mod 8) with (secNum - 8) by lia.
    + apply Z.ltb_ge in E16.
      replace (1 + secNum / 8 =? 2) with false
        by (symmetry; apply Z.eqb_neq; lia).
      reflexivity.
Qed.

(** X24.  What [flash_write] does when it returns true, for a range that
    ends below 2^32: the address and the length are multiples of 32; the
    driver has unlocked bank 1 when the range starts in it and bank 2 when
    the range reaches the first address of bank 2; then it has programmed
    the share of bank 1, if any, through the registers of bank 1, and the
    rest, from the first address of bank 2 on, through those of bank 2;
    and it has done nothing else to the hardware. *)
Theorem flash_write_programs address buf len h h' :
  0 <= address -> 0 <= len -> address + len <= UINT32_MAX ->
  flash_write address (Some buf) len h = Some (true, h') ->
  Z.land address 0x1F = 0 /\ Z.land len 0x1F = 0 /\ 0 < len /\
  (exists u1 u2 p1 p2,
     ops h' = ops h ++ u1 ++ u2 ++ p1 ++ p2 /\
     (if address <? BANK2_BASE then unlock_trace CR1 KEYR1 u1
      else u1 = []) /\
     (if BANK2_BASE <=? address + len then unlock_trace CR2 KEYR2 u2
      else u2 = []) /\
     (if 0 <? bank1_share address len
      then program_trace CR1 SR1 address
             (firstn (Z.to_nat (bank1_share address len)) buf) p1
      else p1 = []) /\
     (if bank1_share address len <? len
      then program_trace CR2 SR2 (address + bank1_share address len)
             (firstn (Z.to_nat (len - bank1_share address len))
                (skipn (Z.to_nat (bank1_share address len)) buf)) p2
      else p2 = [])) /\
  memcpys (ops h')
  = memcpys (ops h)
    ++ (if 0 <? bank1_share address len
        then [(address, firstn (Z.to_nat (bank1_share address len)) buf)]
        else [])
    ++ (if bank1_share address len <? len
        then [(address + bank1_share address len,
               firstn (Z.to_nat (len - bank1_share address len))
                 (skipn (Z.to_nat (bank1_share address len)) buf))]
        else []).
Proof.
  intros Ha Hl Hmax H. unfold Flash.flash_write in H.
  destruct (len =? 0) eqn:E0; [discriminate H|]. apply Z.eqb_neq in E0.
  destruct (negb (Z.land address 31 =? 0) || negb (Z.land len 31 =? 0))
    eqn:Eal; [discriminate H|].
  apply orb_false_iff in Eal. destruct Eal as (Ea & El).
  apply negb_false_iff, Z.eqb_eq in Ea. apply negb_false_iff, Z.eqb_eq in El.
  split; [exact Ea|]. split; [exact El|]. split; [lia|].
  apply bind_some in H. destruct H as (ok1 & h1 & E1 & H).
  destruct ok1; cbn [negb] in H; [|discriminate H].
  apply bind_some in H. destruct H as (ok2 & h2 & E2 & H).
  destruct ok2; cbn [negb] in H; [|discriminate H].
  apply bind_some in H. destruct H as (u3 & h3 & E3 & H).
  apply bind_some in H. destruct H as (u4 & h4 & E4 & H).
  injection H as <-.
  assert (Hbase : BANK2_BASE = 135266304) by reflexivity.
  rewrite (to_u32_small (address + len)) in E2 by lia.
  replace (address + len >=? BANK2_BASE) with (BANK2_BASE <=? address + len)
    in E2 by (rewrite Z.geb_leb; reflexivity).
  (* the share of bank 1, as the code computes it *)
  assert (Hshare : (if address <? BANK2_BASE
                    then if to_u32 (BANK2_BASE - address) >? len
                         then len else to_u32 (BANK2_BASE - address)
                    else 0) = bank1_share address len).
  { unfold bank1_share. destruct (address <? BANK2_BASE) eqn:Eb;
      [|reflexivity].
    apply Z.ltb_lt in Eb.
    rewrite (to_u32_small (BANK2_BASE - address))
      by (unfold UINT32_MAX; lia).
    destruct (BANK2_BASE - address >? len) eqn:E;
      rewrite Z.gtb_ltb in E;
      [apply Z.ltb_lt in E|apply Z.ltb_ge in E]; lia. }
  cbv zeta in E3, E4. rewrite Hshare in E3, E4.
  set (b1 := bank1_share address len) in *.
  assert (Hb1 : 0 <= b1 <= len).
  { unfold b1, bank1_share. destruct (address <? BANK2_BASE) eqn:Eb;
      [apply Z.ltb_lt in Eb|]; lia. }
  replace (b1 >? 0) with (0 <? b1) in E3, E4
    by (rewrite Z.gtb_ltb; reflexivity).
  assert (Hu1 : exists u1, ops h1 = ops h ++ u1 /\
                  (if address <? BANK2_BASE then unlock_trace CR1 KEYR1 u1
                   else u1 = [])).
  { destruct (address <? BANK2_BASE).
    - apply unlock_ops in E1. exact E1.
    - apply ret_ops in E1. exists []. split; [exact E1|reflexivity]. }
  assert (Hu2 : exists u2, ops h2 = ops h1 ++ u2 /\
                  (if BANK2_BASE <=? address + len
                   then unlock_trace CR2 KEYR2 u2 else u2 = [])).
  { destruct (BANK2_BASE <=? address + len).
    - apply unlock_ops in E2. exact E2.
    - apply ret_ops in E2. exists []. split; [exact E2|reflexivity]. }
  assert (Hp1 : exists p1, ops h3 = ops h2 ++ p1 /\
                  (if 0 <? b1
                   then program_trace CR1 SR1 address
                          (firstn (Z.to_nat b1) buf) p1
                   else p1 = [])).
  { destruct (0 <? b1).
    - apply program_ops in E3. exact E3.
    - apply ret_ops in E3. exists []. split; [exact E3|reflexivity]. }
  assert (Hp2 : exists p2, ops h4 = ops h3 ++ p2 /\
                  (if b1 <? len
                   then program_trace CR2 SR2 (address + b1)
                          (firstn (Z.to_nat (len - b1))
                             (skipn (Z.to_nat b1) buf)) p2
                   else p2 = [])).
  { destruct (b1 <? len) eqn:Elt.
    - apply Z.ltb_lt in Elt. apply program_ops in E4.
      rewrite (to_u32_small (len - b1)) in E4 by lia.
      destruct (0 <? b1) eqn:Eb.
      + rewrite (to_u32_small (address + b1)) in E4 by lia. exact E4.
      + apply Z.ltb_ge in Eb. replace b1 with 0 in * by lia.
        rewrite Z.add_0_r. exact E4.
    - apply ret_ops in E4. exists []. split; [exact E4|reflexivity]. }
  destruct Hu1 as (u1 & Eu1 & Hu1). destruct Hu2 as (u2 & Eu2 & Hu2).
  destruct Hp1 as (p1 & Ep1 & Hp1). destruct Hp2 as (p2 & Ep2 & Hp2).
  assert (Hops : ops h4 = ops h ++ u1 ++ u2 ++ p1 ++ p2)
    by (rewrite Ep2, Ep1, Eu2, Eu1, <- !app_assoc; reflexivity).
  split.
  - exists u1, u2, p1, p2. auto.
  - rewrite Hops, !memcpys_app.
    assert (M1 : memcpys u1 = []).
    { destruct (address <? BANK2_BASE);
        [eapply memcpys_unlock_trace; eauto | now subst]. }
    assert (M2 : memcpys u2 = []).
    { destruct (BANK2_BASE <=? address + len);
        [eapply memcpys_unlock_trace; eauto | now subst]. }
    rewrite M1, M2. cbn [app]. f_equal. f_equal.
    + destruct (0 <? b1);
        [eapply memcpys_program_trace; eauto | now subst].
    + destruct (b1 <? len);
        [eapply memcpys_program_trace; eauto | now subst].
Qed.

(** X25.  A write that ends at the last byte of bank 1 still needs bank 2:
    when [address + len] is the first address of bank 2 and the control
    register of bank 1 reads unlocked, [flash_write] reads the control
    register of bank 2 although every byte belongs to bank 1; when that
    register reads locked, before and after the keys that the driver writes
    to the key register of bank 2, [flash_write] returns false, and these
    six operations are all it has done: nothing is programmed. *)
Theorem write_up_to_bank2_needs_bank2 address buf len h c1 r1 c2 c2' r2 :
  answers h CR1 = c1 :: r1 ->
  answers h CR2 = c2 :: c2' :: r2 ->
  Z.land c1 FLASH_CR_LOCK = 0 ->
  Z.land c2 FLASH_CR_LOCK <> 0 -> Z.land c2' FLASH_CR_LOCK <> 0 ->
  0 <= address -> 0 < len -> address + len = BANK2_BASE ->
  Z.land address 0x1F = 0 -> Z.land len 0x1F = 0 ->
  bank1_share address len = len /\
  exists h',
    flash_write address (Some buf) len h = Some (false, h') /\
    ops h' = ops h ++ [Read CR1 c1; Read CR2 c2; Write KEYR2 KEY1;
                       Write KEYR2 KEY2; ISB; Read CR2 c2'] /\
    memcpys (ops h') = memcpys (ops h).
Proof.
  intros Hans1 Hans2 Hc1 Hc2 Hc2' Ha Hl Hend Haa Hal.
  assert (Hbase : BANK2_BASE = 135266304) by reflexivity.
  split.
  { unfold bank1_share.
    replace (address <? BANK2_BASE) with true
      by (symmetry; apply Z.ltb_lt; lia).
    lia. }
  unfold Flash.flash_write.
  replace (len =? 0) with false by (symmetry; apply Z.eqb_neq; lia).
  change (Z.land address 31) with (Z.land address 0x1F).
  change (Z.land len 31) with (Z.land len 0x1F).
  rewrite Haa, Hal. cbn [Z.eqb negb orb].
  replace (address <? BANK2_BASE) with true
    by (symmetry; apply Z.ltb_lt; lia).
  rewrite Hend.
  replace (to_u32 BANK2_BASE >=? BANK2_BASE) with true by reflexivity.
  unfold Flash.unlock_bank1, Flash.unlock_bank2, Flash.unlock, bind, read,
    write, emit, ret.
  rewrite Hans1. cbn [answers ops]. rewrite Hc1.
  cbn [Z.eqb negb answers ops set_answers reg_eqb]. rewrite Hans2.
  replace (Z.land c2 FLASH_CR_LOCK =? 0) with false
    by (symmetry; apply Z.eqb_neq; exact Hc2).
  cbn [answers ops set_answers reg_eqb].
  replace (Z.land c2' FLASH_CR_LOCK =? 0) with false
    by (symmetry; apply Z.eqb_neq; exact Hc2').
  cbn [negb]. eexists. split; [reflexivity|].
  cbn [ops]. rewrite <- !app_assoc. cbn [app]. split; [reflexivity|].
  rewrite memcpys_app. cbn [memcpys flat_map app]. apply app_nil_r.
Qed.

End Facts.

Lemma erase_sector_by_bank_witness :
  flash_eraseSector 1 4 0x700 8 0x80 1 4 20 (idle_hw [1; 0] [] [] [])
  = Some (false, idle_hw [1; 0] [] [] []).
Proof.
  apply (erase_sector_by_bank 1 4 0x700 8 0x80 1 4 20
           (idle_hw [1; 0] [] [] [])).
  lia.
Defined.

Lemma flash_write_programs_witness :
  exists h',
    flash_write 1 2 4 (BANK2_BASE - 32) (Some (repeat 0xA5 64)) 64
      (idle_hw [1; 0; 0] [1; 0; 0] [0; 4; 0] [0; 0]) = Some (true, h') /\
    ops h'
    = [Read CR1 1; Write KEYR1 KEY1; Write KEYR1 KEY2; ISB; Read CR1 0;
       Read CR2 1; Write KEYR2 KEY1; Write KEYR2 KEY2; ISB; Read CR2 0;
       Read SR1 0; Write CR1 2; Memcpy (BANK2_BASE - 32) (repeat 0xA5 32);
       DSB; Read SR1 4; Read SR1 0; Read CR1 0; Write CR1 0;
       Read SR2 0; Write CR2 2; Memcpy BANK2_BASE (repeat 0xA5 32);
       DSB; Read SR2 0; Read CR2 0; Write CR2 0] /\
    memcpys (ops h')
    = [(BANK2_BASE - 32, repeat 0xA5 32); (BANK2_BASE, repeat 0xA5 32)].
Proof.
  eexists. split; [vm_compute; reflexivity|].
  split; [vm_compute; reflexivity|].
  refine (proj2 (proj2 (proj2 (proj2
    (flash_write_programs 1 2 4 (BANK2_BASE - 32) (repeat 0xA5 64) 64
       (idle_hw [1; 0; 0] [1; 0; 0] [0; 4; 0] [0; 0]) _ _ _ _ _))))).
  - vm_compute. discriminate.
  - lia.
  - vm_compute. discriminate.
  - vm_compute. reflexivity.
Defined.

Lemma write_up_to_bank2_needs_bank2_witness :
  bank1_share (BANK2_BASE - 64) 64 = 64 /\
  exists h',
    flash_write 1 2 4 (BANK2_BASE - 64) (Some (repeat 0xA5 64)) 64
      (idle_hw [0] [1; 1] [] []) = Some (false, h') /\
    ops h' = ops (idle_hw [0] [1; 1] [] [])
             ++ [Read CR1 0; Read CR2 1; Write KEYR2 KEY1;
                 Write KEYR2 KEY2; ISB; Read CR2 1] /\
    memcpys (ops h') = memcpys (ops (idle_hw [0] [1; 1] [] [])).
Proof.
  apply (write_up_to_bank2_needs_bank2 1 2 4 (BANK2_BASE - 64)
           (repeat 0xA5 64) 64 (idle_hw [0] [1; 1] [] []) 0 [] 1 1 []).
  - reflexivity.
  - reflexivity.
  - reflexivity.
  - vm_compute. discriminate.
  - vm_compute. discriminate.
  - vm_compute. discriminate.
  - lia.
  - reflexivity.
  - reflexivity.
  - reflexivity.
Defined.

End FlashFacts.
